(** * Investigation knowledge graph: chat layer, graph view and graph contract

    A shallow embedding of the TypeScript front end (App.tsx, lib/api.ts,
    components/Chat.tsx, components/GraphView.tsx, components/Sidebar.tsx)
    together with the graph engine the front end talks to.

    Conventions.
    - A JavaScript string is a list of UTF-16 code units ([jsstring]).
    - An [async] function is a computation in the state-and-exception
      monad [M]: state changes made before a [throw] survive it, and
      [try]/[catch]/[finally] are combinators.  Unless a statement says
      otherwise, one handler runs to completion before the next event is
      delivered; a handler that still holds the closure of an older
      render is given that closure as its arguments.
    - React state is a record; a setter replaces one field.  The value a
      closure captured at render time (such as [selectedCaseId]) is a
      parameter of the handler.
    - The HTTP transport is a record of [fetch] transitions over an
      arbitrary environment [E]; the front end's theorems hold for every
      such environment. *)

From Stdlib Require Import ZArith QArith Lqa.
From stdpp Require Import gmap strings list pretty.

Close Scope Q_scope.
Open Scope Z_scope.

(** ** JavaScript values *)

Module Js.

Definition jsstring := list N.

(** A string literal of the source: one code unit per character. *)
Definition lit (s : string) : jsstring :=
  Ascii.N_of_ascii <$> String.list_ascii_of_string s.
Arguments lit : simpl never.

(** [number | null] in a boolean position: [null], and [0], are falsy.
    The result is the number when it is truthy. *)
Definition truthy_number (v : option Z) : option Z :=
  match v with
  | Some n => if decide (n = 0) then None else Some n
  | None => None
  end.

(** A string in a boolean position: only the empty string is falsy. *)
Definition truthy_string (s : jsstring) : bool :=
  match s with [] => false | _ => true end.

(** WhiteSpace and LineTerminator code units of ECMAScript, the ones
    [String.prototype.trim] strips. *)
Definition is_white_space (c : N) : bool :=
  bool_decide (c ∈ [0x9; 0xA; 0xB; 0xC; 0xD; 0x20; 0xA0; 0x1680;
                    0x2000; 0x2001; 0x2002; 0x2003; 0x2004; 0x2005;
                    0x2006; 0x2007; 0x2008; 0x2009; 0x200A; 0x2028;
                    0x2029; 0x202F; 0x205F; 0x3000; 0xFEFF]%N).

Fixpoint trimStart (s : jsstring) : jsstring :=
  match s with
  | c :: s' => if is_white_space c then trimStart s' else s
  | [] => []
  end.

Definition trimEnd (s : jsstring) : jsstring :=
  reverse (trimStart (reverse s)).

Definition trim (s : jsstring) : jsstring := trimEnd (trimStart s).

Inductive JsError :=
| Error (msg : jsstring)
| TypeError (msg : jsstring)
| SyntaxError (msg : jsstring).

(** How a call ends: it returns a value or throws. *)
Inductive Outcome (A : Type) :=
| Return (a : A)
| Throw (e : JsError).
Arguments Return {A} a.
Arguments Throw {A} e.

(** Computations over a state [S] that may throw; the state reached
    when the exception is thrown is kept. *)
Definition M (S A : Type) : Type := S → Outcome A * S.

Definition ret {S A} (a : A) : M S A := λ s, (Return a, s).

Definition throw {S A} (e : JsError) : M S A := λ s, (Throw e, s).

Definition bind {S A B} (c : M S A) (k : A → M S B) : M S B :=
  λ s, match c s with
       | (Return a, s') => k a s'
       | (Throw e, s') => (Throw e, s')
       end.

(** [try { body } catch (e) { handler e }] *)
Definition try_catch {S A} (body : M S A) (handler : JsError → M S A) : M S A :=
  λ s, match body s with
       | (Return a, s') => (Return a, s')
       | (Throw e, s') => handler e s'
       end.

(** [try { body } finally { final }]: [final] always runs; if it throws,
    its exception replaces the outcome of [body]. *)
Definition try_finally {S A} (body : M S A) (final : M S unit) : M S A :=
  λ s, match body s with
       | (o, s') =>
           match final s' with
           | (Return _, s'') => (o, s'')
           | (Throw e, s'') => (Throw e, s'')
           end
       end.

Definition try_catch_finally {S A}
    (body : M S A) (handler : JsError → M S A) (final : M S unit) : M S A :=
  try_finally (try_catch body handler) final.

Definition modify {S} (f : S → S) : M S unit := λ s, (Return (), f s).

(** Lift a finished outcome (for instance the result of parsing a body
    that has already been received). *)
Definition of_outcome {S A} (o : Outcome A) : M S A := λ s, (o, s).

(** A value as [JSON.parse] (and [response.json()]) gives it. *)
Inductive Json :=
| JNull
| JBool (b : bool)
| JNumber (n : Q)
| JString (s : jsstring)
| JArray (items : list Json)
| JObject (members : list (jsstring * Json)).

(** A parsed value in a boolean position: [null], [false], [0] and the
    empty string are falsy. *)
Definition truthy_json (v : Json) : bool :=
  match v with
  | JNull => false
  | JBool b => b
  | JNumber n => negb (Qeq_bool n 0)
  | JString s => truthy_string s
  | JArray _ | JObject _ => true
  end.

#[global] Instance M_ret {S} : MRet (M S) := @ret S.
#[global] Instance M_bind {S} : MBind (M S) := λ A B k c, bind c k.

End Js.

Import Js.

(** ** lib/api.ts *)

Module Api.

Record ChatMessage := {
  role : jsstring;      (* 'user' | 'assistant' *)
  content : jsstring;
}.

Record GraphNode := {
  id : jsstring;
  label : jsstring;
  type : jsstring;
  color : jsstring;
}.

Record GraphEdge := {
  source : jsstring;
  target : jsstring;
  elabel : jsstring;    (* field [label] of GraphEdge *)
}.

Record GraphData := {
  nodes : list GraphNode;
  edges : list GraphEdge;
}.

Record Case := {
  case_id : Z;
  title : jsstring;
  created_at : jsstring;
  updated_at : jsstring;
}.

Record StoredMessage := {
  msg_id : Z;
  msg_role : jsstring;
  msg_content : jsstring;
  msg_created_at : jsstring;
}.

Record CaseDetail := {
  case_of : Case;
  case_messages : list StoredMessage;
}.

(** Modelled from the spec: the body of a chat reply, whose type the
    missing back end declares ([sendMessage] is typed [Promise<any>]):
    [graph_updated: bool] of section 6, and [assistant_message], the
    other property the caller reads, a string. *)
Record ChatResponse := {
  assistant_message : jsstring;
  graph_updated : bool;
}.

Record ClearResult := {
  success : bool;
  message : jsstring;
}.

(** The part of a browser [File] the chat reads. *)
Record File := {
  file_name : jsstring;
  file_type : jsstring;
}.

(** Modelled from the spec: the body of an upload reply, whose type the
    missing back end declares; [uploadFile] returns its [text], the raw
    text extracted from the file (section 1). *)
Record UploadData := {
  text : jsstring;
}.

(** What [fetch] resolves to: the [ok] flag and what [json()] gives. *)
Record HttpResponse (B : Type) := {
  ok : bool;
  json : Outcome B;
}.
Arguments ok {B} _.
Arguments json {B} _.

(** The transport: one [fetch] per endpoint used below, each a
    transition of the environment that may itself throw. *)
Record Net (E : Type) := {
  fetch_chat : Z → jsstring → option jsstring → M E (HttpResponse ChatResponse);
  fetch_graph : Z → M E (HttpResponse GraphData);
  fetch_clear : Z → M E (HttpResponse ClearResult);
  fetch_case : Z → M E (HttpResponse CaseDetail);
  fetch_upload : File → M E (HttpResponse UploadData);
}.
Arguments fetch_chat {E} _.
Arguments fetch_graph {E} _.
Arguments fetch_clear {E} _.
Arguments fetch_case {E} _.
Arguments fetch_upload {E} _.

Section Functions.
Context {E : Type} (net : Net E).

Definition getCase (caseId : Z) : M E CaseDetail :=
    response ← fetch_case net caseId;
    if negb (ok response) then throw (Error (lit "Failed to fetch case"))
    else of_outcome (json response).

Definition sendMessage (caseId : Z) (message : jsstring)
      (fileContent : option jsstring) : M E ChatResponse :=
    response ← fetch_chat net caseId message fileContent;
    if negb (ok response) then throw (Error (lit "Failed to send message"))
    else of_outcome (json response).

Definition getGraph (caseId : Z) : M E GraphData :=
    response ← fetch_graph net caseId;
    if negb (ok response) then throw (Error (lit "Failed to fetch graph"))
    else of_outcome (json response).

Definition clearGraph (caseId : Z) : M E ClearResult :=
    response ← fetch_clear net caseId;
    if negb (ok response) then throw (Error (lit "Failed to clear graph"))
    else of_outcome (json response).

Definition uploadFile (file : File) : M E jsstring :=
    response ← fetch_upload net file;
    if negb (ok response) then throw (Error (lit "Failed to upload file"))
    else data ← of_outcome (json response); ret (text data).
End Functions.

End Api.

(** ** App.tsx *)

Module App.
Import Api.

Inductive Tab := chat | graph.

Record AppState := {
  activeTab : Tab;
  messages : list ChatMessage;
  graphNodes : list GraphNode;
  graphEdges : list GraphEdge;
  isLoading : bool;
  cases : list Case;
  isCasesLoading : bool;
}.

Inductive Request :=
| ChatReq (caseId : Z) (message : jsstring) (fileContent : option jsstring)
| GraphReq (caseId : Z)
| ClearReq (caseId : Z)
| CaseReq (caseId : Z)
| UploadReq (file : File).

(** What the handlers do to the outside, in order. *)
Inductive Event :=
| Requested (r : Request)
| Alerted (text : jsstring)
| ConsoleError (text : jsstring).

Record World (E : Type) := {
  app : AppState;
  env : E;
  trace : list Event;
}.
Arguments app {E} _.
Arguments env {E} _.
Arguments trace {E} _.

(** The events a handler added to the trace. *)
Definition new_events {E} (w w' : World E) : list Event :=
drop (length (trace w)) (trace w').

Section Handlers.
Context {E : Type} (net : Net E).

Definition set_app (f : AppState → AppState) : M (World E) unit :=
    modify (λ w, {| app := f (app w); env := env w; trace := trace w |}).

Definition emit (ev : Event) : M (World E) unit :=
    modify (λ w, {| app := app w; env := env w; trace := trace w ++ [ev] |}).

Definition setMessages (f : list ChatMessage → list ChatMessage) :=
    set_app (λ a, {| activeTab := activeTab a; messages := f (messages a);
                     graphNodes := graphNodes a; graphEdges := graphEdges a;
                     isLoading := isLoading a; cases := cases a;
                     isCasesLoading := isCasesLoading a |}).

Definition setGraphNodes (v : list GraphNode) :=
    set_app (λ a, {| activeTab := activeTab a; messages := messages a;
                     graphNodes := v; graphEdges := graphEdges a;
                     isLoading := isLoading a; cases := cases a;
                     isCasesLoading := isCasesLoading a |}).

Definition setGraphEdges (v : list GraphEdge) :=
    set_app (λ a, {| activeTab := activeTab a; messages := messages a;
                     graphNodes := graphNodes a; graphEdges := v;
                     isLoading := isLoading a; cases := cases a;
                     isCasesLoading := isCasesLoading a |}).

Definition setIsLoading (v : bool) :=
    set_app (λ a, {| activeTab := activeTab a; messages := messages a;
                     graphNodes := graphNodes a; graphEdges := graphEdges a;
                     isLoading := v; cases := cases a;
                     isCasesLoading := isCasesLoading a |}).

Definition alert (text : jsstring) := emit (Alerted text).
Definition console_error (text : jsstring) := emit (ConsoleError text).

  (** A call through [api]: the request is issued (and recorded), the
      environment answers. *)
Definition call {A} (r : Request) (c : M E A) : M (World E) A :=
    λ w, match c (env w) with
         | (o, e') =>
             (o, {| app := app w; env := e'; trace := trace w ++ [Requested r] |})
         end.

Section Render.
    (** The value of the state variable captured by the closures. *)
Variable selectedCaseId : option Z.

Definition loadGraph : M (World E) unit :=
      match truthy_number selectedCaseId with
      | None => ret ()
      | Some caseId =>
          try_catch
            (data ← call (GraphReq caseId) (getGraph net caseId);
             setGraphNodes (nodes data);;
             setGraphEdges (edges data))
            (λ error, console_error (lit "Failed to load graph:"))
      end.

Definition loadCaseData (caseId : Z) : M (World E) unit :=
      try_catch
        (caseDetail ← call (CaseReq caseId) (getCase net caseId);
         let chatMessages :=
           (λ msg, {| role := msg_role msg; content := msg_content msg |})
             <$> case_messages caseDetail in
         setMessages (λ _, chatMessages);;
         loadGraph)
        (λ error, console_error (lit "Failed to load case data:")).

Definition handleSendMessage (message : jsstring)
        (fileContent : option jsstring) : M (World E) unit :=
      match truthy_number selectedCaseId with
      | None => alert (lit "Please select or create a case first")
      | Some caseId =>
          let userMessage := {| role := lit "user"; content := message |} in
          setMessages (λ prev, prev ++ [userMessage]);;
          setIsLoading true;;
          try_catch_finally
            (response ← call (ChatReq caseId message fileContent)
                             (sendMessage net caseId message fileContent);
             let assistantMessage :=
               {| role := lit "assistant";
                  content := assistant_message response |} in
             setMessages (λ prev, prev ++ [assistantMessage]);;
             if graph_updated response then loadGraph else ret ())
            (λ error,
               console_error (lit "Failed to send message:");;
               let errorMessage :=
                 {| role := lit "assistant";
                    content := lit "Sorry, there was an error processing your message. Please try again." |} in
               setMessages (λ prev, prev ++ [errorMessage]))
            (setIsLoading false)
      end.

Definition handleClearMemory : M (World E) unit :=
      match truthy_number selectedCaseId with
      | None => ret ()
      | Some caseId =>
          try_catch
            (_ ← call (ClearReq caseId) (clearGraph net caseId);
             setGraphNodes [];;
             setGraphEdges [];;
             loadCaseData caseId)
            (λ error, console_error (lit "Failed to clear graph:"))
      end.
End Render.
End Handlers.

End App.

(** ** components/Chat.tsx *)

Module Chat.
Import Api App.

(** State of the component that [handleSubmit] reads or writes (the voice
    recording state is neither read nor written by it). *)
Record ChatState := {
  input : jsstring;
  selectedFile : option File;
}.

(** The component inside its parent: its own state, the parent's world,
    and the calls made to the [onSendMessage] prop, in order. *)
Record ChatWorld (E : Type) := {
  cstate : ChatState;
  parent : World E;
  sent : list (jsstring * option jsstring);
}.
Arguments cstate {E} _.
Arguments parent {E} _.
Arguments sent {E} _.

Section Component.
Context {E : Type} (net : Net E).

Definition in_parent {A} (c : M (World E) A) : M (ChatWorld E) A :=
  λ w, match c (parent w) with
       | (o, p') => (o, {| cstate := cstate w; parent := p'; sent := sent w |})
       end.

Definition setInput (v : jsstring) : M (ChatWorld E) unit :=
  modify (λ w, {| cstate := {| input := v; selectedFile := selectedFile (cstate w) |};
                  parent := parent w; sent := sent w |}).

Definition setSelectedFile (v : option File) : M (ChatWorld E) unit :=
  modify (λ w, {| cstate := {| input := input (cstate w); selectedFile := v |};
                  parent := parent w; sent := sent w |}).

Section Render.
(** Props and the state values captured by this render's closures. *)
Variable onSendMessage : jsstring → option jsstring → M (World E) unit.
Variable isLoading : bool.
Variable input_ : jsstring.
Variable selectedFile_ : option File.

(** The call [onSendMessage(input, fileContent)]: recorded, then run in
    the parent.  (The prop is an async function of the parent whose
    promise is not awaited; it touches none of this component's state, so
    running it here or later gives the same final worlds.) *)
Definition call_onSendMessage (message : jsstring)
    (fileContent : option jsstring) : M (ChatWorld E) unit :=
  modify (λ w, {| cstate := cstate w; parent := parent w;
                  sent := sent w ++ [(message, fileContent)] |});;
  in_parent (onSendMessage message fileContent).

(** The upload step of [handleSubmit]; [None] is the [return] of its
    catch block, [Some fileContent] falls through to the send.  The
    notice starts with the four characters U+00F0 U+0178 U+201C U+201E
    that the source file holds there. *)
Definition upload_selected (file : File) : M (ChatWorld E) (option (option jsstring)) :=
  try_catch
    (let uploadingMsg :=
       [0xF0; 0x178; 0x201C; 0x201E]%N ++ lit " Uploading and processing "
         ++ file_name file ++ lit "..." in
     setInput uploadingMsg;;
     fileContent ← in_parent (call (UploadReq file) (uploadFile net file));
     let preview :=
       if truthy_string fileContent then take 1000 fileContent else [] in
     setInput (lit "File: " ++ file_name file
                 ++ [0xA; 0xA]%N ++ lit "Analyze this evidence:" ++ [0xA; 0xA]%N
                 ++ preview
                 ++ (if truthy_string fileContent
                        && bool_decide (1000 < length fileContent)%nat
                     then lit "..." else []));;
     ret (Some (Some fileContent)))
    (λ error,
       in_parent (console_error (lit "File upload failed:"));;
       in_parent (alert (lit "Failed to process file. Please try again."));;
       setSelectedFile None;;
       ret None).

Definition handleSubmit : M (ChatWorld E) unit :=
  (* e.preventDefault() *)
  if truthy_string (trim input_) && negb isLoading then
    step ← match selectedFile_ with
           | Some file => upload_selected file
           | None => ret (Some None)
           end;
    match step with
    | None => ret ()
    | Some fileContent =>
        call_onSendMessage input_ fileContent;;
        setInput [];;
        setSelectedFile None
    end
  else ret ().

(** The [disabled] attribute of the submit button. *)
Definition send_button_disabled : bool :=
  isLoading || negb (truthy_string (trim input_)).

End Render.
End Component.

End Chat.

(** ** components/Sidebar.tsx (the Actions panel) *)

Module Sidebar.

Record SidebarState := {
  showConfirm : bool;
  isCollapsed : bool;
}.

(** What the Actions panel shows. *)
Inductive ActionsPanel :=
| ClearCaseMemoryButton (disabled : bool)
| ConfirmPanel.

Section Render.
Variable selectedCaseId : option Z.

(** The collapsed sidebar has no Actions panel. *)
Definition actions (s : SidebarState) : option ActionsPanel :=
  if isCollapsed s then None
  else if negb (showConfirm s)
       then Some (ClearCaseMemoryButton (negb (bool_decide (is_Some (truthy_number selectedCaseId)))))
       else Some ConfirmPanel.

Inductive Click := ClickClearCaseMemory | ClickYes | ClickNo.

(** A click in the Actions panel: the new state and whether the
    [onClearMemory] prop was called.  A disabled button, and a control
    that is not shown, receive no click. *)
Definition click (c : Click) (s : SidebarState) : SidebarState * bool :=
  match actions s, c with
  | Some (ClearCaseMemoryButton false), ClickClearCaseMemory =>
      ({| showConfirm := true; isCollapsed := isCollapsed s |}, false)
  | Some ConfirmPanel, ClickYes =>
      (* handleClear *)
      ({| showConfirm := false; isCollapsed := isCollapsed s |}, true)
  | Some ConfirmPanel, ClickNo =>
      ({| showConfirm := false; isCollapsed := isCollapsed s |}, false)
  | _, _ => (s, false)
  end.
End Render.

End Sidebar.

(** ** components/GraphView.tsx *)

Module GraphView.
Import Api.

(** An entry of the [colors] table. *)
Record Palette := {
  bg : jsstring;
  text : jsstring;
  border : jsstring;
}.

(** The own properties of the object literal [colors]. *)
Definition colors : gmap jsstring Palette :=
  list_to_map
    [ (lit "Person", {| bg := lit "#EF4444"; text := lit "#FFFFFF"; border := lit "#DC2626" |});
      (lit "Location", {| bg := lit "#3B82F6"; text := lit "#FFFFFF"; border := lit "#2563EB" |});
      (lit "Object", {| bg := lit "#10B981"; text := lit "#FFFFFF"; border := lit "#059669" |});
      (lit "Event", {| bg := lit "#F59E0B"; text := lit "#000000"; border := lit "#D97706" |});
      (lit "Organization", {| bg := lit "#8B5CF6"; text := lit "#FFFFFF"; border := lit "#7C3AED" |});
      (lit "Unknown", {| bg := lit "#6B7280"; text := lit "#FFFFFF"; border := lit "#4B5563" |}) ].

(** [colors] is an ordinary object: a property that is not its own is
    looked up on [Object.prototype], whose properties are these. *)
Definition object_prototype_keys : list jsstring :=
  lit <$> [ "constructor"; "hasOwnProperty"; "isPrototypeOf";
            "propertyIsEnumerable"; "toLocaleString"; "toString"; "valueOf";
            "__proto__"; "__defineGetter__"; "__defineSetter__";
            "__lookupGetter__"; "__lookupSetter__" ]%string.

(** The six entity types of the design. *)
Definition closed_types : list jsstring :=
  lit <$> ["Person"; "Location"; "Object"; "Event"; "Organization"; "Unknown"]%string.

(** The value of [colors[key]]. *)
Inductive Property :=
| Own (p : Palette)
| Inherited (key : jsstring)   (* a method of Object.prototype, or for
                                  [__proto__] Object.prototype itself *)
| Undefined.

Definition get (key : jsstring) : Property :=
  match colors !! key with
  | Some p => Own p
  | None =>
      if bool_decide (key ∈ object_prototype_keys) then Inherited key
      else Undefined
  end.

(** [a || b]: objects and functions are truthy, [undefined] is not. *)
Definition or_else (a b : Property) : Property :=
  match a with
  | Undefined => b
  | _ => a
  end.

(** The result of [getEnhancedColor]; a property the spread did not copy
    is absent ([None], read back as [undefined]). *)
Record Color := {
  c_bg : option jsstring;
  c_text : option jsstring;
  c_border : option jsstring;
  c_shadow : jsstring;
}.

(** [{ ...color }]: the own enumerable properties of [color].  A function
    and Object.prototype have none. *)
Definition spread (color : Property) : option jsstring * option jsstring * option jsstring :=
  match color with
  | Own p => (Some (bg p), Some (text p), Some (border p))
  | Inherited _ | Undefined => (None, None, None)
  end.

Definition getEnhancedColor (type : jsstring) (isHighlighted isConnected : bool) : Color :=
  let color := or_else (get type) (get (lit "Unknown")) in
  let '(b, t, bd) := spread color in
  if isHighlighted then
    {| c_bg := b; c_text := t; c_border := Some (lit "#FFF");
       c_shadow := lit "0 0 20px rgba(255,255,255,0.8)" |}
  else if isConnected then
    {| c_bg := b; c_text := t; c_border := Some (lit "#FFF");
       c_shadow := lit "0 0 10px rgba(255,255,255,0.5)" |}
  else
    {| c_bg := b; c_text := t; c_border := bd;
       c_shadow := lit "0 2px 8px rgba(0,0,0,0.3)" |}.

Record Position := {
  x : Q;
  y : Q;
}.

(** The JSX element stored in [data.label]. *)
Record NodeLabel := {
  label_text : jsstring;
  type_text : jsstring;
  text_color : option jsstring;
}.

Record NodeStyle := {
  background : option jsstring;
  color : option jsstring;
  style_border : jsstring;
  borderRadius : jsstring;
  padding : jsstring;
  fontSize : jsstring;
  minWidth : jsstring;
  boxShadow : jsstring;
  cursor : jsstring;
  transition : jsstring;
  opacity : Q;
}.

(** A reactflow [Node]. *)
Record Node := {
  node_id : jsstring;
  node_type : jsstring;
  position : Position;
  data : NodeLabel;
  style : NodeStyle;
  draggable : bool;
}.

Inductive MarkerType := Arrow | ArrowClosed.

Record EdgeMarker := {
  marker_type : MarkerType;
  marker_color : jsstring;
}.

Record EdgeStyle := {
  stroke : jsstring;
  strokeWidth : Q;
  edge_opacity : Q;
}.

Record LabelStyle := {
  fill : jsstring;
  label_fontSize : Q;
  fontWeight : jsstring;
}.

Record LabelBgStyle := {
  bg_fill : jsstring;
  fillOpacity : Q;
}.

(** A reactflow [Edge]. *)
Record Edge := {
  edge_id : jsstring;
  edge_source : jsstring;
  edge_target : jsstring;
  edge_label : jsstring;
  edge_type : jsstring;
  animated : bool;
  edge_style : EdgeStyle;
  labelStyle : LabelStyle;
  labelBgStyle : LabelBgStyle;
  markerEnd : EdgeMarker;
}.

(** A value inside a template literal: [undefined] prints as such. *)
Definition template (v : option jsstring) : jsstring :=
  default (lit "undefined") v.

(** [calculateLayout]: columns and spacing of the grid. *)
Definition calculateLayout (nodeCount : nat) : nat * Z :=
  if bool_decide (nodeCount ≤ 6)%nat then
    match nodeCount with
    | 1%nat => (1%nat, 200)
    | 2%nat => (2%nat, 250)
    | 3%nat => (3%nat, 200)
    | 4%nat => (2%nat, 250)
    | 5%nat => (3%nat, 200)
    | _ => (3%nat, 200)       (* layouts[6], also the fallback *)
    end
  else (Nat.sqrt_up nodeCount, Z.max 180 (300 - Z.of_nat nodeCount * 5)).

(** The initial grid position of the node at [index]. *)
Definition grid_position (cols : nat) (spacing : Z) (index : nat) : Position :=
  let row := (index / cols)%nat in
  let col := (index mod cols)%nat in
  let offsetX := if bool_decide (row mod 2 = 1)%nat
                 then (inject_Z spacing / 2)%Q else 0%Q in
  {| x := (inject_Z (Z.of_nat col) * inject_Z spacing + offsetX + 100)%Q;
     y := (inject_Z (Z.of_nat row) * inject_Z spacing + 100)%Q |}.

Definition node_label (label type : jsstring) (c : Color) : NodeLabel :=
  {| label_text := label; type_text := type; text_color := c_text c |}.

(** The callback of [graphNodes.map] in the first effect. *)
Definition flow_node (saved : gmap jsstring Position) (cols : nat) (spacing : Z)
    (index : nat) (node : GraphNode) : Node :=
  let savedPosition := saved !! id node in
  let position :=
    match savedPosition with
    | Some p => p
    | None => grid_position cols spacing index
    end in
  let colors := getEnhancedColor (type node) false false in
  {| node_id := id node;
     node_type := lit "default";
     position := position;
     data := node_label (label node) (type node) colors;
     style := {| background := c_bg colors;
                 color := c_text colors;
                 style_border := lit "3px solid " ++ template (c_border colors);
                 borderRadius := lit "12px";
                 padding := lit "12px 16px";
                 fontSize := lit "13px";
                 minWidth := lit "140px";
                 boxShadow := c_shadow colors;
                 cursor := lit "pointer";
                 transition := lit "all 0.3s ease";
                 opacity := 1 |};
     draggable := true |}.

(** First effect: the node list built from new graph data, or [None]
    when the effect returns before [setNodes]. *)
Definition flowNodes (saved : gmap jsstring Position)
    (graphNodes : list GraphNode) : option (list Node) :=
  match graphNodes with
  | [] => None
  | _ =>
      let '(cols, spacing) := calculateLayout (length graphNodes) in
      Some (imap (flow_node saved cols spacing) graphNodes)
  end.

(** [string | null] in a boolean position. *)
Definition truthy_id (v : option jsstring) : bool :=
  match v with
  | Some s => truthy_string s
  | None => false
  end.

(** The set built by the [forEach] of the second effect. *)
Definition connectedNodeIds (selectedNodeId : option jsstring)
    (graphEdges : list GraphEdge) : gset jsstring :=
  if truthy_id selectedNodeId then
    foldl (λ acc edge,
             let acc1 := if bool_decide (Some (source edge) = selectedNodeId)
                         then acc ∪ {[ target edge ]} else acc in
             if bool_decide (Some (target edge) = selectedNodeId)
             then acc1 ∪ {[ source edge ]} else acc1)
          ∅ graphEdges
  else ∅.

(** The callback of [currentNodes.map] in the second effect. *)
Definition restyle_node (selectedNodeId : option jsstring)
    (connected : gset jsstring) (graphNodes : list GraphNode) (node : Node) : Node :=
  let isHighlighted := bool_decide (Some (node_id node) = selectedNodeId) in
  let isConnected := bool_decide (node_id node ∈ connected) in
  match List.find (λ gn, bool_decide (id gn = node_id node)) graphNodes with
  | None => node
  | Some graphNode =>
      let colors := getEnhancedColor (type graphNode) isHighlighted isConnected in
      {| node_id := node_id node;
         node_type := node_type node;
         position := position node;
         data := node_label (label graphNode) (type graphNode) colors;
         style := {| background := c_bg colors;
                     color := c_text colors;
                     style_border := lit "3px solid " ++ template (c_border colors);
                     borderRadius := borderRadius (style node);
                     padding := padding (style node);
                     fontSize := fontSize (style node);
                     minWidth := minWidth (style node);
                     boxShadow := c_shadow colors;
                     cursor := cursor (style node);
                     transition := transition (style node);
                     opacity := if truthy_id selectedNodeId
                                   && negb isHighlighted && negb isConnected
                                then (3 # 10)%Q else 1 |};
         draggable := draggable node |}
  end.

Definition restyle_nodes (selectedNodeId : option jsstring)
    (graphNodes : list GraphNode) (graphEdges : list GraphEdge)
    (currentNodes : list Node) : list Node :=
  restyle_node selectedNodeId (connectedNodeIds selectedNodeId graphEdges) graphNodes
    <$> currentNodes.

(** The callback of [graphEdges.map] in the second effect. *)
Definition flow_edge (selectedNodeId : option jsstring)
    (index : nat) (edge : GraphEdge) : Edge :=
  let isHighlighted :=
    truthy_id selectedNodeId
    && (bool_decide (Some (source edge) = selectedNodeId)
        || bool_decide (Some (target edge) = selectedNodeId)) in
  {| edge_id := lit "edge-" ++ lit (pretty index);
     edge_source := source edge;
     edge_target := target edge;
     edge_label := elabel edge;
     edge_type := lit "smoothstep";
     animated := if isHighlighted then true else false;
     edge_style :=
       {| stroke := if isHighlighted then lit "hsl(var(--foreground))"
                    else lit "hsl(var(--muted-foreground))";
          strokeWidth := if isHighlighted then 3 else 2;
          edge_opacity := if truthy_id selectedNodeId && negb isHighlighted
                          then (1 # 5)%Q else 1 |};
     labelStyle :=
       {| fill := if isHighlighted then lit "hsl(var(--foreground))"
                  else lit "hsl(var(--foreground))";
          label_fontSize := if isHighlighted then 12 else 10;
          fontWeight := if isHighlighted then lit "bold" else lit "normal" |};
     labelBgStyle := {| bg_fill := lit "hsl(var(--background))";
                        fillOpacity := (9 # 10)%Q |};
     markerEnd :=
       {| marker_type := ArrowClosed;
          marker_color := if isHighlighted then lit "hsl(var(--foreground))"
                          else lit "hsl(var(--muted-foreground))" |} |}.

Definition flowEdges (selectedNodeId : option jsstring)
    (graphEdges : list GraphEdge) : list Edge :=
  imap (flow_edge selectedNodeId) graphEdges.

(** A reactflow node change, as far as [handleNodesChange] reads it. *)
Record NodeChange := {
  change_type : jsstring;
  change_id : jsstring;
  change_position : option Position;
  change_dragging : option bool;
}.

(** The test of the [forEach] in [handleNodesChange]: the position this
    change saves, if any. *)
Definition completed_drag (change : NodeChange) : option Position :=
  if bool_decide (change_type change = lit "position")
  then match change_position change, change_dragging change with
       | Some p, Some false => Some p
       | _, _ => None
       end
  else None.

Definition save_positions (changes : list NodeChange)
    (saved : gmap jsstring Position) : gmap jsstring Position :=
  foldl (λ m change,
           match completed_drag change with
           | Some p => <[change_id change := p]> m
           | None => m
           end)
        saved changes.


(** The position of the last completed drag of node [i] among
    [changes], if there is one. *)
Definition last_completed_drag (changes : list NodeChange) (i : jsstring)
    : option Position :=
  foldl (λ acc change,
           match completed_drag change with
           | Some p => if bool_decide (change_id change = i) then Some p else acc
           | None => acc
           end)
        None changes.

(** The component: props, state and the ref. *)
Record Props := {
  graphNodes : list GraphNode;
  graphEdges : list GraphEdge;
}.

Record State := {
  props : Props;
  nodes : list Node;
  edges : list Edge;
  selectedNodeId : option jsstring;
  nodePositionsRef : gmap jsstring Position;
}.

Section Component.
(** [onNodesChange] of [useNodesState]: reactflow applies the changes to
    the node list. *)
Variable onNodesChange : list NodeChange → list Node → list Node.

(** Both effects, in source order, as they run after a render in which
    the graph data changed (and on mount). *)
Definition run_effects (s : State) : State :=
  let nodes1 := default (nodes s) (flowNodes (nodePositionsRef s) (graphNodes (props s))) in
  {| props := props s;
     nodes := restyle_nodes (selectedNodeId s) (graphNodes (props s))
                (graphEdges (props s)) nodes1;
     edges := flowEdges (selectedNodeId s) (graphEdges (props s));
     selectedNodeId := selectedNodeId s;
     nodePositionsRef := nodePositionsRef s |}.

(** The second effect alone, as it runs when only the selection changed. *)
Definition run_selection_effect (s : State) : State :=
  {| props := props s;
     nodes := restyle_nodes (selectedNodeId s) (graphNodes (props s))
                (graphEdges (props s)) (nodes s);
     edges := flowEdges (selectedNodeId s) (graphEdges (props s));
     selectedNodeId := selectedNodeId s;
     nodePositionsRef := nodePositionsRef s |}.

Definition handleNodesChange (changes : list NodeChange) (s : State) : State :=
  {| props := props s;
     nodes := onNodesChange changes (nodes s);
     edges := edges s;
     selectedNodeId := selectedNodeId s;
     nodePositionsRef := save_positions changes (nodePositionsRef s) |}.

Definition onNodeClick (node : jsstring) (s : State) : State :=
  run_selection_effect
    {| props := props s;
       nodes := nodes s;
       edges := edges s;
       selectedNodeId := if bool_decide (selectedNodeId s = Some node)
                         then None else Some node;
       nodePositionsRef := nodePositionsRef s |}.

Definition receive_props (p : Props) (s : State) : State :=
  run_effects
    {| props := p;
       nodes := nodes s;
       edges := edges s;
       selectedNodeId := selectedNodeId s;
       nodePositionsRef := nodePositionsRef s |}.

(** The state right after mounting with props [p]. *)
Definition mount (p : Props) : State :=
  run_effects
    {| props := p; nodes := []; edges := []; selectedNodeId := None;
       nodePositionsRef := ∅ |}.

Inductive ViewEvent :=
| NewGraphData (p : Props)
| NodesChange (changes : list NodeChange)
| NodeClick (node : jsstring).

Definition step (s : State) (ev : ViewEvent) : State :=
  match ev with
  | NewGraphData p => receive_props p s
  | NodesChange changes => handleNodesChange changes s
  | NodeClick node => onNodeClick node s
  end.

Definition run (evs : list ViewEvent) (s : State) : State :=
  foldl step s evs.
End Component.

(** *** What reactflow sends for a drag

    GraphView.tsx imports the package [reactflow], that is reactflow 11.
    Its drag handler reports a drag with the mouse through
    [updateNodePositions] of its store: while the node moves, every
    change carries the position and [dragging: true]; when the button is
    released, the last change is built with [positionChanged] false, so
    it carries [dragging: false] and no position. *)
Definition moved (i : jsstring) (p : Position) : NodeChange :=
  {| change_type := lit "position"; change_id := i;
     change_position := Some p; change_dragging := Some true |}.

Definition released (i : jsstring) : NodeChange :=
  {| change_type := lit "position"; change_id := i;
     change_position := None; change_dragging := Some false |}.

(** A drag of node [i] with the mouse along [path], one call of
    [onNodesChange] per move and one for the release. *)
Definition mouse_drag (i : jsstring) (path : list Position) : list ViewEvent :=
  ((λ p, NodesChange [moved i p]) <$> path) ++ [NodesChange [released i]].

(** [applyNodeChanges] of reactflow 11 on position changes, which
    [onNodesChange] of [useNodesState] applies to the node list: a
    change that carries a position moves its node there. *)
Definition apply_position_change (change : NodeChange) (n : Node) : Node :=
  match change_position change with
  | Some p =>
      if bool_decide (change_type change = lit "position")
         && bool_decide (node_id n = change_id change)
      then {| node_id := node_id n; node_type := node_type n; position := p;
              data := data n; style := style n; draggable := draggable n |}
      else n
  | None => n
  end.

Definition applyNodeChanges (changes : list NodeChange) (ns : list Node) : list Node :=
  foldl (λ acc change, apply_position_change change <$> acc) ns changes.

End GraphView.

(** ** The graph engine behind the API

    The back end (backend/main.py, backend/modules/graph_manager.py and
    llm_engine.py) is not among the sources at hand; this module follows
    the design document (sections 3, 4, 6 and 7). *)

Module Engine.

(** Modelled from the spec: the entity type of the missing graph manager,
    a closed variant (section 3). *)
Inductive EntityType := Person | Location | Object | Event | Organization | Unknown.

#[global] Instance EntityType_eq_dec : EqDecision EntityType.
Proof. solve_decision. Defined.

(** Modelled from the spec: the Entity of the missing graph manager
    (section 3); [aliases] is a set of surface strings. *)
Record Entity := {
  entity_id : N;
  label : jsstring;
  etype : EntityType;
  aliases : gset jsstring;
  first_seen_turn : N;
  last_seen_turn : N;
}.

(** Modelled from the spec: the Relationship of the missing graph manager
    (section 3), with its occurrence count. *)
Record Relationship := {
  source_id : N;
  target_id : N;
  rel_label : jsstring;
  rel_first_seen_turn : N;
  rel_last_seen_turn : N;
  occurrences : N;
}.

(** Modelled from the spec: the Case Graph of the missing graph manager
    (section 3): the entities by id (kept in creation order), the
    relationships, the turn counter, and the next id to assign. *)
Record CaseGraph := {
  entities : list Entity;
  relationships : list Relationship;
  turn : N;
  next_id : N;
}.

(** Modelled from the spec: the graph a case is created with (section 3,
    lifecycle). *)
Definition empty_graph : CaseGraph :=
  {| entities := []; relationships := []; turn := 0; next_id := 0 |}.

Definition ids (g : CaseGraph) : list N := entity_id <$> entities g.

(** Referential integrity: both ends of every relationship are entities
    of the same graph. *)
Definition closed (g : CaseGraph) : Prop :=
  Forall (λ r, source_id r ∈ ids g ∧ target_id r ∈ ids g) (relationships g).

(** Modelled from the spec: the normalisation of surface text in the
    missing resolver ("case-insensitive, whitespace-normalized",
    section 4.2): trimmed, runs of white space collapsed to one space,
    ASCII letters in lower case. *)
Definition lower (c : N) : N :=
  if bool_decide (0x41 ≤ c ≤ 0x5A)%N then (c + 0x20)%N else c.

Fixpoint collapse (after_space : bool) (s : jsstring) : jsstring :=
  match s with
  | [] => []
  | c :: s' =>
      if is_white_space c
      then if after_space then collapse true s' else 0x20%N :: collapse true s'
      else c :: collapse false s'
  end.

Definition normalize (s : jsstring) : jsstring :=
  collapse false (lower <$> trim s).

Fixpoint infix_of (a b : jsstring) : bool :=
  bool_decide (a `prefix_of` b)
  || match b with
     | [] => false
     | _ :: b' => infix_of a b'
     end.

(** Modelled from the spec: "a strict substring" of the missing resolver
    (section 4.2, step 2). *)
Definition strict_substring (a b : jsstring) : bool :=
  bool_decide (a ≠ b) && infix_of a b.

(** Modelled from the spec: the result of the missing Entity Resolver
    (section 4.2). *)
Inductive Resolution := Matched (id : N) | New.

(** Modelled from the spec: type compatibility in the missing resolver:
    the proposed type equals the entity's, or is Unknown (section 4.2,
    step 1). *)
Definition compatible (proposed : EntityType) (e : Entity) : bool :=
  bool_decide (proposed = etype e) || bool_decide (proposed = Unknown).

(** Modelled from the spec: step 1 of the missing resolver, exact alias
    match. *)
Definition exact_alias_match (surface : jsstring) (proposed : EntityType)
    (e : Entity) : bool :=
  compatible proposed e
  && existsb (λ a, bool_decide (normalize a = normalize surface))
             (elements (aliases e)).

(** Modelled from the spec: step 2 of the missing resolver, fuzzy name
    match, for Person, Organization and Location, within one type. *)
Definition fuzzy_name_match (surface : jsstring) (proposed : EntityType)
    (e : Entity) : bool :=
  match proposed with
  | Person | Organization | Location =>
      bool_decide (proposed = etype e)
      && existsb (λ s, strict_substring (normalize surface) (normalize s)
                       || strict_substring (normalize s) (normalize surface))
                 (label e :: elements (aliases e))
  | _ => false
  end.

(** Modelled from the spec: the recency tie-break of the missing resolver
    (the candidate with the most recent [last_seen_turn]). *)
Definition most_recent (candidates : list Entity) : option Entity :=
  foldl (λ best e,
           match best with
           | None => Some e
           | Some b => if (last_seen_turn b <? last_seen_turn e)%N
                       then Some e else Some b
           end)
        None candidates.

(** Modelled from the spec: the missing Entity Resolver (section 4.2), a
    pure query against the graph. *)
Definition resolve (g : CaseGraph) (surface : jsstring)
    (proposed : EntityType) : Resolution :=
  match List.filter (exact_alias_match surface proposed) (entities g) with
  | e :: _ => Matched (entity_id e)
  | [] =>
      match most_recent (List.filter (fuzzy_name_match surface proposed) (entities g)) with
      | Some e => Matched (entity_id e)
      | None => New
      end
  end.

(** Modelled from the spec: the output contract of the extraction
    collaborator (section 6); a field the collaborator left out is
    [None]. *)
Record EntityCandidate := {
  surface_text : option jsstring;
  proposed_type : option EntityType;
}.

(** Modelled from the spec: a candidate relationship of the collaborator's
    output (section 6). *)
Record RelationshipCandidate := {
  source_surface : option jsstring;
  target_surface : option jsstring;
  candidate_label : option jsstring;
}.

(** Modelled from the spec: the whole output of the collaborator for one
    turn (section 6). *)
Record Extraction := {
  candidate_entities : list EntityCandidate;
  candidate_relationships : list RelationshipCandidate;
}.

(** Modelled from the spec: the diff of one turn produced by the missing
    Graph Merge Engine (section 4.3), with the diagnostics of section 7. *)
Record Diff := {
  new_entities : list N;
  updated_entities : list N;
  new_relationships : list (N * N * jsstring);
  strengthened_relationships : list (N * N * jsstring);
  warnings : nat;
  dropped : nat;
}.

(** Modelled from the spec: the diff of a turn in which nothing happened
    yet (section 4.3). *)
Definition empty_diff : Diff :=
  {| new_entities := []; updated_entities := []; new_relationships := [];
     strengthened_relationships := []; warnings := 0; dropped := 0 |}.

(** Modelled from the spec: the state of the missing merge engine within
    a turn (section 4.3): the graph being built, what each mention of the
    turn resolved to, and the diff so far. *)
Record Merge := {
  graph : CaseGraph;
  bindings : list (jsstring * N);
  diff : Diff;
}.

(** Modelled from the spec: a malformed candidate is skipped with a
    recorded warning (section 4.3, failure semantics). *)
Definition warn (m : Merge) : Merge :=
  {| graph := graph m; bindings := bindings m;
     diff := {| new_entities := new_entities (diff m);
                updated_entities := updated_entities (diff m);
                new_relationships := new_relationships (diff m);
                strengthened_relationships := strengthened_relationships (diff m);
                warnings := S (warnings (diff m)); dropped := dropped (diff m) |} |}.

(** Modelled from the spec: a relationship whose endpoint did not resolve
    is dropped and counted (section 7, ReferentialViolation). *)
Definition drop_relationship (m : Merge) : Merge :=
  {| graph := graph m; bindings := bindings m;
     diff := {| new_entities := new_entities (diff m);
                updated_entities := updated_entities (diff m);
                new_relationships := new_relationships (diff m);
                strengthened_relationships := strengthened_relationships (diff m);
                warnings := warnings (diff m); dropped := S (dropped (diff m)) |} |}.

(** Modelled from the spec: what the missing merge engine does to the
    entity a mention matched: the surface form joins the aliases and the
    entity was seen this turn (sections 3 and 4.2). *)
Definition touch (id : N) (surface : jsstring) (t : N) (e : Entity) : Entity :=
  if bool_decide (entity_id e = id)
  then {| entity_id := entity_id e; label := label e; etype := etype e;
          aliases := aliases e ∪ {[ surface ]};
          first_seen_turn := first_seen_turn e; last_seen_turn := t |}
  else e.

(** Modelled from the spec: how the missing merge engine applies one
    entity mention, resolved against the pre-turn graph [pre]
    (section 4.3, first bullet; malformed candidates are skipped with a
    warning). *)
Definition apply_mention (pre : CaseGraph) (t : N) (m : Merge)
    (c : EntityCandidate) : Merge :=
  match surface_text c, proposed_type c with
  | Some surface, Some ty =>
      if bool_decide (normalize surface = [])
      then warn m
      else
        match resolve pre surface ty with
        | Matched id =>
            {| graph := {| entities := touch id surface t <$> entities (graph m);
                           relationships := relationships (graph m);
                           turn := turn (graph m);
                           next_id := next_id (graph m) |};
               bindings := bindings m ++ [(normalize surface, id)];
               diff := {| new_entities := new_entities (diff m);
                          updated_entities := updated_entities (diff m) ++ [id];
                          new_relationships := new_relationships (diff m);
                          strengthened_relationships := strengthened_relationships (diff m);
                          warnings := warnings (diff m); dropped := dropped (diff m) |} |}
        | New =>
            let id := next_id (graph m) in
            {| graph := {| entities := entities (graph m)
                             ++ [ {| entity_id := id; label := surface; etype := ty;
                                     aliases := {[ surface ]};
                                     first_seen_turn := t; last_seen_turn := t |} ];
                           relationships := relationships (graph m);
                           turn := turn (graph m);
                           next_id := (id + 1)%N |};
               bindings := bindings m ++ [(normalize surface, id)];
               diff := {| new_entities := new_entities (diff m) ++ [id];
                          updated_entities := updated_entities (diff m);
                          new_relationships := new_relationships (diff m);
                          strengthened_relationships := strengthened_relationships (diff m);
                          warnings := warnings (diff m); dropped := dropped (diff m) |} |}
        end
  | _, _ => warn m
  end.

(** Modelled from the spec: the entity id a relationship endpoint
    resolved to in this turn, if its mention resolved (section 4.3). *)
Definition endpoint (bs : list (jsstring * N)) (surface : jsstring) : option N :=
  snd <$> List.find (λ b, bool_decide (b.1 = normalize surface)) bs.

(** Modelled from the spec: the directed triple
    [(source_id, target_id, normalized_label)] that identifies a
    relationship in the missing merge engine (section 4.3). *)
Definition same_triple (s t : N) (l : jsstring) (r : Relationship) : bool :=
  bool_decide (source_id r = s) && bool_decide (target_id r = t)
  && bool_decide (normalize (rel_label r) = normalize l).

(** Modelled from the spec: a re-asserted relationship gets one more
    occurrence and a new [last_seen_turn] (section 4.3). *)
Definition strengthen (s t : N) (l : jsstring) (now : N) (r : Relationship) : Relationship :=
  if same_triple s t l r
  then {| source_id := source_id r; target_id := target_id r;
          rel_label := rel_label r;
          rel_first_seen_turn := rel_first_seen_turn r;
          rel_last_seen_turn := now;
          occurrences := (occurrences r + 1)%N |}
  else r.

(** Modelled from the spec: how the missing merge engine applies one
    candidate relationship (section 4.3, second and third bullets): both
    endpoints must have resolved, an existing directed triple is
    strengthened, otherwise the relationship is inserted. *)
Definition apply_relationship (t : N) (m : Merge)
    (c : RelationshipCandidate) : Merge :=
  match source_surface c, target_surface c, candidate_label c with
  | Some ss, Some ts, Some l =>
      match endpoint (bindings m) ss, endpoint (bindings m) ts with
      | Some s, Some tg =>
          if existsb (same_triple s tg l) (relationships (graph m))
          then
            {| graph := {| entities := entities (graph m);
                           relationships := strengthen s tg l t <$> relationships (graph m);
                           turn := turn (graph m);
                           next_id := next_id (graph m) |};
               bindings := bindings m;
               diff := {| new_entities := new_entities (diff m);
                          updated_entities := updated_entities (diff m);
                          new_relationships := new_relationships (diff m);
                          strengthened_relationships :=
                            strengthened_relationships (diff m) ++ [(s, tg, l)];
                          warnings := warnings (diff m); dropped := dropped (diff m) |} |}
          else
            {| graph := {| entities := entities (graph m);
                           relationships := relationships (graph m)
                             ++ [ {| source_id := s; target_id := tg; rel_label := l;
                                     rel_first_seen_turn := t; rel_last_seen_turn := t;
                                     occurrences := 1 |} ];
                           turn := turn (graph m);
                           next_id := next_id (graph m) |};
               bindings := bindings m;
               diff := {| new_entities := new_entities (diff m);
                          updated_entities := updated_entities (diff m);
                          new_relationships := new_relationships (diff m) ++ [(s, tg, l)];
                          strengthened_relationships := strengthened_relationships (diff m);
                          warnings := warnings (diff m); dropped := dropped (diff m) |} |}
      | _, _ => drop_relationship m
      end
  | _, _, _ => warn m
  end.

(** Modelled from the spec: the missing Graph Merge Engine (section 4.3):
    all mentions first, against the pre-turn graph, then the
    relationships; the result is the whole new graph and its diff. *)
Definition merge (pre : CaseGraph) (x : Extraction) : Merge :=
  let t := (turn pre + 1)%N in
  let start :=
    {| graph := {| entities := entities pre; relationships := relationships pre;
                   turn := t; next_id := next_id pre |};
       bindings := []; diff := empty_diff |} in
  let after_mentions := foldl (apply_mention pre t) start (candidate_entities x) in
  foldl (apply_relationship t) after_mentions (candidate_relationships x).

(** What holds of a merge in progress: the graph is closed, every binding
    points into it, and it still has the entities of the pre-turn graph. *)
Definition merge_inv (pre : CaseGraph) (m : Merge) : Prop :=
  closed (graph m)
  ∧ Forall (λ b, b.2 ∈ ids (graph m)) (bindings m)
  ∧ ids pre ⊆ ids (graph m).

(** Modelled from the spec: [graph_updated] of the missing merge engine,
    true iff the diff is non-empty (section 4.3). *)
Definition diff_nonempty (d : Diff) : bool :=
  negb (bool_decide (new_entities d = []) && bool_decide (updated_entities d = [])
        && bool_decide (new_relationships d = [])
        && bool_decide (strengthened_relationships d = [])).

(** Modelled from the spec: what the external extraction collaborator
    may answer (sections 4.4 and 6). *)
Inductive Collaborator :=
| Unreachable
| MalformedOutput
| Extracted (x : Extraction).

(** Modelled from the spec: the turn-level errors of the missing
    orchestrator (section 7). *)
Inductive IngestError := ValidationError | ExtractionUnavailable.

(** Modelled from the spec: what [ingest] of the missing orchestrator
    returns (section 6). *)
Record ExtractionResult := {
  result_graph_updated : bool;
  diff_summary : Diff;
}.

(** Modelled from the spec: the Case Graph Store of the missing graph
    manager (section 4.1): a graph per case id, empty on first access. *)
Definition get (store : gmap Z CaseGraph) (case_id : Z) : CaseGraph :=
  default empty_graph (store !! case_id).

(** Every case of the store has a closed graph. *)
Definition store_closed (store : gmap Z CaseGraph) : Prop :=
  ∀ case_id, closed (get store case_id).

(** Modelled from the spec: [ingest] of the missing Extraction
    Orchestrator (section 4.4); on an error the store is the one given. *)
Definition ingest (store : gmap Z CaseGraph) (case_id : Z) (text : jsstring)
    (answer : Collaborator) : gmap Z CaseGraph * (IngestError + ExtractionResult) :=
  if bool_decide (trim text = []) then (store, inl ValidationError)
  else
    match answer with
    | Unreachable | MalformedOutput => (store, inl ExtractionUnavailable)
    | Extracted x =>
        let m := merge (get store case_id) x in
        (<[case_id := graph m]> store,
         inr {| result_graph_updated := diff_nonempty (diff m);
                diff_summary := diff m |})
    end.

(** Modelled from the spec: the reply of [get_graph] (section 6):
    nodes [{id, label, type}] and edges [{source, target, label}]. *)
Record NodeView := {
  nv_id : jsstring;
  nv_label : jsstring;
  nv_type : jsstring;
}.

(** Modelled from the spec: an edge of the [get_graph] reply
    (section 6). *)
Record EdgeView := {
  ev_source : jsstring;
  ev_target : jsstring;
  ev_label : jsstring;
}.

(** Modelled from the spec: the [get_graph] reply (section 6). *)
Record GraphReply := {
  gv_nodes : list NodeView;
  gv_edges : list EdgeView;
}.

(** Modelled from the spec: the name of an entity type in the reply of
    the missing API (section 3). *)
Definition type_name (t : EntityType) : jsstring :=
  match t with
  | Person => lit "Person"
  | Location => lit "Location"
  | Object => lit "Object"
  | Event => lit "Event"
  | Organization => lit "Organization"
  | Unknown => lit "Unknown"
  end.

(** Modelled from the spec: an entity id in the reply of the missing API,
    an opaque string (section 3); here the decimal digits of the id. *)
Definition id_text (id : N) : jsstring := lit (pretty id).

(** Modelled from the spec: [snapshot] of the missing Case Graph Store
    (section 4.1), the read-only export. *)
Definition snapshot (g : CaseGraph) : GraphReply :=
  {| gv_nodes := (λ e, {| nv_id := id_text (entity_id e); nv_label := label e;
                          nv_type := type_name (etype e) |}) <$> entities g;
     gv_edges := (λ r, {| ev_source := id_text (source_id r);
                          ev_target := id_text (target_id r);
                          ev_label := rel_label r |}) <$> relationships g |}.

(** Modelled from the spec: [get_graph] of the missing API (section 6). *)
Definition get_graph (store : gmap Z CaseGraph) (case_id : Z) : GraphReply :=
  snapshot (get store case_id).

(** Modelled from the spec: [clear_graph] of the missing API (sections
    4.1 and 6): the case's graph is discarded, turn counter included, and
    the reply is [{ success: true }]. *)
Definition clear_graph (store : gmap Z CaseGraph) (case_id : Z)
    : gmap Z CaseGraph * bool :=
  (<[case_id := empty_graph]> store, true).

(** Modelled from the spec: a call of the missing API that changes the
    store (section 6), and a sequence of such calls. *)
Inductive Call :=
| Ingest (case_id : Z) (text : jsstring) (answer : Collaborator)
| Clear (case_id : Z).

Definition perform (store : gmap Z CaseGraph) (c : Call) : gmap Z CaseGraph :=
  match c with
  | Ingest case_id text answer => (ingest store case_id text answer).1
  | Clear case_id => (clear_graph store case_id).1
  end.

Definition perform_all (calls : list Call) (store : gmap Z CaseGraph)
    : gmap Z CaseGraph :=
  foldl perform store calls.







End Engine.


(** ** The front end running against the engine *)

Module Deployment.
Import Api Engine.

(** Modelled from the spec: what happens to one request on its way to
    the missing server and back (section 1, the transport is an external
    collaborator). *)
Inductive Weather :=
| Offline (e : JsError)     (* [fetch] rejects; the server saw nothing *)
| Lost (e : JsError)        (* the server did the work; [fetch] rejects *)
| Refused                   (* the server answers with [ok] false *)
| Garbled (e : JsError)     (* the work is done, [json()] throws *)
| Served.

(** Modelled from the spec: the missing server process: the Case Graph
    Store, and what lies outside the engine (the answers of the
    extraction collaborator, the assistant's text, the transcript store
    and the transport), given per request by an oracle. *)
Record Server := {
  store : gmap Z CaseGraph;
  clock : nat;
  weather : nat → Weather;
  collaborator : nat → Collaborator;
  assistant : nat → jsstring;
  transcript : nat → CaseDetail;
}.

(** Modelled from the spec: the missing server after a request. *)
Definition next (s : Server) (store' : gmap Z CaseGraph) : Server :=
  {| store := store'; clock := S (clock s); weather := weather s;
     collaborator := collaborator s; assistant := assistant s;
     transcript := transcript s |}.

(** Modelled from the spec: the reply of the missing server to a request
    it reports an error for (section 7): [ok] is false. *)
Definition refusal {B} : HttpResponse B :=
  {| ok := false; json := Throw (SyntaxError (lit "Unexpected end of JSON input")) |}.

(** Modelled from the spec: one route of the missing server; [work] is
    what the server does with the request, giving the new store and the
    body, or no body when it reports an error. *)
Definition endpoint {B} (work : Server → gmap Z CaseGraph * option B)
    : M Server (HttpResponse B) :=
  λ s,
    match weather s (clock s) with
    | Offline e => (Throw e, next s (store s))
    | Refused => (Return refusal, next s (store s))
    | Lost e => (Throw e, next s (work s).1)
    | Garbled e => (Return {| ok := true; json := Throw e |}, next s (work s).1)
    | Served =>
        match work s with
        | (store', Some body) =>
            (Return {| ok := true; json := Return body |}, next s store')
        | (store', None) => (Return refusal, next s store')
        end
    end.

Section Paint.
(** The interface [GraphNode] of lib/api.ts has a [color] that section 6
    of the design does not list; the server's choice is left open. *)
Variable paint : jsstring → jsstring.

(** Modelled from the spec: the body of the graph route of the missing
    server, the [get_graph] reply with a colour per node. *)
Definition graph_data (g : GraphReply) : GraphData :=
  {| nodes := (λ n, {| Api.id := nv_id n; Api.label := nv_label n;
                       Api.type := nv_type n;
                       Api.color := paint (nv_type n) |}) <$> gv_nodes g;
     edges := (λ e, {| source := ev_source e; target := ev_target e;
                       elabel := ev_label e |}) <$> gv_edges g |}.

(** Modelled from the spec: the four routes of the missing server the
    front end calls (README, "API Endpoints"; section 6). *)
Definition server_net : Net Server :=
  {| fetch_chat := λ caseId message fileContent,
       endpoint (λ s,
         match ingest (store s) caseId (message ++ default [] fileContent)
                      (collaborator s (clock s)) with
         | (store', inr r) =>
             (store', Some {| assistant_message := assistant s (clock s);
                              graph_updated := result_graph_updated r |})
         | (store', inl _) => (store', None)
         end);
     fetch_graph := λ caseId,
       endpoint (λ s, (store s, Some (graph_data (get_graph (store s) caseId))));
     fetch_clear := λ caseId,
       endpoint (λ s,
         match clear_graph (store s) caseId with
         | (store', ok) =>
             (store', Some {| success := ok; message := lit "Graph cleared" |})
         end);
     fetch_case := λ caseId,
       endpoint (λ s, (store s, Some (transcript s (clock s))));
     fetch_upload := λ file,
       endpoint (λ s, (store s, Some {| text := assistant s (clock s) |})) |}.

End Paint.

(** Modelled from the spec: a missing server with an empty store on
    which every request is served and the collaborator extracts nothing. *)
Definition fair_server : Server :=
  {| store := ∅; clock := 0; weather := λ _, Served;
     collaborator := λ _, Extracted {| candidate_entities := []; candidate_relationships := [] |};
     assistant := λ _, lit "Noted.";
     transcript := λ _, {| case_of := {| case_id := 1; title := lit "Case";
                                         created_at := []; updated_at := [] |};
                           case_messages := [] |} |}.

End Deployment.

(** ** Sample worlds *)

Module Samples.
Import Api App Engine Deployment.

Definition fresh_app : AppState :=
  {| activeTab := chat; messages := []; graphNodes := []; graphEdges := [];
     isLoading := false; cases := []; isCasesLoading := false |}.

(** A server no request reaches. *)
Definition offline_server : Server :=
  {| store := ∅; clock := 0;
     weather := λ _, Offline (TypeError (lit "Failed to fetch"));
     collaborator := collaborator fair_server;
     assistant := assistant fair_server;
     transcript := transcript fair_server |}.

(** The first turn of the scenario of section 8. *)
Definition warehouse_turn : Extraction :=
  {| candidate_entities :=
       [ {| surface_text := Some (lit "John Doe"); proposed_type := Some Person |};
         {| surface_text := Some (lit "Warehouse"); proposed_type := Some Location |} ];
     candidate_relationships :=
       [ {| source_surface := Some (lit "John Doe");
            target_surface := Some (lit "Warehouse");
            candidate_label := Some (lit "was seen at") |} ] |}.

(** The second turn of that scenario. *)
Definition meeting_turn : Extraction :=
  {| candidate_entities :=
       [ {| surface_text := Some (lit "John"); proposed_type := Some Person |};
         {| surface_text := Some (lit "Mary"); proposed_type := Some Person |};
         {| surface_text := Some (lit "Warehouse"); proposed_type := Some Location |} ];
     candidate_relationships :=
       [ {| source_surface := Some (lit "John");
            target_surface := Some (lit "Mary");
            candidate_label := Some (lit "met") |};
         {| source_surface := Some (lit "Mary");
            target_surface := Some (lit "Warehouse");
            candidate_label := Some (lit "was seen at") |} ] |}.

(** A server whose collaborator extracts [warehouse_turn] from any text. *)
Definition busy_server : Server :=
  {| store := ∅; clock := 0; weather := λ _, Served;
     collaborator := λ _, Extracted warehouse_turn;
     assistant := assistant fair_server;
     transcript := transcript fair_server |}.

Definition world_on (server : Server) : World Server :=
  {| app := fresh_app; env := server; trace := [] |}.

Definition two_way : list GraphEdge :=
  [ {| source := lit "0"; target := lit "1"; elabel := lit "met" |};
    {| source := lit "1"; target := lit "0"; elabel := lit "met" |} ].

Definition john (c : jsstring) : GraphNode :=
  {| Api.id := lit "0"; Api.label := lit "John Doe"; Api.type := lit "Person";
     Api.color := c |}.


End Samples.

(** ** App.tsx: the cases *)

Module Cases.
Import Api App.

#[global] Instance Tab_eq_dec : EqDecision Tab.
Proof. solve_decision. Defined.

(** The endpoints of lib/api.ts for the list of cases. *)
Record CaseNet (E : Type) := {
  fetch_cases : M E (HttpResponse (list Case));
  fetch_create : jsstring → M E (HttpResponse Case);
  fetch_delete : Z → M E (HttpResponse ());
}.
Arguments fetch_cases {E} _.
Arguments fetch_create {E} _.
Arguments fetch_delete {E} _.

Section Functions.
Context {E : Type} (cnet : CaseNet E).

Definition getCases : M E (list Case) :=
  response ← fetch_cases cnet;
  if negb (ok response) then throw (Error (lit "Failed to fetch cases"))
  else of_outcome (json response).

Definition createCase (title : jsstring) : M E Case :=
  response ← fetch_create cnet title;
  if negb (ok response) then throw (Error (lit "Failed to create case"))
  else of_outcome (json response).

(** [deleteCase] does not read the body. *)
Definition deleteCase (caseId : Z) : M E () :=
  response ← fetch_delete cnet caseId;
  if negb (ok response) then throw (Error (lit "Failed to delete case"))
  else ret ().
End Functions.

Inductive CaseRequest :=
| CasesReq
| CreateReq (title : jsstring)
| DeleteReq (caseId : Z).

(** The App with the state variable [selectedCaseId] and the requests
    about cases it made, in order. *)
Record CaseWorld (E : Type) := {
  inner : World E;
  selectedCaseId : option Z;
  asked : list CaseRequest;
}.
Arguments inner {E} _.
Arguments selectedCaseId {E} _.
Arguments asked {E} _.

Section Handlers.
Context {E : Type} (net : Net E) (cnet : CaseNet E).

Definition in_app {A} (c : M (World E) A) : M (CaseWorld E) A :=
  λ w, match c (inner w) with
       | (o, i') => (o, {| inner := i'; selectedCaseId := selectedCaseId w;
                           asked := asked w |})
       end.

Definition call_case {A} (r : CaseRequest) (c : M E A) : M (CaseWorld E) A :=
  λ w, match c (env (inner w)) with
       | (o, e') =>
           (o, {| inner := {| app := app (inner w); env := e';
                              trace := trace (inner w) |};
                  selectedCaseId := selectedCaseId w;
                  asked := asked w ++ [r] |})
       end.

Definition setSelectedCaseId (v : option Z) : M (CaseWorld E) unit :=
  modify (λ w, {| inner := inner w; selectedCaseId := v; asked := asked w |}).

Definition setCases (f : list Case → list Case) : M (CaseWorld E) unit :=
  in_app (set_app (λ a, {| activeTab := activeTab a; messages := messages a;
                           graphNodes := graphNodes a; graphEdges := graphEdges a;
                           isLoading := isLoading a; cases := f (cases a);
                           isCasesLoading := isCasesLoading a |})).

Definition setIsCasesLoading (v : bool) : M (CaseWorld E) unit :=
  in_app (set_app (λ a, {| activeTab := activeTab a; messages := messages a;
                           graphNodes := graphNodes a; graphEdges := graphEdges a;
                           isLoading := isLoading a; cases := cases a;
                           isCasesLoading := v |})).

Definition setActiveTab (v : Tab) : M (CaseWorld E) unit :=
  in_app (set_app (λ a, {| activeTab := v; messages := messages a;
                           graphNodes := graphNodes a; graphEdges := graphEdges a;
                           isLoading := isLoading a; cases := cases a;
                           isCasesLoading := isCasesLoading a |})).

Section Render.
(** The state the closures of one render captured. *)
Variable selectedCaseId_ : option Z.
Variable cases_ : list Case.
Variable activeTab_ : Tab.

Definition loadCases : M (CaseWorld E) unit :=
  setIsCasesLoading true;;
  try_catch_finally
    (userCases ← call_case CasesReq (getCases cnet);
     setCases (λ _, userCases);;
     (* Select first case if available *)
     if bool_decide (0 < length userCases)%nat
        && negb (bool_decide (is_Some (truthy_number selectedCaseId_)))
     then setSelectedCaseId (case_id <$> head userCases)
     else ret ())
    (λ error, in_app (console_error (lit "Failed to load cases:")))
    (setIsCasesLoading false).

Definition handleCreateCase (title : jsstring) : M (CaseWorld E) unit :=
  try_catch
    (newCase ← call_case (CreateReq title) (createCase cnet title);
     setCases (λ prev, newCase :: prev);;
     setSelectedCaseId (Some (case_id newCase));;
     in_app (setMessages (λ _, []));;
     in_app (setGraphNodes []);;
     in_app (setGraphEdges []))
    (λ error, in_app (console_error (lit "Failed to create case:"))).

Definition handleDeleteCase (caseId : Z) : M (CaseWorld E) unit :=
  try_catch
    (call_case (DeleteReq caseId) (deleteCase cnet caseId);;
     setCases (λ prev, List.filter (λ c, negb (bool_decide (case_id c = caseId))) prev);;
     if bool_decide (selectedCaseId_ = Some caseId) then
       let remaining :=
         List.filter (λ c, negb (bool_decide (case_id c = caseId))) cases_ in
       setSelectedCaseId (if bool_decide (0 < length remaining)%nat
                          then case_id <$> head remaining else None)
     else ret ())
    (λ error, in_app (console_error (lit "Failed to delete case:"))).

Definition handleSelectCase (caseId : Z) : M (CaseWorld E) unit :=
  if bool_decide (Some caseId ≠ selectedCaseId_) then
    setSelectedCaseId (Some caseId);;
    setActiveTab chat
  else ret ().

(** The effect with dependency [selectedCaseId]. *)
Definition selection_effect : M (CaseWorld E) unit :=
  match truthy_number selectedCaseId_ with
  | Some caseId => in_app (loadCaseData net selectedCaseId_ caseId)
  | None =>
      in_app (setMessages (λ _, []));;
      in_app (setGraphNodes []);;
      in_app (setGraphEdges [])
  end.

(** The effect with dependencies [activeTab] and [selectedCaseId]. *)
Definition tab_effect : M (CaseWorld E) unit :=
  match activeTab_, truthy_number selectedCaseId_ with
  | graph, Some _ => in_app (loadGraph net selectedCaseId_)
  | _, _ => ret ()
  end.
End Render.

(** What [main] shows. *)
Inductive MainContent :=
| NoCaseSelected
| ShowChat (messages : list ChatMessage) (isLoading : bool)
| ShowGraph (nodes : list GraphNode) (edges : list GraphEdge).

Definition main (w : CaseWorld E) : MainContent :=
  match truthy_number (selectedCaseId w) with
  | None => NoCaseSelected
  | Some _ =>
      match activeTab (app (inner w)) with
      | chat => ShowChat (messages (app (inner w))) (isLoading (app (inner w)))
      | graph => ShowGraph (graphNodes (app (inner w))) (graphEdges (app (inner w)))
      end
  end.

(** A handler of the current render, followed by the effects of the
    render that its state changes cause: an effect runs when one of its
    dependencies differs from the render before. *)
Definition with_effects (handler : option Z → list Case → Tab → M (CaseWorld E) unit)
    : M (CaseWorld E) unit :=
  λ w,
    let sel := selectedCaseId w in
    let tab := activeTab (app (inner w)) in
    match handler sel (cases (app (inner w))) tab w with
    | (Throw e, w1) => (Throw e, w1)
    | (Return _, w1) =>
        let sel1 := selectedCaseId w1 in
        let tab1 := activeTab (app (inner w1)) in
        match (if bool_decide (sel1 = sel) then ret ()
               else selection_effect sel1) w1 with
        | (Throw e, w2) => (Throw e, w2)
        | (Return _, w2) =>
            (if bool_decide (sel1 = sel) && bool_decide (tab1 = tab) then ret ()
             else tab_effect sel1 tab1) w2
        end
    end.
End Handlers.

End Cases.

(** ** components/Sidebar.tsx: the Cases section *)

Module SidebarCases.

Record CasesPanel := {
  showNewCase : bool;
  newCaseTitle : jsstring;
  deletingCaseId : option Z;
}.

(** A call of a prop of the sidebar. *)
Inductive PropCall :=
| OnCreateCase (title : jsstring)
| OnDeleteCase (caseId : Z).

Definition handleCreateCase (s : CasesPanel) : CasesPanel * list PropCall :=
  if truthy_string (trim (newCaseTitle s)) then
    ({| showNewCase := false; newCaseTitle := [];
        deletingCaseId := deletingCaseId s |},
     [OnCreateCase (trim (newCaseTitle s))])
  else (s, []).

Definition handleDeleteCase (caseId : Z) (s : CasesPanel) : CasesPanel * list PropCall :=
  ({| showNewCase := showNewCase s; newCaseTitle := newCaseTitle s;
      deletingCaseId := Some caseId |}, []).

Definition confirmDeleteCase (s : CasesPanel) : CasesPanel * list PropCall :=
  match truthy_number (deletingCaseId s) with
  | Some caseId =>
      ({| showNewCase := showNewCase s; newCaseTitle := newCaseTitle s;
          deletingCaseId := None |},
       [OnDeleteCase caseId])
  | None => (s, [])
  end.

(** What the user can do in the Cases section. *)
Inductive Action :=
| ClickNewCase
| TypeTitle (value : jsstring)
| KeyDown (key : jsstring)
| ClickCreate
| ClickCancelNewCase
| ClickDeleteOf (caseId : Z)
| ClickConfirmDelete
| ClickCancelDelete.

(** One action; a control that is not rendered receives none: the title
    input and its buttons are rendered when [showNewCase], the delete
    confirmation when [deletingCaseId] is truthy. *)
Definition act (s : CasesPanel) (a : Action) : CasesPanel * list PropCall :=
  match a with
  | ClickNewCase =>
      ({| showNewCase := true; newCaseTitle := newCaseTitle s;
          deletingCaseId := deletingCaseId s |}, [])
  | TypeTitle value =>
      if showNewCase s
      then ({| showNewCase := true; newCaseTitle := value;
               deletingCaseId := deletingCaseId s |}, [])
      else (s, [])
  | KeyDown key =>
      if showNewCase s then
        let '(s1, calls) :=
          if bool_decide (key = lit "Enter") then handleCreateCase s else (s, []) in
        if bool_decide (key = lit "Escape")
        then ({| showNewCase := false; newCaseTitle := newCaseTitle s1;
                 deletingCaseId := deletingCaseId s1 |}, calls)
        else (s1, calls)
      else (s, [])
  | ClickCreate => if showNewCase s then handleCreateCase s else (s, [])
  | ClickCancelNewCase =>
      if showNewCase s
      then ({| showNewCase := false; newCaseTitle := newCaseTitle s;
               deletingCaseId := deletingCaseId s |}, [])
      else (s, [])
  | ClickDeleteOf caseId => handleDeleteCase caseId s
  | ClickConfirmDelete =>
      if bool_decide (is_Some (truthy_number (deletingCaseId s)))
      then confirmDeleteCase s else (s, [])
  | ClickCancelDelete =>
      if bool_decide (is_Some (truthy_number (deletingCaseId s)))
      then ({| showNewCase := showNewCase s; newCaseTitle := newCaseTitle s;
               deletingCaseId := None |}, [])
      else (s, [])
  end.

(** A sequence of actions: the final state and all calls, in order. *)
Definition acts (actions : list Action) (s : CasesPanel) : CasesPanel * list PropCall :=
  foldl (λ acc a, let '(s1, calls) := act acc.1 a in (s1, acc.2 ++ calls))
        (s, []) actions.

(** The Actions panel of [Sidebar]: a sequence of clicks, with the number
    of calls of [onClearMemory]. *)
Definition clicks (selectedCaseId : option Z) (cs : list Sidebar.Click)
    (s : Sidebar.SidebarState) : Sidebar.SidebarState * nat :=
  foldl (λ acc c, let '(s1, called) := Sidebar.click selectedCaseId c acc.1 in
                  (s1, if called then S acc.2 else acc.2))
        (s, 0%nat) cs.

End SidebarCases.

(** ** components/Chat.tsx: choosing a file *)

Module ChatFiles.
Import Api App Chat.

Definition endsWith (s suffix : jsstring) : bool := bool_decide (suffix `suffix_of` s).
Definition startsWith (s prefix : jsstring) : bool := bool_decide (prefix `prefix_of` s).

(** The double quote character. *)
Definition quote : jsstring := [0x22]%N.

(** The placeholder message [handleFileSelect] writes for a file. *)
Definition placeholder (file : File) : jsstring :=
  if bool_decide (file_type file = lit "application/pdf")
     || endsWith (file_name file) (lit ".pdf")
  then lit "I've uploaded a PDF file " ++ quote ++ file_name file
         ++ quote ++ lit ". Please analyze its contents for the investigation."
  else if endsWith (file_name file) (lit ".docx") || endsWith (file_name file) (lit ".doc")
  then lit "I've uploaded a Word document " ++ quote ++ file_name file
         ++ quote ++ lit ". Please analyze its contents for the investigation."
  else if startsWith (file_type file) (lit "text/") || endsWith (file_name file) (lit ".txt")
  then lit "I've uploaded a text file " ++ quote ++ file_name file
         ++ quote ++ lit ". Please analyze its contents for the investigation."
  else if startsWith (file_type file) (lit "image/")
  then lit "I've uploaded an image " ++ quote ++ file_name file
         ++ quote ++ lit ". This appears to be evidence related to the investigation."
  else lit "I've uploaded a document " ++ quote ++ file_name file
         ++ quote ++ lit ". Please analyze this evidence.".

(** [handleFileSelect]; [chosen] is [e.target.files?.[0]]. *)
Definition handleFileSelect {E} (chosen : option File) : M (ChatWorld E) unit :=
  match chosen with
  | Some file =>
      setSelectedFile (Some file);;
      setInput (placeholder file)
  | None => ret ()
  end.

(** [handleSubmit] of the render that shows the current state. *)
Definition submit {E} (net : Net E)
    (onSendMessage : jsstring → option jsstring → M (World E) unit)
    (isLoading : bool) : M (ChatWorld E) unit :=
  λ w, handleSubmit net onSendMessage isLoading
         (input (cstate w)) (selectedFile (cstate w)) w.

End ChatFiles.

(** ** lib/AuthContext.tsx and the auth functions of lib/api.ts *)

Module Auth.
Import Api.

Record TokenBody := {
  access_token : jsstring;
}.

(** The body of a reply that is not [ok], as far as [login] and
    [register] read it: [null], or a value whose [detail] is a string or
    is missing. *)
Inductive ErrorBody :=
| NullBody
| WithDetail (detail : option jsstring).

(** What [fetch] resolves to on an auth route: [json()] gives the token
    body of a reply that is [ok] and the error body of one that is not. *)
Record AuthReply := {
  auth_ok : bool;
  token_json : Outcome TokenBody;
  error_json : Outcome ErrorBody;
}.

(** The auth endpoints; [fetch_me] is given the Authorization header.
    Its body is whatever value the server sent: [getCurrentUser] returns
    [response.json()] as it is, so the [user] of the provider can be
    [null] or any other value and not only a [User] object. *)
Record AuthNet (E : Type) := {
  fetch_login : jsstring → jsstring → M E AuthReply;
  fetch_register : jsstring → jsstring → M E AuthReply;
  fetch_me : jsstring → M E (HttpResponse Json);
}.
Arguments fetch_login {E} _.
Arguments fetch_register {E} _.
Arguments fetch_me {E} _.

Definition TOKEN_KEY : jsstring := lit "crime_gpt_token".

(** The provider's state, [localStorage], and the environment. *)
Record AuthWorld (E : Type) := {
  user : Json;
  token : option jsstring;
  isLoading : bool;
  localStorage : gmap jsstring jsstring;
  outside : E;
}.
Arguments user {E} _.
Arguments token {E} _.
Arguments isLoading {E} _.
Arguments localStorage {E} _.
Arguments outside {E} _.

(** [string | null | undefined] in a boolean position. *)
Definition truthy_token (v : option jsstring) : bool :=
  match v with
  | Some s => truthy_string s
  | None => false
  end.

Section Provider.
Context {E : Type} (anet : AuthNet E).

Definition getItem (key : jsstring) : M (AuthWorld E) (option jsstring) :=
  λ w, (Return (localStorage w !! key), w).

Definition setItem (key value : jsstring) : M (AuthWorld E) unit :=
  modify (λ w, {| user := user w; token := token w; isLoading := isLoading w;
                  localStorage := <[key := value]> (localStorage w);
                  outside := outside w |}).

Definition removeItem (key : jsstring) : M (AuthWorld E) unit :=
  modify (λ w, {| user := user w; token := token w; isLoading := isLoading w;
                  localStorage := delete key (localStorage w);
                  outside := outside w |}).

Definition setUser (v : Json) : M (AuthWorld E) unit :=
  modify (λ w, {| user := v; token := token w; isLoading := isLoading w;
                  localStorage := localStorage w; outside := outside w |}).

Definition setToken (v : option jsstring) : M (AuthWorld E) unit :=
  modify (λ w, {| user := user w; token := v; isLoading := isLoading w;
                  localStorage := localStorage w; outside := outside w |}).

Definition setIsLoading (v : bool) : M (AuthWorld E) unit :=
  modify (λ w, {| user := user w; token := token w; isLoading := v;
                  localStorage := localStorage w; outside := outside w |}).

Definition fetching {A} (c : M E A) : M (AuthWorld E) A :=
  λ w, match c (outside w) with
       | (o, e') => (o, {| user := user w; token := token w;
                           isLoading := isLoading w;
                           localStorage := localStorage w; outside := e' |})
       end.

(** lib/api.ts *)

Definition getToken : M (AuthWorld E) (option jsstring) :=
  getItem (lit "crime_gpt_token").

(** The headers [getAuthHeaders] builds. *)
Definition getAuthHeaders : M (AuthWorld E) (gmap jsstring jsstring) :=
  token ← getToken;
  let headers : gmap jsstring jsstring :=
    {[ lit "Content-Type" := lit "application/json" ]} in
  if truthy_token token
  then ret (<[lit "Authorization" := lit "Bearer " ++ default [] token]> headers)
  else ret headers.

(** The common body of [login] and [register]; [failed] is the message
    used when the reply has no [detail]. *)
Definition auth_call (route : M E AuthReply) (failed : jsstring)
    : M (AuthWorld E) TokenBody :=
  response ← fetching route;
  if negb (auth_ok response) then
    error ← try_catch (of_outcome (error_json response))
                      (λ _, ret (WithDetail None));
    match error with
    | NullBody => throw (TypeError (lit "Cannot read properties of null"))
    | WithDetail detail =>
        throw (Error (if truthy_token detail then default [] detail else failed))
    end
  else of_outcome (token_json response).

Definition api_login (email password : jsstring) : M (AuthWorld E) TokenBody :=
  auth_call (fetch_login anet email password) (lit "Login failed").

Definition api_register (email password : jsstring) : M (AuthWorld E) TokenBody :=
  auth_call (fetch_register anet email password) (lit "Registration failed").

(** A value inside a template literal: [null] prints as such. *)
Definition or_null (v : option jsstring) : jsstring := default (lit "null") v.

Definition getCurrentUser (token : option jsstring) : M (AuthWorld E) Json :=
  stored ← getToken;
  let bearer := if truthy_token token then default [] token else or_null stored in
  response ← fetching (fetch_me anet (lit "Bearer " ++ bearer));
  if negb (ok response) then throw (Error (lit "Failed to get user info"))
  else of_outcome (json response).

(** lib/AuthContext.tsx *)

(** The effect that runs on mount. *)
Definition check_stored_token : M (AuthWorld E) unit :=
  storedToken ← getItem TOKEN_KEY;
  if truthy_token storedToken then
    setToken storedToken;;
    try_catch_finally
      (userData ← getCurrentUser storedToken;
       setUser userData)
      (λ _, removeItem TOKEN_KEY;; setToken None)
      (setIsLoading false)
  else setIsLoading false.

Definition login (email password : jsstring) : M (AuthWorld E) unit :=
  response ← api_login email password;
  let newToken := access_token response in
  setItem TOKEN_KEY newToken;;
  setToken (Some newToken);;
  userData ← getCurrentUser (Some newToken);
  setUser userData.

Definition register (email password : jsstring) : M (AuthWorld E) unit :=
  response ← api_register email password;
  let newToken := access_token response in
  setItem TOKEN_KEY newToken;;
  setToken (Some newToken);;
  userData ← getCurrentUser (Some newToken);
  setUser userData.

Definition logout : M (AuthWorld E) unit :=
  removeItem TOKEN_KEY;;
  setToken None;;
  setUser JNull.

Definition getStoredToken : M (AuthWorld E) (option jsstring) :=
  getItem TOKEN_KEY.
End Provider.

(** [isAuthenticated: !!token && !!user] *)
Definition isAuthenticated {E} (w : AuthWorld E) : bool :=
  truthy_token (token w) && truthy_json (user w).

(** What [ProtectedRoute] (App.tsx) renders. *)
Inductive Routed := Spinner | NavigateToLogin | Children.

Definition ProtectedRoute {E} (w : AuthWorld E) : Routed :=
  if isLoading w then Spinner
  else if negb (isAuthenticated w) then NavigateToLogin
  else Children.

(** The provider before its first effect. *)
Definition initial {E : Type} (storage : gmap jsstring jsstring) (e : E) : AuthWorld E :=
  {| user := JNull; token := None; isLoading := true;
     localStorage := storage; outside := e |}.

End Auth.

(** ** GraphView.tsx: edges between two nodes *)

Module ViewRelations.
Import Api.

(** An edge of the graph data joins [a] and [b], in either direction. *)
Definition joined (graphEdges : list GraphEdge) (a b : jsstring) : Prop :=
  ∃ e, e ∈ graphEdges
       ∧ ((source e = a ∧ target e = b) ∨ (target e = a ∧ source e = b)).

(** The edge has [a] at one of its ends. *)
Definition touches (e : GraphEdge) (a : jsstring) : Prop :=
  source e = a ∨ target e = a.

#[global] Instance touches_dec e a : Decision (touches e a).
Proof. unfold touches. apply _. Defined.

End ViewRelations.

(** ** App.tsx: the graph on screen *)

Module AppRelations.
Import Api App.

(** The graph on screen after a handler: the one before, the empty one,
    or the nodes and the edges of one and the same [getGraph] reply. *)
Definition graph_stays_whole {E} (net : Net E) (w w' : World E) : Prop :=
  (App.graphNodes (app w'), App.graphEdges (app w'))
    = (App.graphNodes (app w), App.graphEdges (app w))
  ∨ (App.graphNodes (app w'), App.graphEdges (app w')) = ([], [])
  ∨ ∃ caseId e data e',
      getGraph net caseId e = (Return data, e')
      ∧ (App.graphNodes (app w'), App.graphEdges (app w'))
        = (Api.nodes data, Api.edges data).

End AppRelations.

(** ** App.tsx: a session of the user with the cases *)

Module CaseSession.
Import Api App Cases.

(** The selected case is one of the listed cases. *)
Definition selection_listed {E} (w : CaseWorld E) : Prop :=
  ∀ c, selectedCaseId w = Some c → c ∈ case_id <$> cases (app (inner w)).

(** Neither the selection nor the list of cases changed. *)
Definition same_selection {E} (w w' : CaseWorld E) : Prop :=
  selectedCaseId w' = selectedCaseId w
  ∧ cases (app (inner w')) = cases (app (inner w)).

(** What the user can do with the props [AppContent] hands to [Sidebar]
    and [Chat]. *)
Inductive UserAction :=
| CreateCase (title : jsstring)
| DeleteCase (caseId : Z)
| SelectCase (caseId : Z)
| ChangeTab (tab : Tab)
| ClearMemory
| SendMessage (message : jsstring) (fileContent : option jsstring).

Section Session.
Context {E : Type} (net : Net E) (cnet : CaseNet E).

(** One action that is started when no handler is waiting for the
    server: the handler then has the closure of the current render; it
    runs, and the effects of the render that follows run after it.  (A
    handler started while another one waits for its reply keeps the
    closure of an older render: the handlers of [Cases] take the closure
    as arguments for that reason.)  The sidebar renders a select button
    for the listed cases only. *)
Definition perform (a : UserAction) : M (CaseWorld E) unit :=
  with_effects net
    (λ sel cs tab,
       match a with
       | CreateCase title => handleCreateCase cnet title
       | DeleteCase caseId => handleDeleteCase cnet sel cs caseId
       | SelectCase caseId =>
           if bool_decide (caseId ∈ case_id <$> cs)
           then handleSelectCase sel caseId else ret ()
       | ChangeTab tab1 => setActiveTab tab1
       | ClearMemory => in_app (handleClearMemory net sel)
       | SendMessage message fileContent =>
           in_app (handleSendMessage net sel message fileContent)
       end).

(** A session in which the user starts each action after the one before
    has finished, its requests answered. *)
Fixpoint session (actions : list UserAction) : M (CaseWorld E) unit :=
  match actions with
  | [] => ret ()
  | a :: rest => perform a;; session rest
  end.

(** The first render: the initial values of [useState]. *)
Definition initial (e : E) : CaseWorld E :=
  {| inner := {| app := {| activeTab := chat; messages := []; graphNodes := [];
                           graphEdges := []; isLoading := false; cases := [];
                           isCasesLoading := true |};
                 env := e; trace := [] |};
     selectedCaseId := None; asked := [] |}.

(** The mount of [AppContent]: the three effects of the first render
    ([loadCases] answers after the other two ran), then the effects of
    the render that follows. *)
Definition mount (e : E) : Outcome unit * CaseWorld E :=
  with_effects net
    (λ sel cs tab, selection_effect net sel;; tab_effect net sel tab;;
                   loadCases cnet sel)
    (initial e).
End Session.

End CaseSession.

(** ** More sample worlds *)

Module MoreSamples.
Import Api App Samples.

Definition case1 : Case :=
  {| case_id := 1; title := lit "Harbour"; created_at := []; updated_at := [] |}.

Definition case2 : Case :=
  {| case_id := 2; title := lit "Depot"; created_at := []; updated_at := [] |}.

(** A case endpoint set that serves every request. *)
Definition kind_cases : Cases.CaseNet Deployment.Server :=
  {| Cases.fetch_cases := λ s, (Return {| ok := true; json := Return [case1; case2] |}, s);
     Cases.fetch_create := λ title s,
       (Return {| ok := true;
                  json := Return {| case_id := 3; title := title;
                                    created_at := []; updated_at := [] |} |}, s);
     Cases.fetch_delete := λ _ s, (Return {| ok := true; json := Return () |}, s) |}.

Definition case_world (sel : option Z) (cs : list Case) : Cases.CaseWorld Deployment.Server :=
  {| Cases.inner := {| app := {| activeTab := graph; messages := [];
                                 graphNodes := [john []]; graphEdges := two_way;
                                 isLoading := false; cases := cs;
                                 isCasesLoading := false |};
                       env := Deployment.fair_server; trace := [] |};
     Cases.selectedCaseId := sel; Cases.asked := [] |}.

Definition report : File :=
  {| file_name := lit "report.pdf"; file_type := lit "application/pdf" |}.

Definition chat_world (text : jsstring) (file : option File) (server : Deployment.Server)
    : Chat.ChatWorld Deployment.Server :=
  {| Chat.cstate := {| Chat.input := text; Chat.selectedFile := file |};
     Chat.parent := world_on server; Chat.sent := [] |}.

(** Auth endpoints that accept every request. *)
Definition kind_auth : Auth.AuthNet () :=
  {| Auth.fetch_login := λ _ _ e,
       (Return {| Auth.auth_ok := true;
                  Auth.token_json := Return {| Auth.access_token := lit "tok" |};
                  Auth.error_json := Return Auth.NullBody |}, e);
     Auth.fetch_register := λ _ _ e,
       (Return {| Auth.auth_ok := true;
                  Auth.token_json := Return {| Auth.access_token := lit "tok" |};
                  Auth.error_json := Return Auth.NullBody |}, e);
     Auth.fetch_me := λ _ e,
       (Return {| ok := true;
                  json := Return (JObject [ (lit "id", JNumber 7);
                                            (lit "email", JString (lit "a@b.c")) ]) |},
        e) |}.

(** Auth endpoints on which login works and the user cannot be read. *)
Definition forgetful_auth : Auth.AuthNet () :=
  {| Auth.fetch_login := Auth.fetch_login kind_auth;
     Auth.fetch_register := Auth.fetch_register kind_auth;
     Auth.fetch_me := λ _ e, (Return {| ok := false; json := Throw (SyntaxError []) |}, e) |}.

Definition mary : GraphNode :=
  {| Api.id := lit "1"; Api.label := lit "Mary"; Api.type := lit "Person";
     Api.color := [] |}.

Definition depot : GraphNode :=
  {| Api.id := lit "2"; Api.label := lit "Depot"; Api.type := lit "Location";
     Api.color := [] |}.

(** A mounted graph view of three nodes, the first two joined both ways. *)
Definition trio_view : GraphView.State :=
  GraphView.mount {| GraphView.graphNodes := [john []; mary; depot];
                     GraphView.graphEdges := two_way |}.

End MoreSamples.

(** ** Proof tactics *)

Import Api App Chat.

Ltac js_unfold :=
  unfold handleSendMessage, handleClearMemory, loadCaseData, loadGraph,
    sendMessage, getGraph, clearGraph, getCase, uploadFile,
    setMessages, setGraphNodes, setGraphEdges, setIsLoading,
    alert, console_error, call, set_app, emit,
    try_catch_finally, try_finally, try_catch, of_outcome, modify, throw,
    mbind, M_bind, mret, M_ret, bind, ret in *.

Ltac elem_cases :=
  repeat match goal with
         | H : _ ∈ _ :: _ |- _ => apply elem_of_cons in H as [H|H]
         | H : _ ∈ _ ++ _ |- _ => apply elem_of_app in H as [H|H]
         | H : _ ∈ [] |- _ => by apply elem_of_nil in H
         end;
  simplify_eq/=.

Ltac chat_unfold :=
  unfold handleSubmit, upload_selected, call_onSendMessage, in_parent,
    setInput, setSelectedFile in *;
  unfold try_catch_finally, try_finally, try_catch, of_outcome, modify, throw,
    mbind, M_bind, mret, M_ret, bind, ret in *.

Ltac auth_unfold :=
  unfold Auth.check_stored_token, Auth.login, Auth.register, Auth.logout,
    Auth.api_login, Auth.api_register, Auth.auth_call, Auth.getCurrentUser,
    Auth.getAuthHeaders, Auth.getStoredToken, Auth.getToken, Auth.getItem,
    Auth.setItem, Auth.removeItem, Auth.setToken, Auth.setUser,
    Auth.setIsLoading, Auth.fetching, Auth.initial, Auth.ProtectedRoute,
    Auth.isAuthenticated, Auth.TOKEN_KEY,
    try_catch_finally, try_finally, try_catch, of_outcome, modify, throw,
    mbind, M_bind, bind, mret, M_ret, ret in *.

(** * Properties *)

(** ** Running handlers *)

Import Api App.

Lemma new_events_app {E} (w w' : World E) evs :
  trace w' = trace w ++ evs → new_events w w' = evs.
Proof. unfold new_events. intros ->. by rewrite drop_app_length. Qed.

(** ** C1, C2, C10: the chat turn in App.tsx *)

(** The outcome of [api.sendMessage] decides which branch of the turn
    runs; these two lemmas give the final world of each branch. *)
Lemma handleSendMessage_throw {E} (net : Net E) selectedCaseId caseId
    message fileContent (w : World E) e e1 :
  truthy_number selectedCaseId = Some caseId →
  sendMessage net caseId message fileContent (env w) = (Throw e, e1) →
  handleSendMessage net selectedCaseId message fileContent w =
    (Return (),
     {| app := {| activeTab := activeTab (app w);
                  messages := (messages (app w)
                    ++ [ {| role := lit "user"; content := message |} ])
                    ++ [ {| role := lit "assistant";
                            content := lit "Sorry, there was an error processing your message. Please try again." |} ];
                  graphNodes := graphNodes (app w);
                  graphEdges := graphEdges (app w);
                  isLoading := false;
                  cases := cases (app w);
                  isCasesLoading := isCasesLoading (app w) |};
        env := e1;
        trace := (trace w ++ [Requested (ChatReq caseId message fileContent)])
                   ++ [ConsoleError (lit "Failed to send message:")] |}).
Proof.
  intros Hsel Hsend. unfold handleSendMessage. rewrite Hsel.
  js_unfold. simpl. rewrite Hsend. reflexivity.
Qed.

(** C1. A chat turn whose request fails: the handler returns normally,
    the displayed nodes and edges are the ones before the turn, no graph
    request was issued, and the user's message is followed by an
    assistant message that reports the error. *)
Theorem failed_turn_leaves_graph {E} (net : Net E) (selectedCaseId : option Z)
    (caseId : Z) (message : jsstring) (fileContent : option jsstring)
    (w : World E) (e : JsError) :
  truthy_number selectedCaseId = Some caseId →
  (sendMessage net caseId message fileContent (env w)).1 = Throw e →
  ∃ w',
    handleSendMessage net selectedCaseId message fileContent w = (Return (), w')
    ∧ graphNodes (app w') = graphNodes (app w)
    ∧ graphEdges (app w') = graphEdges (app w)
    ∧ (∀ c, Requested (GraphReq c) ∉ new_events w w')
    ∧ messages (app w') =
        messages (app w)
          ++ [ {| role := lit "user"; content := message |};
               {| role := lit "assistant";
                  content := lit "Sorry, there was an error processing your message. Please try again." |} ]
    ∧ isLoading (app w') = false.
Proof.
  intros Hsel Hsend.
  destruct (sendMessage net caseId message fileContent (env w)) as [o e1] eqn:Hrun.
  simpl in Hsend. subst o.
  eexists. split; [by eapply handleSendMessage_throw|]. simpl.
  repeat split; try done.
  - intros c. erewrite new_events_app;
      last (simpl; rewrite <- app_assoc; reflexivity).
    simpl. intros Hin. elem_cases.
  - by rewrite <- app_assoc.
Qed.

Lemma handleSendMessage_return {E} (net : Net E) selectedCaseId caseId
    message fileContent (w : World E) response e1 :
  truthy_number selectedCaseId = Some caseId →
  sendMessage net caseId message fileContent (env w) = (Return response, e1) →
  let shown :=
    messages (app w)
      ++ [ {| role := lit "user"; content := message |};
           {| role := lit "assistant"; content := assistant_message response |} ] in
  let asked := trace w ++ [Requested (ChatReq caseId message fileContent)] in
  handleSendMessage net selectedCaseId message fileContent w =
    (Return (),
     if graph_updated response then
       match getGraph net caseId e1 with
       | (Return data, e2) =>
           {| app := {| activeTab := activeTab (app w); messages := shown;
                        graphNodes := nodes data; graphEdges := edges data;
                        isLoading := false; cases := cases (app w);
                        isCasesLoading := isCasesLoading (app w) |};
              env := e2;
              trace := asked ++ [Requested (GraphReq caseId)] |}
       | (Throw _, e2) =>
           {| app := {| activeTab := activeTab (app w); messages := shown;
                        graphNodes := graphNodes (app w);
                        graphEdges := graphEdges (app w);
                        isLoading := false; cases := cases (app w);
                        isCasesLoading := isCasesLoading (app w) |};
              env := e2;
              trace := asked ++ [Requested (GraphReq caseId);
                                 ConsoleError (lit "Failed to load graph:")] |}
       end
     else
       {| app := {| activeTab := activeTab (app w); messages := shown;
                    graphNodes := graphNodes (app w);
                    graphEdges := graphEdges (app w);
                    isLoading := false; cases := cases (app w);
                    isCasesLoading := isCasesLoading (app w) |};
          env := e1;
          trace := asked |}).
Proof.
  intros Hsel Hsend shown asked. subst shown asked.
  unfold handleSendMessage, loadGraph. rewrite Hsel.
  js_unfold. simpl. rewrite Hsend. simpl.
  destruct (graph_updated response); simpl.
  - destruct (fetch_graph net caseId e1) as [[r|?] e2]; simpl;
      [destruct (ok r); simpl; [destruct (json r); simpl|]|];
      rewrite <- ?app_assoc; reflexivity.
  - rewrite <- ?app_assoc; reflexivity.
Qed.

(** C2. A chat turn whose request succeeds: the handler returns normally
    and asks for the graph of the selected case exactly when the reply's
    [graph_updated] is true.  When it is false the displayed nodes and
    edges are the ones before the turn; when it is true they are the ones
    [getGraph] returned (or, when that call throws, the ones before). *)
Theorem graph_reloaded_iff_updated {E} (net : Net E) (selectedCaseId : option Z)
    (caseId : Z) (message : jsstring) (fileContent : option jsstring)
    (w : World E) (response : ChatResponse) :
  truthy_number selectedCaseId = Some caseId →
  (sendMessage net caseId message fileContent (env w)).1 = Return response →
  ∃ w',
    handleSendMessage net selectedCaseId message fileContent w = (Return (), w')
    ∧ (Requested (GraphReq caseId) ∈ new_events w w'
       ↔ graph_updated response = true)
    ∧ (∀ c, Requested (GraphReq c) ∈ new_events w w' → c = caseId)
    ∧ (graph_updated response = false →
       graphNodes (app w') = graphNodes (app w)
       ∧ graphEdges (app w') = graphEdges (app w))
    ∧ (graph_updated response = true →
       match (getGraph net caseId
                (sendMessage net caseId message fileContent (env w)).2).1 with
       | Return data =>
           graphNodes (app w') = nodes data ∧ graphEdges (app w') = edges data
       | Throw _ =>
           graphNodes (app w') = graphNodes (app w)
           ∧ graphEdges (app w') = graphEdges (app w)
       end).
Proof.
  intros Hsel Hsend.
  destruct (sendMessage net caseId message fileContent (env w)) as [o e1] eqn:Hrun.
  simpl in Hsend. subst o.
  eexists. split; [by eapply handleSendMessage_return|]. simpl.
  destruct (graph_updated response); simpl.
  - destruct (getGraph net caseId e1) as [[data|?] e2]; simpl;
      (erewrite new_events_app; last (simpl; rewrite <- app_assoc; reflexivity));
      simpl; repeat split; try done; intros; elem_cases; try done;
      rewrite !elem_of_cons; auto.
  - erewrite new_events_app; last reflexivity.
    repeat split; try done; intros; elem_cases; done.
Qed.

(** C10. With no case selected ([selectedCaseId] is [null]):
    [handleSendMessage] only shows the alert, [handleClearMemory] changes
    nothing at all, and the Clear Case Memory button, where the sidebar
    shows it, is disabled, so that clicking it does nothing. *)
Theorem no_case_selected_is_guarded {E} (net : Net E) (message : jsstring)
    (fileContent : option jsstring) (w : World E) (s : Sidebar.SidebarState) :
  handleSendMessage net None message fileContent w =
    (Return (),
     {| app := app w; env := env w;
        trace := trace w ++ [Alerted (lit "Please select or create a case first")] |})
  ∧ handleClearMemory net None w = (Return (), w)
  ∧ Sidebar.actions None s =
      (if Sidebar.isCollapsed s then None
       else if Sidebar.showConfirm s then Some Sidebar.ConfirmPanel
            else Some (Sidebar.ClearCaseMemoryButton true))
  ∧ Sidebar.click None Sidebar.ClickClearCaseMemory s = (s, false).
Proof.
  repeat split.
  - unfold Sidebar.actions. simpl. by destruct (Sidebar.isCollapsed s), (Sidebar.showConfirm s).
  - unfold Sidebar.click, Sidebar.actions. simpl.
    by destruct (Sidebar.isCollapsed s), (Sidebar.showConfirm s).
Qed.

(** ** C5: the submit guard of Chat.tsx *)

Import Chat.

(** Whatever [handleSendMessage] asks of the chat endpoint, it asks with
    the message it was given. *)
Lemma handleSendMessage_requests {E} (net : Net E) selectedCaseId message
    fileContent (w : World E) :
  ∃ evs,
    trace (handleSendMessage net selectedCaseId message fileContent w).2
      = trace w ++ evs
    ∧ ∀ c m fc, Requested (ChatReq c m fc) ∈ evs → m = message.
Proof.
  destruct (truthy_number selectedCaseId) as [caseId|] eqn:Hsel.
  - destruct (sendMessage net caseId message fileContent (env w))
      as [[response|e] e1] eqn:Hsend.
    + erewrite handleSendMessage_return by done. simpl.
      destruct (graph_updated response);
        [destruct (getGraph net caseId e1) as [[data|?] e2]|]; simpl;
        rewrite <- ?app_assoc; eexists; (split; [reflexivity|]);
        intros; elem_cases; done.
    + erewrite handleSendMessage_throw by done. simpl.
      rewrite <- ?app_assoc; eexists; (split; [reflexivity|]).
      intros; elem_cases; done.
  - unfold handleSendMessage. rewrite Hsel. js_unfold. simpl.
    eexists; (split; [reflexivity|]). intros; elem_cases; done.
Qed.

(** The upload step talks to the upload endpoint only and calls
    [onSendMessage] never. *)
Lemma upload_selected_quiet {E} (net : Net E) file (w : ChatWorld E) :
  let w' := (upload_selected net file w).2 in
  sent w' = sent w
  ∧ ∃ evs, trace (parent w') = trace (parent w) ++ evs
           ∧ ∀ c m fc, Requested (ChatReq c m fc) ∉ evs.
Proof.
  chat_unfold. js_unfold. simpl.
  destruct (fetch_upload net file (env (parent w))) as [[r|?] e1]; simpl;
    [destruct (ok r); simpl; [destruct (json r); simpl|]|];
    (split; [reflexivity|]); rewrite <- ?app_assoc;
    eexists; (split; [reflexivity|]); intros ??? Hin; elem_cases.
Qed.

(** C5. A form submission whose trimmed input is empty, or that arrives
    while a request is in flight, does nothing: [onSendMessage] is not
    called and no request is made (the submit button is disabled as
    well).  Every call of [onSendMessage] passes the input, whose trimmed
    text is not empty; with the App's handler as [onSendMessage], no chat
    request carries an empty message. *)
Theorem submit_guard_blocks_empty_and_busy {E} (net : Net E)
    (onSendMessage : jsstring → option jsstring → M (World E) unit)
    (selectedCaseId : option Z) (isLoading : bool) (input : jsstring)
    (selectedFile : option File) (w : ChatWorld E) :
  (trim input = [] ∨ isLoading = true →
   handleSubmit net onSendMessage isLoading input selectedFile w = (Return (), w)
   ∧ send_button_disabled isLoading input = true)
  ∧ (∀ m fc,
       (m, fc) ∈ drop (length (sent w))
                   (sent (handleSubmit net onSendMessage isLoading input selectedFile w).2) →
       m = input ∧ trim m ≠ [] ∧ m ≠ [] ∧ isLoading = false)
  ∧ (∀ c m fc,
       Requested (ChatReq c m fc)
         ∈ new_events (parent w)
             (parent (handleSubmit net (handleSendMessage net selectedCaseId)
                        isLoading input selectedFile w).2) →
       m = input ∧ trim m ≠ [] ∧ m ≠ []).
Proof.
  assert (Hne : ∀ s : jsstring, truthy_string (trim s) = true → trim s ≠ [] ∧ s ≠ []).
  { intros s Hs. split; intros Heq; [by rewrite Heq in Hs|by subst s]. }
  split; [|split].
  - intros Hguard. unfold handleSubmit, send_button_disabled.
    destruct Hguard as [-> | ->]; simpl.
    + by rewrite orb_true_r.
    + by rewrite andb_false_r.
  - intros m fc. unfold handleSubmit.
    destruct (truthy_string (trim input)) eqn:Htrim; simpl;
      [destruct isLoading; simpl|];
      try by (rewrite drop_all; intros ?%elem_of_nil).
    destruct (Hne _ Htrim) as [Ht Hi].
    destruct selectedFile as [file|].
    + pose proof (upload_selected_quiet net file w) as [Hsent _].
      unfold mbind, M_bind, bind at 1.
      destruct (upload_selected net file w) as [[[fc'|]|?] w1] eqn:Hup;
        simpl in Hsent; simpl; rewrite <- ?Hsent;
        try by (rewrite drop_all; intros ?%elem_of_nil).
      chat_unfold. simpl. destruct (onSendMessage input fc' (parent w1)) as [[[]|?] p']; simpl;
        rewrite drop_app_length; intros; elem_cases; done.
    + chat_unfold. simpl. destruct (onSendMessage input None (parent w)) as [[[]|?] p']; simpl;
        rewrite drop_app_length; intros; elem_cases; done.
  - intros c m fc. unfold handleSubmit.
    destruct (truthy_string (trim input)) eqn:Htrim; simpl;
      [destruct isLoading; simpl|]; unfold new_events;
      try by (rewrite drop_all; intros ?%elem_of_nil).
    destruct (Hne _ Htrim) as [Ht Hi].
    destruct selectedFile as [file|].
    + pose proof (upload_selected_quiet net file w)
        as [_ (evs & Htr & Hquiet)].
      unfold mbind, M_bind, bind at 1.
      destruct (upload_selected net file w) as [[[fc'|]|?] w1] eqn:Hup;
        simpl in Htr; simpl;
        try (by rewrite Htr, drop_app_length; intros Hin; apply Hquiet in Hin).
      chat_unfold. simpl.
      pose proof (handleSendMessage_requests net selectedCaseId input fc' (parent w1))
        as (evs' & Htr' & Hreq).
      destruct (handleSendMessage net selectedCaseId input fc' (parent w1)) as [[[]|?] p'];
        simpl in *; rewrite Htr', Htr, <- app_assoc, drop_app_length;
        intros [Hin|Hin]%elem_of_app;
        try (by apply Hquiet in Hin); by apply Hreq in Hin as ->.
    + chat_unfold. simpl.
      pose proof (handleSendMessage_requests net selectedCaseId input None (parent w))
        as (evs' & Htr' & Hreq).
      destruct (handleSendMessage net selectedCaseId input None (parent w)) as [[[]|?] p'];
        simpl in *; rewrite Htr', drop_app_length;
        intros Hin; by apply Hreq in Hin as ->.
Qed.

(** ** C6: the colour of an entity type *)

Import GraphView.

(** The six closed types have the colours of the table, with six
    different backgrounds. *)
Lemma closed_types_colours :
  (λ t, getEnhancedColor t false false) <$> closed_types =
    (λ p, {| c_bg := Some (lit p.1.1); c_text := Some (lit p.1.2);
             c_border := Some (lit p.2);
             c_shadow := lit "0 2px 8px rgba(0,0,0,0.3)" |})
      <$> [ ("#EF4444", "#FFFFFF", "#DC2626"); ("#3B82F6", "#FFFFFF", "#2563EB");
            ("#10B981", "#FFFFFF", "#059669"); ("#F59E0B", "#000000", "#D97706");
            ("#8B5CF6", "#FFFFFF", "#7C3AED"); ("#6B7280", "#FFFFFF", "#4B5563") ]%string
  ∧ NoDup ((λ t, c_bg (getEnhancedColor t false false)) <$> closed_types).
Proof.
  split; [by vm_compute|].
  apply (bool_decide_unpack _). by vm_compute.
Qed.

(** A type that is neither in the table nor a property of
    Object.prototype gets the colour of Unknown. *)
Lemma other_types_fall_back (type : jsstring) (isHighlighted isConnected : bool) :
  type ∉ closed_types →
  type ∉ object_prototype_keys →
  getEnhancedColor type isHighlighted isConnected
    = getEnhancedColor (lit "Unknown") isHighlighted isConnected.
Proof.
  intros Hclosed Hproto. unfold getEnhancedColor.
  assert (get type = Undefined) as ->; [|done].
  unfold get. rewrite (bool_decide_eq_false_2 _ Hproto).
  assert (colors !! type = None) as ->; [|done].
  unfold colors. apply not_elem_of_list_to_map_1. exact Hclosed.
Qed.

(** C6, at a type string the table inherits from Object.prototype: the
    fallback to Unknown is not taken, the returned colour has no
    background, text or border, and the node built from it has an
    [undefined] background and the border "3px solid undefined". *)
Theorem constructor_type_escapes_fallback :
  (lit "constructor" ∉ closed_types)
  ∧ getEnhancedColor (lit "constructor") false false =
      {| c_bg := None; c_text := None; c_border := None;
         c_shadow := lit "0 2px 8px rgba(0,0,0,0.3)" |}
  ∧ getEnhancedColor (lit "constructor") false false
      ≠ getEnhancedColor (lit "Unknown") false false
  ∧ (let node := flow_node ∅ 1 200 0
                   {| id := lit "n1"; label := lit "x";
                      type := lit "constructor"; Api.color := [] |} in
     background (style node) = None
     ∧ style_border (style node) = lit "3px solid undefined").
Proof.
  split; [|split; [|split]].
  - apply (bool_decide_unpack _). by vm_compute.
  - by vm_compute.
  - intros Heq. vm_compute in Heq. discriminate Heq.
  - by vm_compute.
Qed.

(** ** C8: directed edges in the graph view *)

Lemma lit_inj : Inj (=) (=) lit.
Proof.
  assert (Hcode : Inj (=) (=) Ascii.N_of_ascii).
  { intros a b Hab.
    rewrite <- (Ascii.ascii_N_embedding a), <- (Ascii.ascii_N_embedding b).
    by rewrite Hab. }
  intros s1 s2 Heq. unfold lit in Heq.
  apply (inj (fmap Ascii.N_of_ascii)) in Heq.
  rewrite <- (String.string_of_list_ascii_of_string s1),
    <- (String.string_of_list_ascii_of_string s2).
  by rewrite Heq.
Qed.

(** Edges at different places of the list get different ids. *)
Lemma flow_edge_id_inj selectedNodeId i j e1 e2 :
  edge_id (flow_edge selectedNodeId i e1) = edge_id (flow_edge selectedNodeId j e2) →
  i = j.
Proof.
  unfold flow_edge. cbn [edge_id]. intros Heq. apply app_inv_head in Heq.
  apply lit_inj in Heq. by apply (inj pretty) in Heq.
Qed.

(** C8. Two edges of the graph data that are each other's reverse (same
    label, source and target swapped) are rendered as two edges: the edge
    list has one entry per edge of the data, the two entries have
    different ids, each keeps its own source and target, and each has the
    arrow head at its target end. *)
Theorem opposite_edges_stay_distinct (selectedNodeId : option jsstring)
    (graphEdges : list GraphEdge) (i j : nat) (e1 e2 : GraphEdge) :
  i ≠ j →
  graphEdges !! i = Some e1 →
  graphEdges !! j = Some e2 →
  source e2 = target e1 →
  target e2 = source e1 →
  elabel e2 = elabel e1 →
  length (flowEdges selectedNodeId graphEdges) = length graphEdges
  ∧ ∃ f1 f2,
      flowEdges selectedNodeId graphEdges !! i = Some f1
      ∧ flowEdges selectedNodeId graphEdges !! j = Some f2
      ∧ edge_id f1 ≠ edge_id f2
      ∧ edge_source f1 = source e1 ∧ edge_target f1 = target e1
      ∧ edge_source f2 = target e1 ∧ edge_target f2 = source e1
      ∧ edge_label f1 = elabel e1 ∧ edge_label f2 = elabel e1
      ∧ marker_type (markerEnd f1) = ArrowClosed
      ∧ marker_type (markerEnd f2) = ArrowClosed.
Proof.
  intros Hij H1 H2 Hs Ht Hl. unfold flowEdges.
  split; [apply length_imap|].
  exists (flow_edge selectedNodeId i e1), (flow_edge selectedNodeId j e2).
  rewrite !list_lookup_imap, H1, H2.
  repeat split; try done.
  intros Heq. by apply flow_edge_id_inj in Heq.
Qed.

(** ** C9: node positions across rebuilds *)

Lemma save_positions_lookup changes saved i :
  save_positions changes saved !! i =
    match last_completed_drag changes i with
    | Some p => Some p
    | None => saved !! i
    end.
Proof.
  unfold save_positions, last_completed_drag.
  cut (∀ (m : gmap jsstring Position) (acc : option Position),
         m !! i = match acc with Some p => Some p | None => saved !! i end →
         foldl (λ (m : gmap jsstring Position) change,
                  match completed_drag change with
                  | Some p => <[change_id change := p]> m
                  | None => m
                  end) m changes !! i
         = match foldl (λ acc change,
                          match completed_drag change with
                          | Some p => if bool_decide (change_id change = i)
                                      then Some p else acc
                          | None => acc
                          end) acc changes with
           | Some p => Some p
           | None => saved !! i
           end).
  { intros Hgen. by apply (Hgen saved None). }
  induction changes as [|change changes IH]; intros m acc Hm; simpl; [done|].
  apply IH. destruct (completed_drag change) as [p|]; [|done].
  case_bool_decide as Hid.
  - subst i. by rewrite lookup_insert_eq.
  - by rewrite lookup_insert_ne.
Qed.

(** The second effect keeps the id and the position of every node. *)
Lemma restyle_node_position selectedNodeId connected graphNodes node :
  position (restyle_node selectedNodeId connected graphNodes node) = position node
  ∧ node_id (restyle_node selectedNodeId connected graphNodes node) = node_id node.
Proof. unfold restyle_node. by destruct (List.find _ graphNodes). Qed.

Lemma restyle_nodes_positions selectedNodeId graphNodes graphEdges currentNodes :
  position <$> restyle_nodes selectedNodeId graphNodes graphEdges currentNodes
    = position <$> currentNodes
  ∧ node_id <$> restyle_nodes selectedNodeId graphNodes graphEdges currentNodes
    = node_id <$> currentNodes.
Proof.
  unfold restyle_nodes. rewrite <- !list_fmap_compose.
  split; apply list_fmap_ext; intros ? node _; simpl;
    apply restyle_node_position.
Qed.

(** A rebuild gives the node at [k] its saved position if it has one, and
    its grid position otherwise. *)
Lemma receive_props_position p s k n :
  graphNodes p !! k = Some n →
  ∃ fn,
    nodes (receive_props p s) !! k = Some fn
    ∧ node_id fn = id n
    ∧ position fn =
        match nodePositionsRef s !! id n with
        | Some saved => saved
        | None =>
            grid_position (calculateLayout (length (graphNodes p))).1
              (calculateLayout (length (graphNodes p))).2 k
        end.
Proof.
  intros Hk. unfold receive_props, run_effects, flowNodes. simpl.
  destruct (graphNodes p) as [|n0 rest] eqn:Hnodes; [done|].
  rewrite <- Hnodes in *. clear Hnodes n0 rest.
  destruct (calculateLayout (length (graphNodes p))) as [cols spacing]. simpl.
  unfold restyle_nodes. rewrite list_lookup_fmap, list_lookup_imap, Hk. simpl.
  eexists. split; [reflexivity|].
  destruct (restyle_node_position (selectedNodeId s)
              (connectedNodeIds (selectedNodeId s) (graphEdges p)) (graphNodes p)
              (flow_node (nodePositionsRef s) cols spacing k n)) as [-> ->].
  done.
Qed.

Lemma step_saved onNodesChange s ev i p :
  nodePositionsRef s !! i = Some p →
  (∀ changes, ev = NodesChange changes → last_completed_drag changes i = None) →
  nodePositionsRef (step onNodesChange s ev) !! i = Some p.
Proof.
  intros Hs Hev. destruct ev as [p'|changes|node]; simpl; [done| |done].
  rewrite save_positions_lookup, (Hev changes eq_refl). done.
Qed.

Lemma run_saved onNodesChange evs s i p :
  nodePositionsRef s !! i = Some p →
  (∀ changes, NodesChange changes ∈ evs → last_completed_drag changes i = None) →
  nodePositionsRef (run onNodesChange evs s) !! i = Some p.
Proof.
  unfold run. revert s.
  induction evs as [|ev evs IH]; intros s Hs Hevs; simpl; [done|].
  apply IH.
  - apply step_saved; [done|]. intros changes ->. apply Hevs. by left.
  - intros changes Hin. apply Hevs. by right.
Qed.

(** What the code does with a position it has saved.  Once a change
    list saved [p] for node [i] (a position change that carries a
    position and [dragging: false]), and for as long as no later change
    list saves another one for [i], [p] stays saved through every event
    of the view, and every rebuild of the node list from new graph data
    puts the node with id [i] at [p]; a rebuild computes a grid position
    only for a node with no saved position; and the selection effect (a
    click on a node) changes no position and no id. *)
Lemma saved_positions_survive_rebuilds
    (onNodesChange : list NodeChange → list Node → list Node)
    (s : State) (changes : list NodeChange) (i : jsstring) (p : Position)
    (evs : list ViewEvent) :
  last_completed_drag changes i = Some p →
  (∀ later, NodesChange later ∈ evs → last_completed_drag later i = None) →
  let s1 := run onNodesChange evs (handleNodesChange onNodesChange changes s) in
  nodePositionsRef s1 !! i = Some p
  ∧ (∀ data k n,
       graphNodes data !! k = Some n → id n = i →
       ∃ fn, nodes (receive_props data s1) !! k = Some fn
             ∧ node_id fn = i ∧ position fn = p)
  ∧ (∀ data k n,
       graphNodes data !! k = Some n →
       ∃ fn, nodes (receive_props data s1) !! k = Some fn
             ∧ match nodePositionsRef s1 !! id n with
               | Some saved => position fn = saved
               | None =>
                   position fn =
                     grid_position (calculateLayout (length (graphNodes data))).1
                       (calculateLayout (length (graphNodes data))).2 k
               end)
  ∧ (∀ node,
       position <$> nodes (onNodeClick node s1) = position <$> nodes s1
       ∧ node_id <$> nodes (onNodeClick node s1) = node_id <$> nodes s1).
Proof.
  intros Hdrag Hlater s1.
  assert (Hsaved : nodePositionsRef s1 !! i = Some p).
  { apply run_saved; [|done]. simpl.
    by rewrite save_positions_lookup, Hdrag. }
  split; [done|]. split; [|split].
  - intros data k n Hk Hid.
    destruct (receive_props_position data s1 k n Hk)
      as (fn & Hfn & Hnid & Hpos).
    exists fn. rewrite Hid in *. by rewrite Hsaved in Hpos.
  - intros data k n Hk.
    destruct (receive_props_position data s1 k n Hk)
      as (fn & Hfn & Hnid & Hpos).
    exists fn. split; [done|]. by destruct (nodePositionsRef s1 !! id n).
  - intros node. unfold onNodeClick, run_selection_effect. simpl.
    apply restyle_nodes_positions.
Qed.

Lemma mouse_drag_saves_nothing
    (onNodesChange : list NodeChange → list Node → list Node)
    (i : jsstring) (path : list Position) (s : State) :
  nodePositionsRef (run onNodesChange (mouse_drag i path) s) = nodePositionsRef s.
Proof.
  unfold mouse_drag, run. rewrite foldl_app. simpl.
  induction path as [|p path IH] using rev_ind; [done|].
  rewrite fmap_app, foldl_app. simpl. exact IH.
Qed.

(** C9. The claim fails for a drag with the mouse.  The change reactflow
    sends when the drag completes carries no position, so
    [handleNodesChange] saves nothing: after any drag the saved
    positions are what they were before, and the next rebuild of the
    node list from new graph data puts a node that had no saved position
    back on its grid position.  At the sample: node 0 is dragged to
    (640, 480) and shown there; then the graph data arrive with one more
    node, and node 0 is at (100, 100) again. *)
Theorem completed_mouse_drag_is_forgotten :
  (∀ (onNodesChange : list NodeChange → list Node → list Node)
     (i : jsstring) (path : list Position) (s : State)
     (data : Props) (k : nat) (n : GraphNode),
     let s1 := run onNodesChange (mouse_drag i path) s in
     nodePositionsRef s1 = nodePositionsRef s
     ∧ (graphNodes data !! k = Some n → id n = i →
        nodePositionsRef s !! i = None →
        ∃ fn, nodes (receive_props data s1) !! k = Some fn
              ∧ node_id fn = i
              ∧ position fn =
                  grid_position (calculateLayout (length (graphNodes data))).1
                    (calculateLayout (length (graphNodes data))).2 k))
  ∧ let john := {| id := lit "0"; label := lit "John Doe"; type := lit "Person";
                   Api.color := [] |} in
    let mary := {| id := lit "1"; label := lit "Mary"; type := lit "Person";
                   Api.color := [] |} in
    let depot := {| id := lit "2"; label := lit "Depot"; type := lit "Location";
                    Api.color := [] |} in
    let dropped := {| x := 640; y := 480 |} in
    let s0 := mount {| graphNodes := [john; mary]; graphEdges := [] |} in
    let s1 := run applyNodeChanges
                (mouse_drag (lit "0") [ {| x := 300; y := 200 |}; dropped ]) s0 in
    let s2 := receive_props {| graphNodes := [john; mary; depot]; graphEdges := [] |} s1 in
    position <$> nodes s0 !! 0%nat = Some {| x := 100; y := 100 |}
    ∧ position <$> nodes s1 !! 0%nat = Some dropped
    ∧ nodePositionsRef s1 = ∅
    ∧ position <$> nodes s2 !! 0%nat = Some {| x := 100; y := 100 |}.
Proof.
  split.
  - intros onNodesChange i path s data k n s1.
    assert (Hsaved : nodePositionsRef s1 = nodePositionsRef s)
      by apply mouse_drag_saves_nothing.
    split; [done|]. intros Hk Hid Hnone.
    destruct (receive_props_position data s1 k n Hk) as (fn & Hfn & Hnid & Hpos).
    exists fn. rewrite Hid in *. rewrite Hsaved, Hnone in Hpos. done.
  - repeat split; by vm_compute.
Qed.

(** ** What the view reads of a node *)








(** ** C3: referential integrity of the graph *)

Import Engine.

Lemma most_recent_elem candidates e :
  most_recent candidates = Some e → e ∈ candidates.
Proof.
  unfold most_recent.
  cut (∀ best, foldl (λ best e,
                        match best with
                        | None => Some e
                        | Some b => if (last_seen_turn b <? last_seen_turn e)%N
                                    then Some e else Some b
                        end) best candidates = Some e →
               best = Some e ∨ e ∈ candidates).
  { intros Hgen Hfold. by destruct (Hgen None Hfold). }
  induction candidates as [|c cs IH]; simpl; intros best Hfold; [by left|].
  destruct (IH _ Hfold) as [Hbest|Hin]; [|right; by right].
  destruct best as [b|]; [case_match|]; simplify_eq; auto; right; by left.
Qed.

(** The resolver only ever matches an entity of the graph it queried. *)
Lemma resolve_matched g surface proposed i :
  resolve g surface proposed = Matched i → i ∈ ids g.
Proof.
  unfold resolve, ids. intros Hres.
  assert (∀ f e, e ∈ List.filter f (entities g) → entity_id e ∈ entity_id <$> entities g)
    as Hfilter.
  { intros f e Hin. apply list_elem_of_fmap_2.
    apply list_elem_of_In in Hin. apply filter_In in Hin as [Hin _].
    by apply list_elem_of_In. }
  destruct (List.filter (exact_alias_match surface proposed) (entities g))
    as [|e es] eqn:Hexact.
  - destruct (most_recent _) as [e|] eqn:Hrecent; [|done].
    simplify_eq. apply most_recent_elem in Hrecent. by eapply Hfilter.
  - simplify_eq. apply (Hfilter (exact_alias_match surface proposed)).
    rewrite Hexact. by left.
Qed.

Lemma ids_touch i surface t (es : list Entity) :
  entity_id <$> (touch i surface t <$> es) = entity_id <$> es.
Proof.
  rewrite <- list_fmap_compose. apply list_fmap_ext. intros ? e _.
  unfold touch. simpl. by case_bool_decide.
Qed.

Lemma closed_more_entities g g' :
  relationships g' = relationships g → ids g ⊆ ids g' → closed g → closed g'.
Proof.
  unfold closed. intros -> Hsub Hg. eapply Forall_impl; [exact Hg|].
  intros r [Hs Ht]. split; by apply Hsub.
Qed.

Lemma apply_mention_inv pre t m c :
  merge_inv pre m → merge_inv pre (apply_mention pre t m c).
Proof.
  intros (Hclosed & Hbind & Hpre). unfold apply_mention.
  destruct (surface_text c) as [surface|]; [|done].
  destruct (proposed_type c) as [ty|]; [|done].
  case_bool_decide; [done|].
  destruct (resolve pre surface ty) as [i|] eqn:Hres.
  - assert (Hids : ids {| entities := touch i surface t <$> entities (graph m);
                          relationships := relationships (graph m);
                          turn := turn (graph m); next_id := next_id (graph m) |}
                   = ids (graph m)) by apply ids_touch.
    split; [|split]; simpl.
    + apply (closed_more_entities (graph m)); [done| |done]. by rewrite Hids.
    + rewrite Hids. apply Forall_app. split; [done|].
      apply Forall_singleton. simpl. apply Hpre. by eapply resolve_matched.
    + by rewrite Hids.
  - assert (Hsub : ids (graph m) ⊆
                   ids {| entities := entities (graph m)
                            ++ [ {| entity_id := next_id (graph m); label := surface;
                                    etype := ty; aliases := {[ surface ]};
                                    first_seen_turn := t; last_seen_turn := t |} ];
                          relationships := relationships (graph m);
                          turn := turn (graph m);
                          next_id := (next_id (graph m) + 1)%N |}).
    { unfold ids. simpl. rewrite fmap_app. intros x Hx.
      apply elem_of_app. by left. }
    split; [|split]; simpl.
    + by apply (closed_more_entities (graph m)).
    + apply Forall_app. split.
      * eapply Forall_impl; [exact Hbind|]. intros b Hb. by apply Hsub.
      * apply Forall_singleton. unfold ids. simpl. rewrite fmap_app.
        apply elem_of_app. right. simpl. by left.
    + by etrans.
Qed.

Lemma endpoint_bound bs surface i (l : list N) :
  Forall (λ b, b.2 ∈ l) bs → endpoint bs surface = Some i → i ∈ l.
Proof.
  unfold endpoint. intros Hbs Hend.
  destruct (List.find _ bs) as [b|] eqn:Hfind; simplify_eq/=.
  apply find_some in Hfind as [Hin _]. apply list_elem_of_In in Hin.
  by eapply (proj1 (Forall_forall _ _) Hbs).
Qed.

Lemma apply_relationship_inv pre t m c :
  merge_inv pre m → merge_inv pre (apply_relationship t m c).
Proof.
  intros (Hclosed & Hbind & Hpre). unfold apply_relationship.
  destruct (source_surface c) as [ss|]; [|done].
  destruct (target_surface c) as [ts|]; [|done].
  destruct (candidate_label c) as [l|]; [|done].
  destruct (endpoint (bindings m) ss) as [s|] eqn:Hs; [|done].
  destruct (endpoint (bindings m) ts) as [tg|] eqn:Ht; [|done].
  pose proof (endpoint_bound _ _ _ _ Hbind Hs) as Hsin.
  pose proof (endpoint_bound _ _ _ _ Hbind Ht) as Htin.
  destruct (existsb _ _); (split; [|split]); simpl; try done.
  - unfold closed in *. simpl. apply Forall_fmap.
    eapply Forall_impl; [exact Hclosed|]. intros r Hr. unfold ids in *. simpl.
    unfold strengthen. by destruct (same_triple s tg l r).
  - unfold closed in *. simpl. apply Forall_app. split; [done|].
    by apply Forall_singleton.
Qed.

Lemma foldl_inv {A B} (P : A → Prop) (f : A → B → A) (l : list B) (a : A) :
  (∀ a b, P a → P (f a b)) → P a → P (foldl f a l).
Proof. intros Hstep. revert a. induction l; simpl; auto. Qed.

(** A turn that ends in an error leaves the store as it was. *)
Lemma ingest_error_keeps_store store case_id text answer err :
  (ingest store case_id text answer).2 = inl err →
  (ingest store case_id text answer).1 = store.
Proof.
  unfold ingest. case_bool_decide; [done|]. by destruct answer.
Qed.

(** One turn keeps the graph closed. *)
Lemma merge_closed pre x : closed pre → closed (graph (merge pre x)).
Proof.
  intros Hpre. unfold merge.
  cut (merge_inv pre
         (foldl (apply_relationship (turn pre + 1))
            (foldl (apply_mention pre (turn pre + 1))
               {| graph := {| entities := entities pre;
                              relationships := relationships pre;
                              turn := (turn pre + 1)%N; next_id := next_id pre |};
                  bindings := []; diff := empty_diff |}
               (candidate_entities x))
            (candidate_relationships x))).
  { by intros (H & _). }
  apply foldl_inv; [intros; by apply apply_relationship_inv|].
  apply foldl_inv; [intros; by apply apply_mention_inv|].
  split; [|split]; simpl; [exact Hpre|by apply Forall_nil|done].
Qed.

Lemma closed_empty : closed empty_graph.
Proof. by apply Forall_nil. Qed.

Lemma perform_closed store c : store_closed store → store_closed (perform store c).
Proof.
  intros Hstore case_id. unfold get.
  destruct c as [cid text answer|cid]; simpl.
  - unfold ingest. case_bool_decide; [apply Hstore|].
    destruct answer as [| |x]; simpl; try apply Hstore.
    destruct (decide (cid = case_id)) as [->|Hne].
    + rewrite lookup_insert_eq. simpl. apply merge_closed, Hstore.
    + rewrite lookup_insert_ne by done. apply Hstore.
  - destruct (decide (cid = case_id)) as [->|Hne].
    + rewrite lookup_insert_eq. apply closed_empty.
    + rewrite lookup_insert_ne by done. apply Hstore.
Qed.

Lemma perform_all_closed calls store :
  store_closed store → store_closed (perform_all calls store).
Proof. unfold perform_all. apply foldl_inv. intros. by apply perform_closed. Qed.

Lemma snapshot_closed g :
  closed g →
  Forall (λ e, ev_source e ∈ nv_id <$> gv_nodes (snapshot g)
               ∧ ev_target e ∈ nv_id <$> gv_nodes (snapshot g))
         (gv_edges (snapshot g)).
Proof.
  unfold closed, snapshot, ids. simpl. intros Hg. apply Forall_fmap.
  eapply Forall_impl; [exact Hg|]. intros r [Hs Ht]. simpl.
  rewrite <- list_fmap_compose.
  split; [apply list_elem_of_fmap_1 in Hs as (e & -> & He)
         |apply list_elem_of_fmap_1 in Ht as (e & -> & He)];
    by apply (list_elem_of_fmap_2 (λ e, id_text (entity_id e))).
Qed.

(** *** The ids of a graph *)










(** The nodes on screen after mounting are the nodes of the graph data,
    in order. *)
Lemma mount_node_ids p :
  node_id <$> GraphView.nodes (mount p) = id <$> graphNodes p.
Proof.
  unfold mount, run_effects, flowNodes. simpl.
  rewrite (proj2 (restyle_nodes_positions _ _ _ _)).
  destruct (graphNodes p) as [|n ns] eqn:Hns; [done|].
  rewrite <- Hns. clear Hns n ns.
  destruct (calculateLayout _) as [cols spacing]. simpl.
  apply list_eq. intros k.
  rewrite !list_lookup_fmap, list_lookup_imap.
  by destruct (graphNodes p !! k).
Qed.

(** C3. After any sequence of ingests (and clears) on any cases, every
    edge of the graph [get_graph] returns for a case has its source and
    its target among the ids of that graph's nodes; this holds after
    every call of the sequence, so no relationship is in a graph before
    both of its ends.  The same holds of what the graph view then draws
    from that reply. *)
Theorem get_graph_has_no_dangling_edge (calls : list Call) (case_id : Z)
    (paint : jsstring → jsstring) :
  let reply := get_graph (perform_all calls ∅) case_id in
  let data := Deployment.graph_data paint reply in
  let view := mount {| graphNodes := Api.nodes data; graphEdges := Api.edges data |} in
  closed (get (perform_all calls ∅) case_id)
  ∧ Forall (λ e, ev_source e ∈ nv_id <$> gv_nodes reply
                 ∧ ev_target e ∈ nv_id <$> gv_nodes reply)
           (gv_edges reply)
  ∧ Forall (λ f, edge_source f ∈ node_id <$> GraphView.nodes view
                 ∧ edge_target f ∈ node_id <$> GraphView.nodes view)
           (GraphView.edges view).
Proof.
  intros reply data view.
  assert (Hclosed : closed (get (perform_all calls ∅) case_id)).
  { apply perform_all_closed. intros c. unfold get.
    rewrite lookup_empty. apply closed_empty. }
  pose proof (snapshot_closed _ Hclosed) as Hreply.
  fold (get_graph (perform_all calls ∅) case_id) in Hreply. fold reply in Hreply.
  split; [done|]. split; [done|].
  apply Forall_forall. intros f Hf. subst view.
  rewrite mount_node_ids. unfold mount, run_effects, flowEdges in Hf. simpl in Hf.
  apply elem_of_lookup_imap_1 in Hf as (k & e & -> & Hk). simpl.
  apply list_lookup_fmap_Some_1 in Hk as (ev & -> & Hev). simpl.
  apply list_elem_of_lookup_2 in Hev.
  destruct (proj1 (Forall_forall _ _) Hreply ev Hev) as [Hs Ht].
  rewrite <- list_fmap_compose.
  split; [apply list_elem_of_fmap_1 in Hs as (n & -> & Hn)
         |apply list_elem_of_fmap_1 in Ht as (n & -> & Hn)];
    by apply (list_elem_of_fmap_2 (λ n, nv_id n)).
Qed.

(** ** C4: clearing a case *)

(** *** Graphs that differ in their turn numbers only *)















(** ** C7: the fields of nodes and edges *)


Import Deployment.






(** ** The theorems at sample inputs *)

Import Samples.

(** The two turns of the scenario of section 8: "John" resolves to John
    Doe, the Warehouse stays one node, Mary is new. *)
Example two_turn_scenario :
  get_graph
    (perform_all
       [ Ingest 1 (lit "John Doe was seen at the Warehouse") (Extracted warehouse_turn);
         Ingest 1 (lit "John met Mary at the Warehouse") (Extracted meeting_turn) ] ∅) 1
  = {| gv_nodes :=
         [ {| nv_id := lit "0"; nv_label := lit "John Doe"; nv_type := lit "Person" |};
           {| nv_id := lit "1"; nv_label := lit "Warehouse"; nv_type := lit "Location" |};
           {| nv_id := lit "2"; nv_label := lit "Mary"; nv_type := lit "Person" |} ];
       gv_edges :=
         [ {| ev_source := lit "0"; ev_target := lit "1"; ev_label := lit "was seen at" |};
           {| ev_source := lit "0"; ev_target := lit "2"; ev_label := lit "met" |};
           {| ev_source := lit "2"; ev_target := lit "1"; ev_label := lit "was seen at" |} ] |}.
Proof. by vm_compute. Qed.

(** A chat turn against the engine: the reply says the graph changed and
    the two nodes and the edge of the first turn are on screen. *)
Example chat_turn_shows_new_graph :
  let w' := (handleSendMessage (server_net (λ t, t)) (Some 1)
               (lit "John Doe was seen at the Warehouse") None
               (world_on busy_server)).2 in
  Api.id <$> App.graphNodes (app w') = [lit "0"; lit "1"]
  ∧ (λ e, (source e, target e)) <$> App.graphEdges (app w') = [(lit "0", lit "1")]
  ∧ role <$> messages (app w') = [lit "user"; lit "assistant"]
  ∧ trace w' = [ Requested (ChatReq 1 (lit "John Doe was seen at the Warehouse") None);
                 Requested (GraphReq 1) ].
Proof. by vm_compute. Qed.

Lemma failed_turn_leaves_graph_witness :
  truthy_number (Some 1) = Some 1
  ∧ (sendMessage (server_net (λ t, t)) 1 (lit "hello") None
       (env (world_on offline_server))).1 = Throw (TypeError (lit "Failed to fetch"))
  ∧ ∃ w',
      handleSendMessage (server_net (λ t, t)) (Some 1) (lit "hello") None
        (world_on offline_server) = (Return (), w')
      ∧ App.graphNodes (app w') = App.graphNodes (app (world_on offline_server))
      ∧ App.graphEdges (app w') = App.graphEdges (app (world_on offline_server))
      ∧ (∀ c, Requested (GraphReq c) ∉ new_events (world_on offline_server) w')
      ∧ messages (app w') =
          messages (app (world_on offline_server))
            ++ [ {| role := lit "user"; content := lit "hello" |};
                 {| role := lit "assistant";
                    content := lit "Sorry, there was an error processing your message. Please try again." |} ]
      ∧ isLoading (app w') = false.
Proof.
  split; [reflexivity|]. split; [vm_compute; reflexivity|].
  apply (failed_turn_leaves_graph (server_net (λ t, t)) (Some 1) 1 (lit "hello") None
           (world_on offline_server) (TypeError (lit "Failed to fetch")));
    vm_compute; reflexivity.
Defined.

Lemma graph_reloaded_iff_updated_witness :
  let net := server_net (λ t, t) in
  let w := world_on busy_server in
  let response := {| assistant_message := lit "Noted."; graph_updated := true |} in
  truthy_number (Some 1) = Some 1
  ∧ (sendMessage net 1 (lit "John Doe was seen at the Warehouse") None (env w)).1
      = Return response
  ∧ ∃ w',
      handleSendMessage net (Some 1) (lit "John Doe was seen at the Warehouse") None w
        = (Return (), w')
      ∧ (Requested (GraphReq 1) ∈ new_events w w' ↔ graph_updated response = true)
      ∧ (∀ c, Requested (GraphReq c) ∈ new_events w w' → c = 1)
      ∧ (graph_updated response = false →
         App.graphNodes (app w') = App.graphNodes (app w)
         ∧ App.graphEdges (app w') = App.graphEdges (app w))
      ∧ (graph_updated response = true →
         match (getGraph net 1
                  (sendMessage net 1 (lit "John Doe was seen at the Warehouse")
                     None (env w)).2).1 with
         | Return data =>
             App.graphNodes (app w') = Api.nodes data
             ∧ App.graphEdges (app w') = Api.edges data
         | Throw _ =>
             App.graphNodes (app w') = App.graphNodes (app w)
             ∧ App.graphEdges (app w') = App.graphEdges (app w)
         end).
Proof.
  intros net w response.
  split; [reflexivity|]. split; [vm_compute; reflexivity|].
  apply (graph_reloaded_iff_updated net (Some 1) 1
           (lit "John Doe was seen at the Warehouse") None w response);
    vm_compute; reflexivity.
Defined.



Lemma submit_guard_blocks_empty_and_busy_witness :
  let net := server_net (λ t, t) in
  let w := {| cstate := {| input := lit "   "; selectedFile := None |};
              parent := world_on busy_server; sent := [] |} in
  (trim (lit "   ") = [] ∨ false = true)
  ∧ handleSubmit net (handleSendMessage net (Some 1)) false (lit "   ") None w
      = (Return (), w)
  ∧ send_button_disabled false (lit "   ") = true.
Proof.
  intros net w.
  assert (Hguard : trim (lit "   ") = [] ∨ false = true)
    by (left; vm_compute; reflexivity).
  split; [exact Hguard|].
  exact (proj1 (submit_guard_blocks_empty_and_busy net (handleSendMessage net (Some 1))
                  (Some 1) false (lit "   ") None w) Hguard).
Defined.


Lemma opposite_edges_stay_distinct_witness :
  let e1 := {| source := lit "0"; target := lit "1"; elabel := lit "met" |} in
  let e2 := {| source := lit "1"; target := lit "0"; elabel := lit "met" |} in
  (0 ≠ 1)%nat
  ∧ two_way !! 0%nat = Some e1
  ∧ two_way !! 1%nat = Some e2
  ∧ source e2 = target e1 ∧ target e2 = source e1 ∧ elabel e2 = elabel e1
  ∧ length (flowEdges None two_way) = length two_way
  ∧ ∃ f1 f2,
      flowEdges None two_way !! 0%nat = Some f1
      ∧ flowEdges None two_way !! 1%nat = Some f2
      ∧ edge_id f1 ≠ edge_id f2
      ∧ edge_source f1 = source e1 ∧ edge_target f1 = target e1
      ∧ edge_source f2 = target e1 ∧ edge_target f2 = source e1
      ∧ edge_label f1 = elabel e1 ∧ edge_label f2 = elabel e1
      ∧ marker_type (markerEnd f1) = ArrowClosed
      ∧ marker_type (markerEnd f2) = ArrowClosed.
Proof.
  intros e1 e2.
  assert (Hne : (0 ≠ 1)%nat) by lia.
  do 6 (split; [first [exact Hne | reflexivity]|]).
  exact (opposite_edges_stay_distinct None two_way 0 1 e1 e2 Hne
           eq_refl eq_refl eq_refl eq_refl eq_refl).
Defined.

(** * Further properties of the front end *)

(** ** GraphView.tsx: the grid *)

Lemma calculateLayout_bounds (nodeCount : nat) :
  (1 ≤ (calculateLayout nodeCount).1)%nat
  ∧ 180 ≤ (calculateLayout nodeCount).2 ≤ 265
  ∧ (nodeCount ≤ (calculateLayout nodeCount).1 * (calculateLayout nodeCount).1)%nat.
Proof.
  unfold calculateLayout. case_bool_decide as Hn.
  - do 7 (destruct nodeCount as [|nodeCount]; [simpl; lia|]). lia.
  - simpl. assert (0 < nodeCount)%nat as Hpos by lia.
    pose proof (Nat.sqrt_up_spec nodeCount Hpos) as [_ Hup].
    pose proof (proj2 (Nat.sqrt_up_pos nodeCount) Hpos) as Hroot.
    set (root := Nat.sqrt_up nodeCount) in *. clearbody root.
    repeat split; lia.
Qed.

Lemma inject_nat_step (a b : nat) :
  (a < b)%nat → (inject_Z (Z.of_nat a) + 1 <= inject_Z (Z.of_nat b))%Q.
Proof.
  intros Hab. change 1%Q with (inject_Z 1). rewrite <- inject_Z_plus.
  rewrite <- Zle_Qle. lia.
Qed.

Lemma grid_rows_apart cols spacing i j :
  180 ≤ spacing → (i / cols < j / cols)%nat →
  (y (grid_position cols spacing i) + 180 <= y (grid_position cols spacing j))%Q.
Proof.
  intros Hs Hrow. unfold grid_position. cbn [y].
  pose proof (inject_nat_step _ _ Hrow) as Hstep.
  assert (180 <= inject_Z spacing)%Q as HS.
  { change 180%Q with (inject_Z 180). by rewrite <- Zle_Qle. }
  assert (0 <= inject_Z spacing)%Q as HS0 by lra.
  pose proof (Qmult_le_compat_r _ _ _ Hstep HS0) as Hmul.
  lra.
Qed.

Lemma grid_cols_apart cols spacing i j :
  180 ≤ spacing → (i / cols = j / cols)%nat → (i mod cols < j mod cols)%nat →
  (x (grid_position cols spacing i) + 180 <= x (grid_position cols spacing j))%Q.
Proof.
  intros Hs Hrow Hcol. unfold grid_position. cbn [x]. rewrite Hrow.
  pose proof (inject_nat_step _ _ Hcol) as Hstep.
  assert (180 <= inject_Z spacing)%Q as HS.
  { change 180%Q with (inject_Z 180). by rewrite <- Zle_Qle. }
  assert (0 <= inject_Z spacing)%Q as HS0 by lra.
  pose proof (Qmult_le_compat_r _ _ _ Hstep HS0) as Hmul.
  destruct (bool_decide _); lra.
Qed.

(** X1. Whatever the number of nodes, two different places of the node
    list get grid positions that are at least 180 apart horizontally or
    vertically; in particular no two nodes are laid out on the same
    spot. *)
Theorem grid_positions_are_apart (nodeCount i j : nat) :
  i ≠ j →
  let cols := (calculateLayout nodeCount).1 in
  let spacing := (calculateLayout nodeCount).2 in
  let p := grid_position cols spacing i in
  let q := grid_position cols spacing j in
  (x p + 180 <= x q ∨ x q + 180 <= x p ∨ y p + 180 <= y q ∨ y q + 180 <= y p)%Q.
Proof.
  intros Hij cols spacing p q.
  destruct (calculateLayout_bounds nodeCount) as (Hcols & [Hs _] & _).
  fold cols spacing in Hcols, Hs.
  destruct (Nat.lt_total (i / cols) (j / cols)) as [Hrow|[Hrow|Hrow]].
  - right; right; left. by apply grid_rows_apart.
  - destruct (Nat.lt_total (i mod cols) (j mod cols)) as [Hcol|[Hcol|Hcol]].
    + left. by apply grid_cols_apart.
    + exfalso. apply Hij.
      rewrite (Nat.div_mod_eq i cols), (Nat.div_mod_eq j cols). by rewrite Hrow, Hcol.
    + right; left. by apply grid_cols_apart.
  - right; right; right. by apply grid_rows_apart.
Qed.

(** X2. The layout is a square grid: it has at least one column, its
    spacing lies between 180 and 265, the node at a place below the node
    count sits in one of the first [cols] rows, and no coordinate is
    below 100. *)
Theorem grid_is_square (nodeCount index : nat) :
  (index < nodeCount)%nat →
  let cols := (calculateLayout nodeCount).1 in
  let spacing := (calculateLayout nodeCount).2 in
  (1 ≤ cols)%nat ∧ 180 ≤ spacing ≤ 265
  ∧ (index / cols < cols)%nat
  ∧ (100 <= x (grid_position cols spacing index))%Q
  ∧ (100 <= y (grid_position cols spacing index))%Q.
Proof.
  intros Hi cols spacing.
  destruct (calculateLayout_bounds nodeCount) as (Hcols & Hs & Hsq).
  fold cols spacing in Hcols, Hs, Hsq.
  clearbody cols spacing.
  split; [done|]. split; [done|]. split.
  { apply Nat.Div0.div_lt_upper_bound. lia. }
  assert (0 <= inject_Z spacing)%Q as HS0.
  { change 0%Q with (inject_Z 0). rewrite <- Zle_Qle. lia. }
  assert (∀ n : nat, 0 <= inject_Z (Z.of_nat n) * inject_Z spacing)%Q as Hprod.
  { intros n. apply Qmult_le_0_compat; [|done].
    change 0%Q with (inject_Z 0). rewrite <- Zle_Qle. lia. }
  unfold grid_position. cbn [x y]. split.
  - pose proof (Hprod (index mod cols)%nat).
    assert (0 <= inject_Z spacing / 2)%Q as Hhalf.
    { unfold Qdiv. apply Qmult_le_0_compat; [done|]. by vm_compute. }
    destruct (bool_decide _); lra.
  - pose proof (Hprod (index / cols)%nat). lra.
Qed.

(** ** GraphView.tsx: selection *)

Import ViewRelations.

Lemma connectedNodeIds_spec (selectedNodeId : option jsstring)
    (graphEdges : list GraphEdge) (n : jsstring) :
  n ∈ connectedNodeIds selectedNodeId graphEdges
  ↔ truthy_id selectedNodeId = true
    ∧ ∃ e, e ∈ graphEdges
           ∧ ((Some (source e) = selectedNodeId ∧ n = target e)
              ∨ (Some (target e) = selectedNodeId ∧ n = source e)).
Proof.
  unfold connectedNodeIds. destruct (truthy_id selectedNodeId); [|set_solver].
  cut (∀ acc : gset jsstring,
         n ∈ foldl (λ (acc : gset jsstring) edge,
                      let acc1 := if bool_decide (Some (source edge) = selectedNodeId)
                                  then acc ∪ {[ target edge ]} else acc in
                      if bool_decide (Some (target edge) = selectedNodeId)
                      then acc1 ∪ {[ source edge ]} else acc1) acc graphEdges
         ↔ n ∈ acc
           ∨ ∃ e, e ∈ graphEdges
                  ∧ ((Some (source e) = selectedNodeId ∧ n = target e)
                     ∨ (Some (target e) = selectedNodeId ∧ n = source e))).
  { intros Hgen. rewrite Hgen. set_solver. }
  induction graphEdges as [|edge es IH]; intros acc; simpl.
  - split; [by left|]. intros [?|(e & He & _)]; [done|]. by apply elem_of_nil in He.
  - rewrite IH.
    assert (Hhead :
      n ∈ (if bool_decide (Some (target edge) = selectedNodeId)
           then (if bool_decide (Some (source edge) = selectedNodeId)
                 then acc ∪ {[ target edge ]} else acc) ∪ {[ source edge ]}
           else (if bool_decide (Some (source edge) = selectedNodeId)
                 then acc ∪ {[ target edge ]} else acc))
      ↔ n ∈ acc ∨ (Some (source edge) = selectedNodeId ∧ n = target edge)
                ∨ (Some (target edge) = selectedNodeId ∧ n = source edge)).
    { repeat case_bool_decide; rewrite ?elem_of_union, ?elem_of_singleton; tauto. }
    rewrite Hhead. split.
    + intros [[Hacc|Hedge]|(e & He & Hcase)].
      * by left.
      * right. exists edge. split; [by left|done].
      * right. exists e. split; [by right|done].
    + intros [Hacc|(e & He & Hcase)]; [by left; left|].
      apply elem_of_cons in He as [->|He]; [by left; right|].
      right. by exists e.
Qed.

Lemma find_data_node (graphNodes : list GraphNode) (i : jsstring) :
  i ∈ id <$> graphNodes →
  ∃ gn, List.find (λ g, bool_decide (id g = i)) graphNodes = Some gn.
Proof.
  intros (g & -> & Hg)%list_elem_of_fmap_1.
  destruct (List.find _ graphNodes) as [gn|] eqn:Hfind; [by exists gn|].
  apply list_elem_of_In in Hg.
  pose proof (find_none _ _ Hfind g Hg) as Hno. simpl in Hno.
  by rewrite bool_decide_eq_true_2 in Hno.
Qed.

(** X3. A click on a node that is not the selected one selects it; of the
    nodes on screen that are in the graph data, the clicked node and the
    nodes an edge joins to it, in either direction, are shown at full
    opacity and every other node at opacity 0.3. *)
Theorem click_dims_unrelated_nodes (s : State) (clicked : jsstring)
    (k : nat) (fn : Node) :
  clicked ≠ [] →
  selectedNodeId s ≠ Some clicked →
  GraphView.nodes s !! k = Some fn →
  node_id fn ∈ id <$> graphNodes (props s) →
  ∃ fn',
    GraphView.nodes (onNodeClick clicked s) !! k = Some fn'
    ∧ selectedNodeId (onNodeClick clicked s) = Some clicked
    ∧ node_id fn' = node_id fn
    ∧ position fn' = position fn
    ∧ (node_id fn = clicked ∨ joined (graphEdges (props s)) clicked (node_id fn) →
       opacity (style fn') = 1%Q)
    ∧ (node_id fn ≠ clicked ∧ ¬ joined (graphEdges (props s)) clicked (node_id fn) →
       opacity (style fn') = (3 # 10)%Q).
Proof.
  intros Hne Hsel Hk Hdata.
  destruct (find_data_node _ _ Hdata) as (gn & Hfind).
  unfold onNodeClick, run_selection_effect, restyle_nodes. cbn [GraphView.nodes selectedNodeId props].
  rewrite (bool_decide_eq_false_2 _ Hsel).
  rewrite list_lookup_fmap, Hk. simpl.
  eexists. split; [reflexivity|]. split; [done|].
  unfold restyle_node. rewrite Hfind. cbn [node_id position style opacity].
  split; [done|]. split; [done|].
  assert (Htruthy : truthy_id (Some clicked) = true) by by destruct clicked.
  rewrite Htruthy.
  assert (Hconn : node_id fn ∈ connectedNodeIds (Some clicked) (graphEdges (props s))
                  ↔ joined (graphEdges (props s)) clicked (node_id fn)).
  { rewrite connectedNodeIds_spec. unfold joined. split.
    - intros (_ & e & He & [[[= Hs] Ht]|[[= Ht] Hs]]); exists e; naive_solver.
    - intros (e & He & [[Hs Ht]|[Ht Hs]]); (split; [done|]); exists e;
        (split; [done|]); [left|right]; by subst. }
  split.
  - intros [Heq|Hj].
    + by rewrite (bool_decide_eq_true_2 (Some (node_id fn) = Some clicked)) by by f_equal.
    + apply Hconn in Hj. rewrite (bool_decide_eq_true_2 _ Hj).
      by destruct (bool_decide (Some (node_id fn) = Some clicked)).
  - intros [Hneq Hnj].
    rewrite (bool_decide_eq_false_2 (Some (node_id fn) = Some clicked)) by congruence.
    rewrite bool_decide_eq_false_2; [done|]. by rewrite Hconn.
Qed.

(** X4. A click on a node that is not the selected one: an edge of the
    graph data that has the clicked node at one end is animated, three
    wide and fully opaque; every other edge is not animated, two wide and
    at opacity 0.2. *)
Theorem click_highlights_incident_edges (s : State) (clicked : jsstring)
    (k : nat) (e : GraphEdge) :
  clicked ≠ [] →
  selectedNodeId s ≠ Some clicked →
  graphEdges (props s) !! k = Some e →
  ∃ f,
    GraphView.edges (onNodeClick clicked s) !! k = Some f
    ∧ edge_source f = source e ∧ edge_target f = target e
    ∧ (animated f, strokeWidth (edge_style f), edge_opacity (edge_style f))
      = if decide (touches e clicked) then (true, 3%Q, 1%Q) else (false, 2%Q, (1 # 5)%Q).
Proof.
  intros Hne Hsel Hk.
  unfold onNodeClick, run_selection_effect, flowEdges.
  cbn [GraphView.edges selectedNodeId props].
  rewrite (bool_decide_eq_false_2 _ Hsel), list_lookup_imap, Hk.
  destruct clicked as [|c rest]; [done|]. simpl.
  eexists. split; [reflexivity|]. split; [done|]. split; [done|].
  unfold touches, flow_edge.
  cbn [animated strokeWidth edge_style edge_opacity truthy_id truthy_string andb].
  destruct (decide (source e = c :: rest ∨ target e = c :: rest)) as [[Hs|Ht]|Hno].
  - by rewrite (bool_decide_eq_true_2 (Some (source e) = Some (c :: rest))) by by f_equal.
  - rewrite (bool_decide_eq_true_2 (Some (target e) = Some (c :: rest))) by by f_equal.
    by rewrite orb_true_r.
  - rewrite (bool_decide_eq_false_2 (Some (source e) = Some (c :: rest))),
      (bool_decide_eq_false_2 (Some (target e) = Some (c :: rest)));
      [done| |]; intros [= Heq]; apply Hno; auto.
Qed.

(** X5. A click on the selected node deselects it: every node on screen
    that is in the graph data is back at full opacity, and every edge is
    still, two wide and fully opaque. *)
Theorem click_again_deselects (s : State) (clicked : jsstring) :
  selectedNodeId s = Some clicked →
  let s' := onNodeClick clicked s in
  selectedNodeId s' = None
  ∧ Forall (λ fn, node_id fn ∈ id <$> graphNodes (props s) →
                  opacity (style fn) = 1%Q) (GraphView.nodes s')
  ∧ Forall (λ f, animated f = false ∧ strokeWidth (edge_style f) = 2%Q
                 ∧ edge_opacity (edge_style f) = 1%Q) (GraphView.edges s').
Proof.
  intros Hsel s'. subst s'. unfold onNodeClick, run_selection_effect.
  cbn [GraphView.nodes GraphView.edges selectedNodeId props].
  rewrite (bool_decide_eq_true_2 _ Hsel).
  split; [done|]. split.
  - unfold restyle_nodes. apply Forall_fmap, Forall_forall. intros fn _. simpl.
    destruct (restyle_node_position None (connectedNodeIds None (graphEdges (props s)))
                (graphNodes (props s)) fn) as [_ Hid].
    rewrite Hid. intros Hdata.
    destruct (find_data_node _ _ Hdata) as (gn & Hfind).
    unfold restyle_node. by rewrite Hfind.
  - unfold flowEdges. apply Forall_forall. intros f Hf.
    apply elem_of_lookup_imap_1 in Hf as (k & e & -> & _). done.
Qed.

(** X6. The edge list built from the graph data has one edge per edge of
    the data, in the same order, with the same source, target and label,
    and no two of its edges have the same id, whatever is selected. *)
Theorem flow_edges_follow_the_data (selectedNodeId : option jsstring)
    (graphEdges : list GraphEdge) :
  NoDup (edge_id <$> flowEdges selectedNodeId graphEdges)
  ∧ edge_source <$> flowEdges selectedNodeId graphEdges = source <$> graphEdges
  ∧ edge_target <$> flowEdges selectedNodeId graphEdges = target <$> graphEdges
  ∧ edge_label <$> flowEdges selectedNodeId graphEdges = elabel <$> graphEdges.
Proof.
  unfold flowEdges. split; [|repeat split].
  - apply NoDup_alt. intros i j x Hi Hj.
    rewrite list_lookup_fmap, list_lookup_imap in Hi, Hj.
    destruct (graphEdges !! i) as [e1|]; [|done].
    destruct (graphEdges !! j) as [e2|]; [|done].
    cbn [fmap option_fmap option_map] in Hi, Hj.
    apply (flow_edge_id_inj selectedNodeId i j e1 e2). congruence.
  - apply list_eq. intros k. rewrite !list_lookup_fmap, list_lookup_imap.
    by destruct (graphEdges !! k).
  - apply list_eq. intros k. rewrite !list_lookup_fmap, list_lookup_imap.
    by destruct (graphEdges !! k).
  - apply list_eq. intros k. rewrite !list_lookup_fmap, list_lookup_imap.
    by destruct (graphEdges !! k).
Qed.

(** ** GraphView.tsx: the saved positions and the node list *)

Lemma completed_drag_Some change p :
  completed_drag change = Some p ↔
  change_type change = lit "position"
  ∧ change_position change = Some p
  ∧ change_dragging change = Some false.
Proof.
  unfold completed_drag. case_bool_decide as Ht.
  - destruct (change_position change) as [q|], (change_dragging change) as [[]|];
      naive_solver.
  - naive_solver.
Qed.

(** X7. Only a drop saves a position: changes other than a position
    change that carries a position and has [dragging] false are ignored;
    no saved position is ever removed; and a node that has a saved
    position had one before or was dropped in these changes. *)
Theorem positions_are_saved_only_on_drop (changes : list NodeChange)
    (saved : gmap jsstring Position) :
  save_positions changes saved
    = save_positions
        (List.filter (λ c, bool_decide (is_Some (completed_drag c))) changes) saved
  ∧ dom saved ⊆ dom (save_positions changes saved)
  ∧ ∀ i, i ∈ dom (save_positions changes saved) →
         i ∈ dom saved
         ∨ ∃ c p, c ∈ changes ∧ change_id c = i
                  ∧ change_type c = lit "position"
                  ∧ change_position c = Some p
                  ∧ change_dragging c = Some false.
Proof.
  unfold save_positions. revert saved.
  induction changes as [|c cs IH]; intros saved; simpl.
  - split; [done|]. split; [done|]. intros i Hi. by left.
  - destruct (completed_drag c) as [p|] eqn:Hc; simpl.
    + rewrite ?Hc.
      destruct (IH (<[change_id c := p]> saved)) as (Heq & Hsub & Hnew).
      split; [done|]. split.
      * etrans; [|exact Hsub]. rewrite dom_insert. set_solver.
      * intros i Hi. destruct (Hnew i Hi) as [Hin|(c' & p' & Hc' & Hrest)].
        -- rewrite dom_insert in Hin. apply elem_of_union in Hin as [Hin|Hin]; [|by left].
           apply elem_of_singleton in Hin. subst i. right.
           apply completed_drag_Some in Hc as (Ht & Hp & Hd).
           exists c, p. split; [by left|done].
        -- right. exists c', p'. split; [by right|done].
    + rewrite ?Hc.
      destruct (IH saved) as (Heq & Hsub & Hnew).
      split; [done|]. split; [done|].
      intros i Hi. destruct (Hnew i Hi) as [Hin|(c' & p' & Hc' & Hrest)]; [by left|].
      right. exists c', p'. split; [by right|done].
Qed.

Lemma receive_props_ids p s :
  graphNodes p ≠ [] →
  node_id <$> GraphView.nodes (receive_props p s) = id <$> graphNodes p.
Proof.
  intros Hne. unfold receive_props, run_effects, flowNodes. simpl.
  rewrite (proj2 (restyle_nodes_positions _ _ _ _)).
  destruct (graphNodes p) as [|n ns] eqn:Hns; [done|].
  rewrite <- Hns. clear Hne Hns n ns.
  destruct (calculateLayout _) as [cols spacing]. simpl.
  apply list_eq. intros k.
  rewrite !list_lookup_fmap, list_lookup_imap.
  by destruct (graphNodes p !! k).
Qed.

(** X8. New graph data with at least one node replace the node list: it
    then has exactly the ids of the data, in order.  Empty graph data
    leave the node list as it was (the effect returns before [setNodes]),
    and a view mounted on empty data has no node. *)
Theorem empty_graph_data_keep_the_nodes (s : State) (n : GraphNode)
    (ns : list GraphNode) (es : list GraphEdge) :
  node_id <$> GraphView.nodes (receive_props {| graphNodes := n :: ns; graphEdges := es |} s)
    = id <$> (n :: ns)
  ∧ GraphView.nodes (receive_props {| graphNodes := []; graphEdges := es |} s)
    = GraphView.nodes s
  ∧ GraphView.nodes (mount {| graphNodes := []; graphEdges := es |}) = [].
Proof.
  split; [|split].
  - by apply (receive_props_ids {| graphNodes := n :: ns; graphEdges := es |}).
  - unfold receive_props, run_effects, flowNodes, restyle_nodes.
    cbn [GraphView.nodes props graphNodes default].
    etrans; [|apply list_fmap_id].
    apply list_fmap_ext. intros ? node _. done.
  - done.
Qed.

(** ** App.tsx: what a turn and a clear always do *)

(** X9. [handleSendMessage] never throws.  With a case selected it sends
    the chat request first, appends the user's message and after it
    exactly one assistant message, and ends with [isLoading] false,
    whatever the server answers; with no case selected, or with the case
    id 0, it changes nothing in the state and asks the server nothing. *)
Theorem every_turn_gets_one_reply {E} (net : Net E) (selectedCaseId : option Z)
    (message : jsstring) (fileContent : option jsstring) (w : World E) :
  ∃ w',
    handleSendMessage net selectedCaseId message fileContent w = (Return (), w')
    ∧ match truthy_number selectedCaseId with
      | Some caseId =>
          (∃ reply,
             messages (app w') =
               messages (app w)
                 ++ [ {| role := lit "user"; content := message |};
                      {| role := lit "assistant"; content := reply |} ])
          ∧ isLoading (app w') = false
          ∧ head (new_events w w') = Some (Requested (ChatReq caseId message fileContent))
      | None =>
          app w' = app w ∧ env w' = env w
          ∧ new_events w w' = [Alerted (lit "Please select or create a case first")]
      end.
Proof.
  destruct (truthy_number selectedCaseId) as [caseId|] eqn:Hsel.
  - destruct (sendMessage net caseId message fileContent (env w))
      as [[response|e] e1] eqn:Hsend.
    + eexists. split; [by eapply handleSendMessage_return|]. simpl.
      destruct (graph_updated response);
        [destruct (getGraph net caseId e1) as [[data|?] e2]|]; simpl;
        (split; [by eexists|]); (split; [done|]);
        (erewrite new_events_app; [|simpl; rewrite <- ?app_assoc; reflexivity]); done.
    + eexists. split; [by eapply handleSendMessage_throw|]. simpl.
      split; [eexists; by rewrite <- app_assoc|]. split; [done|].
      erewrite new_events_app; [|simpl; rewrite <- ?app_assoc; reflexivity]. done.
  - unfold handleSendMessage. rewrite Hsel. js_unfold. simpl.
    eexists. split; [reflexivity|]. simpl. repeat split.
    by apply new_events_app.
Qed.

Import AppRelations.

Lemma loadGraph_whole {E} (net : Net E) selectedCaseId (w : World E) :
  ∃ w', loadGraph net selectedCaseId w = (Return (), w')
        ∧ messages (app w') = messages (app w)
        ∧ graph_stays_whole net w w'.
Proof.
  unfold loadGraph. destruct (truthy_number selectedCaseId) as [caseId|].
  - unfold call, try_catch, mbind, M_bind, bind.
    destruct (getGraph net caseId (env w)) as [[data|?] e1] eqn:Hgraph; simpl.
    + eexists. split; [reflexivity|]. split; [done|].
      right; right. by exists caseId, (env w), data, e1.
    + eexists. split; [reflexivity|]. split; [done|]. by left.
  - eexists. split; [reflexivity|]. split; [done|]. by left.
Qed.

Lemma graph_stays_whole_trans {E} (net : Net E) (w w1 w2 : World E) :
  (App.graphNodes (app w1), App.graphEdges (app w1))
    = (App.graphNodes (app w), App.graphEdges (app w))
  ∨ (App.graphNodes (app w1), App.graphEdges (app w1)) = ([], []) →
  graph_stays_whole net w1 w2 → graph_stays_whole net w w2.
Proof.
  unfold graph_stays_whole. intros [Hw|Hw] [H|[H|H]]; rewrite ?Hw in H; auto.
Qed.

Lemma loadCaseData_whole {E} (net : Net E) selectedCaseId caseId (w : World E) :
  ∃ w', loadCaseData net selectedCaseId caseId w = (Return (), w')
        ∧ graph_stays_whole net w w'.
Proof.
  unfold loadCaseData, call, try_catch, mbind, M_bind, bind.
  destruct (getCase net caseId (env w)) as [[detail|?] e1] eqn:Hcase; simpl.
  - match goal with
    | |- context [loadGraph net selectedCaseId ?w1] =>
        destruct (loadGraph_whole net selectedCaseId w1) as (w2 & Hrun & _ & Hwhole);
        rewrite Hrun
    end.
    eexists. split; [reflexivity|].
    eapply graph_stays_whole_trans; [|exact Hwhole]. by left.
  - eexists. split; [reflexivity|]. by left.
Qed.

(** X10. Neither a chat turn nor a clear ever shows the nodes of one
    reply with the edges of another: after [handleSendMessage] and after
    [handleClearMemory] the nodes and edges on screen are the ones
    before, or none, or the nodes and edges of one [getGraph] reply; and
    [handleClearMemory] never throws either. *)
Theorem handlers_keep_the_graph_whole {E} (net : Net E)
    (selectedCaseId : option Z) (message : jsstring)
    (fileContent : option jsstring) (w : World E) :
  graph_stays_whole net w
    (handleSendMessage net selectedCaseId message fileContent w).2
  ∧ (handleClearMemory net selectedCaseId w).1 = Return ()
  ∧ graph_stays_whole net w (handleClearMemory net selectedCaseId w).2.
Proof.
  split; [|].
  - destruct (truthy_number selectedCaseId) as [caseId|] eqn:Hsel.
    + destruct (sendMessage net caseId message fileContent (env w))
        as [[response|e] e1] eqn:Hsend.
      * erewrite handleSendMessage_return by done. simpl.
        destruct (graph_updated response); [|by left].
        destruct (getGraph net caseId e1) as [[data|?] e2] eqn:Hgraph; [|by left].
        right; right. by exists caseId, e1, data, e2.
      * erewrite handleSendMessage_throw by done. by left.
    + unfold handleSendMessage. rewrite Hsel. by left.
  - unfold handleClearMemory.
    destruct (truthy_number selectedCaseId) as [caseId|] eqn:Hsel; [|split; [done|by left]].
    unfold call, try_catch, mbind, M_bind, bind.
    destruct (clearGraph net caseId (env w)) as [[r|?] e1] eqn:Hclear; simpl;
      [|split; [done|by left]].
    match goal with
    | |- context [loadCaseData net selectedCaseId caseId ?w1] =>
        destruct (loadCaseData_whole net selectedCaseId caseId w1)
          as (w2 & Hrun & Hwhole);
        rewrite Hrun
    end.
    simpl. split; [done|].
    eapply graph_stays_whole_trans; [|exact Hwhole]. by right.
Qed.

(** X11. [loadCaseData] never throws.  When [getCase] returns, the
    messages on screen become the stored messages of the case, with
    their roles and contents in order; when it throws, nothing on screen
    changes and the graph is not asked for. *)
Theorem loadCaseData_shows_the_transcript {E} (net : Net E)
    (selectedCaseId : option Z) (caseId : Z) (w : World E) :
  ∃ w',
    loadCaseData net selectedCaseId caseId w = (Return (), w')
    ∧ match getCase net caseId (env w) with
      | (Return detail, _) =>
          messages (app w') =
            (λ m, {| role := msg_role m; content := msg_content m |})
              <$> case_messages detail
      | (Throw _, e1) =>
          app w' = app w ∧ env w' = e1
          ∧ new_events w w' = [ Requested (CaseReq caseId);
                                ConsoleError (lit "Failed to load case data:") ]
      end.
Proof.
  unfold loadCaseData, call, try_catch, mbind, M_bind, bind.
  destruct (getCase net caseId (env w)) as [[detail|?] e1] eqn:Hcase; simpl.
  - match goal with
    | |- context [loadGraph net selectedCaseId ?w1] =>
        destruct (loadGraph_whole net selectedCaseId w1) as (w2 & Hrun & Hmsg & _);
        rewrite Hrun
    end.
    eexists. split; [reflexivity|]. by rewrite Hmsg.
  - eexists. split; [reflexivity|]. simpl. repeat split.
    apply new_events_app. simpl. by rewrite <- app_assoc.
Qed.

(** ** Trimmed text *)

Lemma trimStart_idemp s : trimStart (trimStart s) = trimStart s.
Proof.
  induction s as [|c s IH]; simpl; [done|].
  destruct (is_white_space c) eqn:Hc; [done|]. simpl. by rewrite Hc.
Qed.

Lemma trimStart_snoc s c :
  is_white_space c = false → trimStart (s ++ [c]) = trimStart s ++ [c].
Proof.
  intros Hc. induction s as [|d s IH]; simpl; [by rewrite Hc|].
  by destruct (is_white_space d).
Qed.

Lemma trimEnd_idemp s : trimEnd (trimEnd s) = trimEnd s.
Proof. unfold trimEnd. by rewrite reverse_involutive, trimStart_idemp. Qed.

Lemma trimEnd_cons c s :
  is_white_space c = false → trimEnd (c :: s) = c :: trimEnd s.
Proof.
  intros Hc. unfold trimEnd.
  rewrite reverse_cons, trimStart_snoc, reverse_app by done.
  by rewrite reverse_singleton.
Qed.

(** What [trim] gives: nothing, or text that starts with a character that
    is not white space and is followed by an end-trimmed rest. *)
Lemma trim_shape s :
  trim s = []
  ∨ ∃ c r, is_white_space c = false ∧ trimStart s = c :: r ∧ trim s = c :: trimEnd r.
Proof.
  unfold trim.
  assert (trimStart s = [] ∨ ∃ c r, is_white_space c = false ∧ trimStart s = c :: r)
    as [->|(c & r & Hc & ->)].
  { induction s as [|d s IH]; simpl; [by left|].
    destruct (is_white_space d) eqn:Hd; [done|]. right. by exists d, s. }
  - by left.
  - right. exists c, r. by rewrite trimEnd_cons.
Qed.

Lemma trim_idemp s : trim (trim s) = trim s.
Proof.
  destruct (trim_shape s) as [->|(c & r & Hc & _ & ->)]; [done|].
  unfold trim at 1. simpl. rewrite Hc.
  by rewrite trimEnd_cons, trimEnd_idemp.
Qed.

Lemma trim_starts_with_text c s :
  is_white_space c = false → trim (c :: s) = c :: trimEnd s.
Proof. intros Hc. unfold trim. simpl. rewrite Hc. by apply trimEnd_cons. Qed.

Lemma lit_cons a s : lit (String a s) = Ascii.N_of_ascii a :: lit s.
Proof. done. Qed.

(** ** Chat.tsx: what a submit does *)

Import ChatFiles.

(** X12. A submit that passes the guard with no file chosen calls
    [onSendMessage] exactly once, with the input as it is (not trimmed)
    and no file content, and then empties the input. *)
Theorem submit_without_file_sends_the_input {E} (net : Net E)
    (onSendMessage : jsstring → option jsstring → M (World E) unit)
    (input : jsstring) (w : ChatWorld E) :
  trim input ≠ [] →
  (onSendMessage input None (parent w)).1 = Return () →
  handleSubmit net onSendMessage false input None w =
    (Return (),
     {| cstate := {| Chat.input := []; selectedFile := None |};
        parent := (onSendMessage input None (parent w)).2;
        sent := sent w ++ [(input, None)] |}).
Proof.
  intros Htrim Hsend. unfold handleSubmit.
  destruct (trim input) eqn:Ht; [done|]. simpl.
  chat_unfold. simpl.
  destruct (onSendMessage input None (parent w)) as [o p']. simpl in *. by subst o.
Qed.

(** The text the input shows while a file is uploaded. *)
Lemma upload_failure_run {E} (net : Net E) file (w : ChatWorld E) e e1 :
  uploadFile net file (env (parent w)) = (Throw e, e1) →
  upload_selected net file w =
    (Return None,
     {| cstate := {| Chat.input := [0xF0; 0x178; 0x201C; 0x201E]%N ++ lit " Uploading and processing "
                                     ++ file_name file ++ lit "...";
                     selectedFile := None |};
        parent := {| app := app (parent w); env := e1;
                     trace := trace (parent w)
                       ++ [ Requested (UploadReq file);
                            ConsoleError (lit "File upload failed:");
                            Alerted (lit "Failed to process file. Please try again.") ] |};
        sent := sent w |}).
Proof.
  intros Hup. unfold upload_selected, in_parent, setInput, setSelectedFile,
    call, console_error, alert, emit, try_catch, modify, mbind, M_bind, bind, mret, M_ret, ret.
  simpl. rewrite Hup. simpl. by rewrite <- !app_assoc.
Qed.

(** X13. When the upload of the chosen file fails, the submit sends
    nothing: [onSendMessage] is not called, the user gets an alert, the
    file is dropped, and the input is left showing the uploading
    notice. *)
Theorem failed_upload_sends_nothing {E} (net : Net E)
    (onSendMessage : jsstring → option jsstring → M (World E) unit)
    (input : jsstring) (file : File) (w : ChatWorld E) (e : JsError) :
  trim input ≠ [] →
  (uploadFile net file (env (parent w))).1 = Throw e →
  ∃ w',
    handleSubmit net onSendMessage false input (Some file) w = (Return (), w')
    ∧ sent w' = sent w
    ∧ app (parent w') = app (parent w)
    ∧ selectedFile (cstate w') = None
    ∧ Chat.input (cstate w') =
        [0xF0; 0x178; 0x201C; 0x201E]%N ++ lit " Uploading and processing "
          ++ file_name file ++ lit "..."
    ∧ new_events (parent w) (parent w') =
        [ Requested (UploadReq file);
          ConsoleError (lit "File upload failed:");
          Alerted (lit "Failed to process file. Please try again.") ].
Proof.
  intros Htrim Hup. unfold handleSubmit.
  destruct (trim input) eqn:Ht; [done|]. simpl.
  destruct (uploadFile net file (env (parent w))) as [o e1] eqn:Hrun.
  simpl in Hup. subst o.
  unfold mbind, M_bind, bind. erewrite upload_failure_run by done.
  eexists. split; [reflexivity|]. simpl. repeat split.
  by apply new_events_app.
Qed.

(** X14. When the upload of the chosen file succeeds, [onSendMessage] is
    called exactly once, with the input the user submitted (not the
    preview text written into the input meanwhile) and the text of the
    file; the input is empty and the file dropped afterwards. *)
Theorem upload_then_send {E} (net : Net E)
    (onSendMessage : jsstring → option jsstring → M (World E) unit)
    (input : jsstring) (file : File) (w : ChatWorld E) (text : jsstring)
    (e1 : E) :
  trim input ≠ [] →
  uploadFile net file (env (parent w)) = (Return text, e1) →
  let p1 := {| app := app (parent w); env := e1;
               trace := trace (parent w) ++ [Requested (UploadReq file)] |} in
  (onSendMessage input (Some text) p1).1 = Return () →
  handleSubmit net onSendMessage false input (Some file) w =
    (Return (),
     {| cstate := {| Chat.input := []; selectedFile := None |};
        parent := (onSendMessage input (Some text) p1).2;
        sent := sent w ++ [(input, Some text)] |}).
Proof.
  intros Htrim Hup p1 Hsend. unfold handleSubmit.
  destruct (trim input) eqn:Ht; [done|]. simpl.
  unfold upload_selected, call_onSendMessage, in_parent, setInput, setSelectedFile,
    call, try_catch, modify, mbind, M_bind, bind, mret, M_ret, ret.
  simpl. rewrite Hup. simpl. fold p1.
  destruct (onSendMessage input (Some text) p1) as [o p']. simpl in *. by subst o.
Qed.

Lemma placeholder_shape (file : File) :
  ∃ before after,
    placeholder file = 73%N :: before ++ file_name file ++ after.
Proof.
  unfold placeholder.
  repeat match goal with
         | |- context [if ?b then _ else _] => destruct b
         end;
    rewrite lit_cons, <- app_comm_cons;
    change (Ascii.N_of_ascii _) with 73%N;
    eexists (_ ++ quote), _; rewrite <- app_assoc; reflexivity.
Qed.

(** X15. Choosing a file stores it and writes a message that contains
    the file's name and is not blank, so that the submit button is
    enabled when no request is running; a submit made then (with the
    App's handler as [onSendMessage]) starts by uploading that file.
    Closing the file dialog without a file changes nothing. *)
Theorem chosen_file_can_be_sent {E} (net : Net E) (selectedCaseId : option Z)
    (file : File) (w : ChatWorld E) :
  let w1 := (handleFileSelect (Some file) w).2 in
  selectedFile (cstate w1) = Some file
  ∧ (∃ before after, Chat.input (cstate w1) = before ++ file_name file ++ after)
  ∧ send_button_disabled false (Chat.input (cstate w1)) = false
  ∧ head (new_events (parent w1)
            (parent (submit net (handleSendMessage net selectedCaseId) false w1).2))
      = Some (Requested (UploadReq file))
  ∧ handleFileSelect None w = (Return (), w).
Proof.
  intros w1. subst w1. unfold handleFileSelect, setSelectedFile, setInput,
    modify, mbind, M_bind, bind. simpl.
  destruct (placeholder_shape file) as (before & after & Hshape).
  assert (Htrim : trim (placeholder file) ≠ []).
  { rewrite Hshape, trim_starts_with_text; done. }
  split; [done|]. split.
  { exists (73%N :: before), after. by rewrite Hshape. }
  split.
  { unfold send_button_disabled. simpl. by destruct (trim (placeholder file)). }
  split; [|done].
  unfold submit, handleSubmit. simpl.
  destruct (trim (placeholder file)) eqn:Ht; [done|]. simpl.
  unfold upload_selected, call_onSendMessage, in_parent, setInput, setSelectedFile,
    call, console_error, alert, emit, try_catch, modify, mbind, M_bind, bind, mret, M_ret, ret.
  simpl.
  destruct (uploadFile net file (env (parent w))) as [[text|?] e1]; simpl.
  - match goal with
    | |- context [handleSendMessage net selectedCaseId ?m ?fc ?p1] =>
        destruct (handleSendMessage_requests net selectedCaseId m fc p1)
          as (evs & Htrace & _);
        destruct (handleSendMessage net selectedCaseId m fc p1) as [[[]|?] p']
    end; simpl in *; unfold new_events; simpl;
      rewrite Htrace, <- !app_assoc, drop_app_length; done.
  - unfold new_events. simpl. rewrite <- !app_assoc, drop_app_length. done.
Qed.

(** ** Sidebar.tsx: what the sidebar asks of the App *)

Import SidebarCases.

Lemma acts_snoc actions a s :
  acts (actions ++ [a]) s =
    ((act (acts actions s).1 a).1, (acts actions s).2 ++ (act (acts actions s).1 a).2).
Proof.
  unfold acts. rewrite foldl_app. simpl.
  by destruct (act _ a).
Qed.

Lemma handleCreateCase_calls s :
  Forall (λ call, ∃ t, call = OnCreateCase t ∧ t ≠ [] ∧ trim t = t)
         (SidebarCases.handleCreateCase s).2.
Proof.
  unfold SidebarCases.handleCreateCase.
  destruct (trim (newCaseTitle s)) as [|c r] eqn:Ht; simpl; [done|].
  apply Forall_singleton. exists (c :: r). split; [done|]. split; [done|].
  by rewrite <- Ht, trim_idemp.
Qed.

Lemma act_creates s a :
  Forall (λ call, match call with
                  | OnCreateCase t => t ≠ [] ∧ trim t = t
                  | OnDeleteCase _ => True
                  end) (act s a).2.
Proof.
  assert (Hcreate : Forall (λ call, match call with
                                    | OnCreateCase t => t ≠ [] ∧ trim t = t
                                    | OnDeleteCase _ => True
                                    end) (SidebarCases.handleCreateCase s).2).
  { eapply Forall_impl; [apply handleCreateCase_calls|].
    by intros call (t & -> & Ht). }
  destruct a; simpl; try done.
  - by destruct (showNewCase s).
  - destruct (showNewCase s); [|done].
    case_bool_decide; [|by case_bool_decide].
    destruct (SidebarCases.handleCreateCase s) as [s1 calls].
    by case_bool_decide.
  - by destruct (showNewCase s).
  - by destruct (showNewCase s).
  - unfold confirmDeleteCase. case_bool_decide; [|done].
    destruct (truthy_number (deletingCaseId s)); simpl; [|done].
    by apply Forall_singleton.
  - by case_bool_decide.
Qed.

(** X16. Whatever the user does in the Cases section, every title the
    sidebar passes to [onCreateCase] is not empty and is trimmed (it has
    no white space at either end): a blank title creates no case. *)
Theorem created_titles_are_trimmed (actions : list Action) (s : CasesPanel) :
  Forall (λ call, match call with
                  | OnCreateCase t => t ≠ [] ∧ trim t = t
                  | OnDeleteCase _ => True
                  end) (acts actions s).2.
Proof.
  induction actions as [|a actions IH] using rev_ind; [by apply Forall_nil|].
  rewrite acts_snoc. simpl. apply Forall_app. split; [done|]. apply act_creates.
Qed.

Lemma act_deleting s a c :
  deletingCaseId (act s a).1 = Some c →
  a = ClickDeleteOf c ∨ deletingCaseId s = Some c.
Proof.
  destruct a; simpl; try (by right).
  - destruct (showNewCase s); by right.
  - destruct (showNewCase s); [|by right].
    destruct (bool_decide (key = lit "Enter")).
    + unfold SidebarCases.handleCreateCase.
      destruct (truthy_string _); destruct (bool_decide (key = lit "Escape")); by right.
    + destruct (bool_decide (key = lit "Escape")); by right.
  - destruct (showNewCase s); [|by right].
    unfold SidebarCases.handleCreateCase. destruct (truthy_string _); by right.
  - destruct (showNewCase s); by right.
  - intros [= ->]. by left.
  - case_bool_decide; [|by right]. unfold confirmDeleteCase.
    destruct (truthy_number (deletingCaseId s)); [done|by right].
  - case_bool_decide; [done|by right].
Qed.

Lemma act_deletes s a c :
  OnDeleteCase c ∈ (act s a).2 → c ≠ 0 ∧ deletingCaseId s = Some c.
Proof.
  destruct a; simpl; try (by intros ?%elem_of_nil).
  - destruct (showNewCase s); by intros ?%elem_of_nil.
  - destruct (showNewCase s); [|by intros ?%elem_of_nil].
    pose proof (handleCreateCase_calls s) as Hc.
    destruct (bool_decide (key = lit "Enter")).
    + destruct (SidebarCases.handleCreateCase s) as [s1 calls]. simpl in Hc.
      intros Hin.
      assert (OnDeleteCase c ∈ calls) as Hin'
        by (by destruct (bool_decide (key = lit "Escape"))).
      by destruct (proj1 (Forall_forall _ _) Hc _ Hin') as (t & ? & _).
    + destruct (bool_decide (key = lit "Escape")); by intros ?%elem_of_nil.
  - destruct (showNewCase s); [|by intros ?%elem_of_nil].
    pose proof (handleCreateCase_calls s) as Hc. intros Hin.
    by destruct (proj1 (Forall_forall _ _) Hc _ Hin) as (t & ? & _).
  - destruct (showNewCase s); by intros ?%elem_of_nil.
  - case_bool_decide; [|by intros ?%elem_of_nil]. unfold confirmDeleteCase.
    unfold truthy_number.
    destruct (deletingCaseId s) as [d|]; [|by intros ?%elem_of_nil].
    case_decide; [by intros ?%elem_of_nil|].
    simpl. intros Hin. apply list_elem_of_singleton in Hin. by simplify_eq.
  - case_bool_decide; by intros ?%elem_of_nil.
Qed.

(** X17. A case is deleted only on confirmation: whatever the user does
    in the Cases section, every id the sidebar passes to [onDeleteCase]
    is the id of a case whose delete button was clicked before (or that
    was awaiting confirmation at the start), and it is never 0. *)
Theorem deletes_are_confirmed (actions : list Action) (s : CasesPanel) :
  Forall (λ call, match call with
                  | OnDeleteCase c =>
                      c ≠ 0 ∧ (ClickDeleteOf c ∈ actions ∨ deletingCaseId s = Some c)
                  | OnCreateCase _ => True
                  end) (acts actions s).2.
Proof.
  cut (Forall (λ call, match call with
                       | OnDeleteCase c =>
                           c ≠ 0 ∧ (ClickDeleteOf c ∈ actions ∨ deletingCaseId s = Some c)
                       | OnCreateCase _ => True
                       end) (acts actions s).2
       ∧ ∀ c, deletingCaseId (acts actions s).1 = Some c →
              ClickDeleteOf c ∈ actions ∨ deletingCaseId s = Some c).
  { by intros [H _]. }
  induction actions as [|a actions [IHcalls IHstate]] using rev_ind.
  - split; [by apply Forall_nil|]. intros c Hc. by right.
  - rewrite acts_snoc. simpl. split.
    + apply Forall_app. split.
      * eapply Forall_impl; [exact IHcalls|]. intros [t|c]; [done|].
        intros [Hc [Hin|Hs]]; (split; [done|]); [left|by right].
        apply elem_of_app. by left.
      * apply Forall_forall. intros [t|c] Hin; [done|].
        apply act_deletes in Hin as [Hc Hd]. split; [done|].
        destruct (IHstate c Hd) as [Hin|Hs]; [left|by right].
        apply elem_of_app. by left.
    + intros c Hc. apply act_deleting in Hc as [->|Hc].
      * left. apply elem_of_app. right. by left.
      * destruct (IHstate c Hc) as [Hin|Hs]; [left|by right].
        apply elem_of_app. by left.
Qed.

Lemma clicks_potential sel cs s n :
  let run := foldl (λ acc c, let '(s1, called) := Sidebar.click sel c acc.1 in
                             (s1, if called then S acc.2 else acc.2)) (s, n) cs in
  (run.2 + (if Sidebar.showConfirm run.1 then 1 else 0)
   ≤ n + (if Sidebar.showConfirm s then 1 else 0)
     + length (List.filter (λ c, match c with
                                 | Sidebar.ClickClearCaseMemory => true
                                 | _ => false
                                 end) cs))%nat
  ∧ (truthy_number sel = None → Sidebar.showConfirm s = false →
     run.2 = n ∧ Sidebar.showConfirm run.1 = false).
Proof.
  revert s n. induction cs as [|c cs IH]; intros s n; simpl.
  - split; [lia|done].
  - destruct (Sidebar.click sel c s) as [s1 called] eqn:Hclick.
    specialize (IH s1 (if called then S n else n)). simpl in IH.
    destruct IH as [IHle IHnone].
    assert (Hstep :
      ((if called then S n else n) + (if Sidebar.showConfirm s1 then 1 else 0)
       ≤ n + (if Sidebar.showConfirm s then 1 else 0)
         + (match c with Sidebar.ClickClearCaseMemory => 1 | _ => 0 end))%nat
      ∧ (truthy_number sel = None → Sidebar.showConfirm s = false →
         called = false ∧ Sidebar.showConfirm s1 = false)).
    { unfold Sidebar.click, Sidebar.actions in Hclick.
      destruct (Sidebar.isCollapsed s) eqn:Hcol, (Sidebar.showConfirm s) eqn:Hconf,
        (truthy_number sel) eqn:Hsel, c; simpl in Hclick; simplify_eq; simpl;
        rewrite ?Hconf; (split; [lia|]); try done; by intros. }
    destruct Hstep as [Hle Hnone]. split.
    + destruct c; simpl in *; lia.
    + intros Hsel Hconf. destruct (Hnone Hsel Hconf) as [-> Hs1].
      by apply IHnone.
Qed.

(** X18. Clearing the case memory takes two clicks: over any sequence of
    clicks in the Actions panel, [onClearMemory] is called at most once
    for every click on Clear Case Memory (plus one if the confirmation
    was already showing); and while no case is selected and no
    confirmation is showing, no sequence of clicks calls it at all. *)
Theorem clear_memory_needs_confirmation (selectedCaseId : option Z)
    (cs : list Sidebar.Click) (s : Sidebar.SidebarState) :
  ((clicks selectedCaseId cs s).2
   ≤ (if Sidebar.showConfirm s then 1 else 0)
     + length (List.filter (λ c, match c with
                                 | Sidebar.ClickClearCaseMemory => true
                                 | _ => false
                                 end) cs))%nat
  ∧ (truthy_number selectedCaseId = None → Sidebar.showConfirm s = false →
     (clicks selectedCaseId cs s).2 = 0%nat).
Proof.
  destruct (clicks_potential selectedCaseId cs s 0) as [Hle Hnone].
  unfold clicks. split.
  - simpl in Hle. lia.
  - intros Hsel Hconf. by destruct (Hnone Hsel Hconf).
Qed.

(** ** App.tsx: the cases *)

Import Cases CaseSession.

Lemma in_app_same {E} (c : M (World E) unit) (w : CaseWorld E) i' :
  c (inner w) = (Return (), i') →
  cases (app i') = cases (app (inner w)) →
  ∃ w', in_app c w = (Return (), w') ∧ same_selection w w' ∧ inner w' = i'.
Proof.
  intros Hrun Hcases. unfold in_app. rewrite Hrun.
  eexists. split; [reflexivity|]. by repeat split.
Qed.

Lemma loadGraph_cases {E} (net : Net E) sel (w : World E) :
  ∃ w', loadGraph net sel w = (Return (), w') ∧ cases (app w') = cases (app w).
Proof.
  unfold loadGraph. destruct (truthy_number sel) as [caseId|].
  - unfold call, try_catch, mbind, M_bind, bind.
    destruct (getGraph net caseId (env w)) as [[data|?] e1]; simpl;
      eexists; (split; [reflexivity|]); done.
  - eexists. split; [reflexivity|]. done.
Qed.

Lemma loadCaseData_cases {E} (net : Net E) sel caseId (w : World E) :
  ∃ w', loadCaseData net sel caseId w = (Return (), w')
        ∧ cases (app w') = cases (app w).
Proof.
  unfold loadCaseData, call, try_catch, mbind, M_bind, bind.
  destruct (getCase net caseId (env w)) as [[detail|?] e1]; simpl.
  - match goal with
    | |- context [loadGraph net sel ?w1] =>
        destruct (loadGraph_cases net sel w1) as (w2 & -> & Hc)
    end.
    eexists. split; [reflexivity|]. by rewrite Hc.
  - eexists. split; [reflexivity|]. done.
Qed.

Lemma handleClearMemory_cases {E} (net : Net E) sel (w : World E) :
  ∃ w', handleClearMemory net sel w = (Return (), w')
        ∧ cases (app w') = cases (app w).
Proof.
  unfold handleClearMemory. destruct (truthy_number sel) as [caseId|].
  - unfold call, try_catch, mbind, M_bind, bind.
    destruct (clearGraph net caseId (env w)) as [[r|?] e1]; simpl.
    + match goal with
      | |- context [loadCaseData net sel caseId ?w1] =>
          destruct (loadCaseData_cases net sel caseId w1) as (w2 & -> & Hc)
      end.
      eexists. split; [reflexivity|]. by rewrite Hc.
    + eexists. split; [reflexivity|]. done.
  - eexists. split; [reflexivity|]. done.
Qed.

Lemma handleSendMessage_cases {E} (net : Net E) sel message fileContent
    (w : World E) :
  ∃ w', handleSendMessage net sel message fileContent w = (Return (), w')
        ∧ cases (app w') = cases (app w).
Proof.
  destruct (truthy_number sel) as [caseId|] eqn:Hsel.
  - destruct (sendMessage net caseId message fileContent (env w))
      as [[response|e] e1] eqn:Hsend.
    + unfold handleSendMessage. rewrite Hsel.
      unfold try_catch_finally, try_finally, try_catch, call, setMessages,
        setIsLoading, set_app, modify, mbind, M_bind, bind. simpl.
      rewrite Hsend. simpl. destruct (graph_updated response).
      * match goal with
        | |- context [loadGraph net sel ?w1] =>
            destruct (loadGraph_cases net sel w1) as (w2 & -> & Hc)
        end.
        eexists. split; [reflexivity|]. by rewrite Hc.
      * eexists. split; [reflexivity|]. done.
    + unfold handleSendMessage. rewrite Hsel.
      unfold try_catch_finally, try_finally, try_catch, call, setMessages,
        setIsLoading, console_error, emit, set_app, modify, mbind, M_bind, bind.
      simpl. rewrite Hsend. simpl.
      eexists. split; [reflexivity|]. done.
  - unfold handleSendMessage. rewrite Hsel.
    eexists. split; [reflexivity|]. done.
Qed.

Lemma selection_effect_same {E} (net : Net E) sel (w : CaseWorld E) :
  ∃ w', selection_effect net sel w = (Return (), w') ∧ same_selection w w'.
Proof.
  unfold selection_effect. destruct (truthy_number sel) as [caseId|].
  - destruct (loadCaseData_cases net sel caseId (inner w)) as (i' & Hrun & Hc).
    destruct (in_app_same _ w i' Hrun Hc) as (w' & -> & Hsame & _). eauto.
  - eexists. split; [reflexivity|]. by split.
Qed.

Lemma tab_effect_same {E} (net : Net E) sel tab (w : CaseWorld E) :
  ∃ w', tab_effect net sel tab w = (Return (), w') ∧ same_selection w w'.
Proof.
  unfold tab_effect. destruct tab, (truthy_number sel) as [caseId|];
    try (eexists; split; [reflexivity|]; by split).
  destruct (loadGraph_cases net sel (inner w)) as (i' & Hrun & Hc).
  destruct (in_app_same _ w i' Hrun Hc) as (w' & -> & Hsame & _). eauto.
Qed.

Lemma same_selection_trans {E} (w1 w2 w3 : CaseWorld E) :
  same_selection w1 w2 → same_selection w2 w3 → same_selection w1 w3.
Proof. unfold same_selection. intros [-> ->] [-> ->]. done. Qed.

Lemma same_selection_listed {E} (w w' : CaseWorld E) :
  same_selection w w' → selection_listed w → selection_listed w'.
Proof. unfold same_selection, selection_listed. intros [-> ->]. done. Qed.

Lemma with_effects_run {E} (net : Net E) handler (w w1 : CaseWorld E) :
  handler (selectedCaseId w) (cases (app (inner w))) (activeTab (app (inner w))) w
    = (Return (), w1) →
  ∃ w', with_effects net handler w = (Return (), w') ∧ same_selection w1 w'.
Proof.
  intros Hrun. unfold with_effects. rewrite Hrun.
  destruct (bool_decide (selectedCaseId w1 = selectedCaseId w)); simpl.
  - destruct (bool_decide (activeTab (app (inner w1)) = activeTab (app (inner w)))).
    + eexists. split; [reflexivity|]. by split.
    + apply tab_effect_same.
  - destruct (selection_effect_same net (selectedCaseId w1) w1) as (w2 & -> & H12).
    destruct (tab_effect_same net (selectedCaseId w1)
                (activeTab (app (inner w1))) w2) as (w3 & -> & H23).
    eexists. split; [reflexivity|]. by eapply same_selection_trans.
Qed.

Lemma filter_others_ids (caseId c : Z) (cs : list Case) :
  c ≠ caseId → c ∈ case_id <$> cs →
  c ∈ case_id <$> List.filter (λ k, negb (bool_decide (case_id k = caseId))) cs.
Proof.
  intros Hne (k & -> & Hin)%list_elem_of_fmap.
  apply list_elem_of_fmap. exists k. split; [done|].
  apply list_elem_of_In, filter_In. split; [by apply list_elem_of_In|].
  by rewrite bool_decide_eq_false_2.
Qed.

Lemma filter_others_Forall (caseId : Z) (cs : list Case) :
  Forall (λ k, case_id k ≠ caseId)
         (List.filter (λ k, negb (bool_decide (case_id k = caseId))) cs).
Proof.
  apply Forall_forall. intros k [_ Hk]%list_elem_of_In%filter_In.
  by apply negb_true_iff, bool_decide_eq_false in Hk.
Qed.

Lemma head_filter_others (caseId c : Z) (cs : list Case) :
  case_id <$> head (List.filter (λ k, negb (bool_decide (case_id k = caseId))) cs)
    = Some c →
  c ≠ caseId
  ∧ c ∈ case_id <$> List.filter (λ k, negb (bool_decide (case_id k = caseId))) cs.
Proof.
  pose proof (filter_others_Forall caseId cs) as Hall.
  destruct (List.filter _ cs) as [|k rest]; [done|]. simpl. intros [= <-].
  split; [by inversion Hall|]. by left.
Qed.

(** X19. Deleting a case: [handleDeleteCase] never throws and asks the
    server once. When the server accepts, no listed case has the deleted
    id any more, the deleted case is not the selected one, a selection
    of another case is kept, and nothing is logged. When the request
    fails, the list and the selection are as before and the failure is
    logged on the console. *)
Theorem delete_removes_the_case {E} (cnet : CaseNet E) (caseId : Z)
    (w : CaseWorld E) :
  let run := Cases.handleDeleteCase cnet (selectedCaseId w)
               (cases (app (inner w))) caseId w in
  run.1 = Return ()
  ∧ asked run.2 = asked w ++ [DeleteReq caseId]
  ∧ match deleteCase cnet caseId (env (inner w)) with
    | (Return _, _) =>
        Forall (λ k, case_id k ≠ caseId) (cases (app (inner run.2)))
        ∧ selectedCaseId run.2 ≠ Some caseId
        ∧ (selectedCaseId w ≠ Some caseId → selectedCaseId run.2 = selectedCaseId w)
        ∧ new_events (inner w) (inner run.2) = []
    | (Throw _, _) =>
        app (inner run.2) = app (inner w)
        ∧ selectedCaseId run.2 = selectedCaseId w
        ∧ new_events (inner w) (inner run.2)
          = [ConsoleError (lit "Failed to delete case:")]
    end.
Proof.
  unfold Cases.handleDeleteCase, call_case, try_catch, mbind, M_bind, bind.
  destruct (deleteCase cnet caseId (env (inner w))) as [[[]|err] e1]; simpl.
  - unfold new_events.
    destruct (bool_decide (selectedCaseId w = Some caseId)) eqn:Hsel; simpl.
    + repeat split; try done.
      * apply filter_others_Forall.
      * intros Hc. destruct (bool_decide (0 < _)%nat) in Hc; [|done].
        by apply head_filter_others in Hc as [? _].
      * intros Hne. by apply bool_decide_eq_true in Hsel.
      * by rewrite drop_all.
    + apply bool_decide_eq_false in Hsel. repeat split; try done.
      * apply filter_others_Forall.
      * by rewrite drop_all.
  - unfold new_events. simpl. repeat split; try done.
    by rewrite drop_app_length.
Qed.

Lemma handler_keeps_listed {E} (net : Net E) (cnet : CaseNet E) (a : UserAction)
    (w : CaseWorld E) :
  ∃ w1,
    match a with
    | CreateCase title => Cases.handleCreateCase cnet title
    | DeleteCase caseId =>
        Cases.handleDeleteCase cnet (selectedCaseId w) (cases (app (inner w))) caseId
    | SelectCase caseId =>
        if bool_decide (caseId ∈ case_id <$> cases (app (inner w)))
        then handleSelectCase (selectedCaseId w) caseId else ret ()
    | ChangeTab tab1 => setActiveTab tab1
    | ClearMemory => in_app (handleClearMemory net (selectedCaseId w))
    | SendMessage message fileContent =>
        in_app (handleSendMessage net (selectedCaseId w) message fileContent)
    end w = (Return (), w1)
    ∧ (selection_listed w → selection_listed w1).
Proof.
  destruct a as [title|caseId|caseId|tab1| |message fileContent].
  - unfold Cases.handleCreateCase, call_case, try_catch, mbind, M_bind, bind.
    destruct (createCase cnet title (env (inner w))) as [[newCase|err] e1]; simpl.
    + eexists. split; [reflexivity|]. intros _ c. simpl. intros [= <-]. by left.
    + eexists. split; [reflexivity|]. done.
  - unfold Cases.handleDeleteCase, call_case, try_catch, mbind, M_bind, bind.
    destruct (deleteCase cnet caseId (env (inner w))) as [[[]|err] e1]; simpl.
    + destruct (bool_decide (selectedCaseId w = Some caseId)) eqn:Hsel; simpl.
      * eexists. split; [reflexivity|]. intros _ c. simpl.
        destruct (bool_decide (0 < _)%nat); [|done].
        intros Hc. by apply head_filter_others in Hc as [_ ?].
      * apply bool_decide_eq_false in Hsel.
        eexists. split; [reflexivity|]. intros Hlisted c. simpl. intros Hc.
        apply filter_others_ids; [congruence|]. by apply Hlisted.
    + eexists. split; [reflexivity|]. done.
  - case_bool_decide as Hin; [|by eexists].
    unfold handleSelectCase. case_bool_decide; [|by eexists].
    eexists. split; [reflexivity|]. intros _ c. simpl. by intros [= <-].
  - eexists. split; [reflexivity|]. done.
  - destruct (handleClearMemory_cases net (selectedCaseId w) (inner w))
      as (i' & Hrun & Hc).
    destruct (in_app_same _ w i' Hrun Hc) as (w' & -> & Hsame & _).
    eexists. split; [reflexivity|]. by apply same_selection_listed.
  - destruct (handleSendMessage_cases net (selectedCaseId w) message fileContent
                (inner w)) as (i' & Hrun & Hc).
    destruct (in_app_same _ w i' Hrun Hc) as (w' & -> & Hsame & _).
    eexists. split; [reflexivity|]. by apply same_selection_listed.
Qed.

Lemma perform_keeps_listed {E} (net : Net E) (cnet : CaseNet E) (a : UserAction)
    (w : CaseWorld E) :
  ∃ w', perform net cnet a w = (Return (), w')
        ∧ (selection_listed w → selection_listed w').
Proof.
  destruct (handler_keeps_listed net cnet a w) as (w1 & Hrun & Hlisted).
  unfold perform.
  destruct (with_effects_run net
              (λ sel cs tab,
                 match a with
                 | CreateCase title => Cases.handleCreateCase cnet title
                 | DeleteCase caseId => Cases.handleDeleteCase cnet sel cs caseId
                 | SelectCase caseId =>
                     if bool_decide (caseId ∈ case_id <$> cs)
                     then handleSelectCase sel caseId else ret ()
                 | ChangeTab tab1 => setActiveTab tab1
                 | ClearMemory => in_app (handleClearMemory net sel)
                 | SendMessage message fileContent =>
                     in_app (handleSendMessage net sel message fileContent)
                 end) w w1) as (w' & Hw' & Hsame).
  { by destruct a. }
  exists w'. split; [done|]. intros H. eapply same_selection_listed; eauto.
Qed.

(** X20. As long as the user starts no action while another one is
    still waiting for the server, a whole session of creating, deleting
    and selecting cases, changing tabs, sending messages and clearing
    the memory never throws, and the selected case stays one of the
    listed cases: if the selection is a listed case (or none) at the
    start, it is one after every such sequence of actions.  (Handlers
    that overlap can break this: X29.) *)
Theorem selection_stays_listed {E} (net : Net E) (cnet : CaseNet E)
    (actions : list UserAction) (w : CaseWorld E) :
  selection_listed w →
  (session net cnet actions w).1 = Return ()
  ∧ selection_listed (session net cnet actions w).2.
Proof.
  revert w. induction actions as [|a actions IH]; intros w Hlisted; [done|].
  simpl. unfold mbind, M_bind, bind.
  destruct (perform_keeps_listed net cnet a w) as (w' & -> & Hw').
  apply IH. by apply Hw'.
Qed.

Lemma filter_others_twice (a b : Z) (cs : list Case) :
  b ∉ case_id <$> List.filter (λ k, negb (bool_decide (case_id k = a)))
                    (List.filter (λ k, negb (bool_decide (case_id k = b))) cs).
Proof.
  intros (k & Hk & Hin)%list_elem_of_fmap.
  apply list_elem_of_In, filter_In in Hin as [Hin _].
  apply filter_In in Hin as [_ Hb].
  apply negb_true_iff, bool_decide_eq_false in Hb. done.
Qed.

(** X29. Two deletes that overlap leave a selection that is not listed.
    When the selected case [a] and another case [b], the first of the
    other cases in the list, are both deleted from the same render (the
    second delete is confirmed before the first is answered, so both
    handlers hold the same closure), and the server accepts [b] and then
    [a], the handler of [a] selects [b] from its stale list: in the end
    [b] is selected although it is listed no more. *)
Theorem overlapping_deletes_lose_the_selection {E} (cnet : CaseNet E)
    (a b : Z) (w : CaseWorld E) :
  let sel := selectedCaseId w in
  let cs := cases (app (inner w)) in
  let first := Cases.handleDeleteCase cnet sel cs b w in
  let second := Cases.handleDeleteCase cnet sel cs a first.2 in
  selectedCaseId w = Some a →
  a ≠ b →
  case_id <$> head (List.filter (λ k, negb (bool_decide (case_id k = a))) cs)
    = Some b →
  (deleteCase cnet b (env (inner w))).1 = Return () →
  (deleteCase cnet a (env (inner first.2))).1 = Return () →
  first.1 = Return ()
  ∧ second.1 = Return ()
  ∧ selectedCaseId second.2 = Some b
  ∧ b ∉ case_id <$> cases (app (inner second.2))
  ∧ ¬ selection_listed second.2.
Proof.
  intros sel cs first second Hsel Hne Hhead. subst first second sel cs.
  unfold Cases.handleDeleteCase, call_case, try_catch, mbind, M_bind, bind.
  destruct (deleteCase cnet b (env (inner w))) as [[[]|err] e1]; [|done].
  intros _. cbn. rewrite Hsel.
  rewrite (bool_decide_eq_false_2 (Some a = Some b)) by congruence. cbn.
  destruct (deleteCase cnet a e1) as [[[]|err] e2]; [|done].
  intros _. cbn. rewrite bool_decide_eq_true_2 by done. cbn.
  assert (Hlen : (0 < length (List.filter (λ k, negb (bool_decide (case_id k = a)))
                                (cases (app (inner w)))))%nat).
  { destruct (List.filter _ (cases (app (inner w)))); [done|]. simpl. lia. }
  rewrite (bool_decide_eq_true_2 _ Hlen). rewrite Hhead.
  assert (Hgone := filter_others_twice a b (cases (app (inner w)))).
  repeat split; try done.
  intros Hlisted. apply Hgone. by apply Hlisted.
Qed.

(** X21. Deleting the selected case when no other case is listed leaves
    the App with no case: once the server accepts the delete, the list
    of cases is empty, nothing is selected, the transcript and the graph
    are cleared, and the main area shows the no case selected notice. *)
Theorem deleting_the_last_case_clears_the_screen {E} (net : Net E)
    (cnet : CaseNet E) (caseId : Z) (w : CaseWorld E) :
  selectedCaseId w = Some caseId →
  Forall (λ k, case_id k = caseId) (cases (app (inner w))) →
  (deleteCase cnet caseId (env (inner w))).1 = Return () →
  let run := perform net cnet (DeleteCase caseId) w in
  run.1 = Return ()
  ∧ main run.2 = NoCaseSelected
  ∧ selectedCaseId run.2 = None
  ∧ cases (app (inner run.2)) = []
  ∧ messages (app (inner run.2)) = []
  ∧ App.graphNodes (app (inner run.2)) = []
  ∧ App.graphEdges (app (inner run.2)) = [].
Proof.
  intros Hsel Hall Hdel.
  assert (Hnone : List.filter (λ k, negb (bool_decide (case_id k = caseId)))
                    (cases (app (inner w))) = []).
  { induction Hall as [|k ks Hk _ IH]; [done|]. simpl.
    by rewrite bool_decide_eq_true_2. }
  unfold perform, with_effects, Cases.handleDeleteCase, call_case, try_catch,
    mbind, M_bind, bind.
  destruct (deleteCase cnet caseId (env (inner w))) as [[[]|err] e1];
    [|done]. simpl.
  rewrite Hsel, bool_decide_eq_true_2 by done. simpl.
  rewrite !Hnone. simpl. unfold main, tab_effect.
  by destruct (activeTab (app (inner w))).
Qed.

Lemma loadGraph_keeps {E} (net : Net E) sel (w : World E) :
  ∃ w', loadGraph net sel w = (Return (), w')
        ∧ messages (app w') = messages (app w)
        ∧ cases (app w') = cases (app w)
        ∧ activeTab (app w') = activeTab (app w)
        ∧ isLoading (app w') = isLoading (app w)
        ∧ isCasesLoading (app w') = isCasesLoading (app w)
        ∧ ∃ evs, trace w' = trace w ++ evs.
Proof.
  unfold loadGraph. destruct (truthy_number sel) as [caseId|].
  - unfold call, try_catch, mbind, M_bind, bind.
    destruct (getGraph net caseId (env w)) as [[data|?] e1]; simpl;
      eexists; (split; [reflexivity|]); repeat split; eexists; simpl;
      rewrite <- ?app_assoc; reflexivity.
  - eexists. split; [reflexivity|]. repeat split. exists []. by rewrite app_nil_r.
Qed.

(** The transcript of a case as [loadCaseData] shows it. *)
Lemma loadCaseData_transcript {E} (net : Net E) sel caseId (w : World E) :
  ∃ w', loadCaseData net sel caseId w = (Return (), w')
        ∧ cases (app w') = cases (app w)
        ∧ activeTab (app w') = activeTab (app w)
        ∧ isLoading (app w') = isLoading (app w)
        ∧ isCasesLoading (app w') = isCasesLoading (app w)
        ∧ match getCase net caseId (env w) with
          | (Return detail, _) =>
              messages (app w')
                = (λ msg, {| role := msg_role msg; content := msg_content msg |})
                    <$> case_messages detail
              ∧ ∃ evs, new_events w w' = Requested (CaseReq caseId) :: evs
          | (Throw _, _) =>
              messages (app w') = messages (app w)
              ∧ new_events w w'
                = [Requested (CaseReq caseId);
                   ConsoleError (lit "Failed to load case data:")]
          end.
Proof.
  unfold loadCaseData, call, try_catch, mbind, M_bind, bind.
  destruct (getCase net caseId (env w)) as [[detail|?] e1]; simpl.
  - match goal with
    | |- context [loadGraph net sel ?w1] =>
        destruct (loadGraph_keeps net sel w1)
          as (w2 & Hrun & Hm & Hc & Ht & Hl & Hcl & evs & Htrace)
    end.
    rewrite Hrun. simpl in *.
    eexists. split; [reflexivity|]. rewrite Hm, Hc, Ht, Hl, Hcl. repeat split.
    exists evs. unfold new_events. rewrite Htrace, <- app_assoc.
    by rewrite drop_app_length.
  - eexists. split; [reflexivity|]. repeat split.
    unfold new_events. simpl. rewrite <- app_assoc. by rewrite drop_app_length.
Qed.

Lemma selection_effect_run {E} (net : Net E) sel (w : CaseWorld E) :
  ∃ w', selection_effect net sel w = (Return (), w')
        ∧ selectedCaseId w' = selectedCaseId w
        ∧ asked w' = asked w
        ∧ cases (app (inner w')) = cases (app (inner w))
        ∧ activeTab (app (inner w')) = activeTab (app (inner w))
        ∧ isLoading (app (inner w')) = isLoading (app (inner w))
        ∧ isCasesLoading (app (inner w')) = isCasesLoading (app (inner w))
        ∧ match truthy_number sel with
          | Some caseId =>
              match getCase net caseId (env (inner w)) with
              | (Return detail, _) =>
                  messages (app (inner w'))
                    = (λ msg, {| role := msg_role msg; content := msg_content msg |})
                        <$> case_messages detail
                  ∧ ∃ evs, new_events (inner w) (inner w')
                           = Requested (CaseReq caseId) :: evs
              | (Throw _, _) =>
                  messages (app (inner w')) = messages (app (inner w))
                  ∧ new_events (inner w) (inner w')
                    = [Requested (CaseReq caseId);
                       ConsoleError (lit "Failed to load case data:")]
              end
          | None =>
              messages (app (inner w')) = []
              ∧ App.graphNodes (app (inner w')) = []
              ∧ App.graphEdges (app (inner w')) = []
              ∧ trace (inner w') = trace (inner w)
          end.
Proof.
  unfold selection_effect. destruct (truthy_number sel) as [caseId|].
  - destruct (loadCaseData_transcript net sel caseId (inner w))
      as (i' & Hrun & Hc & Ht & Hl & Hcl & Hm).
    unfold in_app. rewrite Hrun. eexists. split; [reflexivity|]. done.
  - eexists. split; [reflexivity|]. done.
Qed.

Lemma tab_effect_run {E} (net : Net E) sel tab (w : CaseWorld E) :
  ∃ w', tab_effect net sel tab w = (Return (), w')
        ∧ selectedCaseId w' = selectedCaseId w
        ∧ asked w' = asked w
        ∧ cases (app (inner w')) = cases (app (inner w))
        ∧ activeTab (app (inner w')) = activeTab (app (inner w))
        ∧ isLoading (app (inner w')) = isLoading (app (inner w))
        ∧ isCasesLoading (app (inner w')) = isCasesLoading (app (inner w))
        ∧ messages (app (inner w')) = messages (app (inner w))
        ∧ ∃ evs, trace (inner w') = trace (inner w) ++ evs.
Proof.
  unfold tab_effect.
  destruct tab, (truthy_number sel) as [caseId|];
    try (eexists; split; [reflexivity|]; repeat split; exists [];
         by rewrite app_nil_r).
  destruct (loadGraph_keeps net sel (inner w))
    as (i' & Hrun & Hm & Hc & Ht & Hl & Hcl & Htrace).
  unfold in_app. rewrite Hrun. eexists. split; [reflexivity|]. done.
Qed.

(** X22. Creating a case: [handleCreateCase] with the effects that
    follow never throws. When the server answers, the new case is first
    in the list and selected, the tab is unchanged, and the transcript
    shown is never the one of the case shown before: it is empty or the
    stored transcript of the new case. When the request fails, the state
    of the App is untouched and the failure is logged on the console. *)
Theorem created_case_opens_with_its_own_transcript {E} (net : Net E)
    (cnet : CaseNet E) (title : jsstring) (w : CaseWorld E) :
  let run := perform net cnet (CreateCase title) w in
  run.1 = Return ()
  ∧ match createCase cnet title (env (inner w)) with
    | (Return newCase, _) =>
        selectedCaseId run.2 = Some (case_id newCase)
        ∧ cases (app (inner run.2)) = newCase :: cases (app (inner w))
        ∧ activeTab (app (inner run.2)) = activeTab (app (inner w))
        ∧ (messages (app (inner run.2)) = []
           ∨ ∃ e detail e',
               getCase net (case_id newCase) e = (Return detail, e')
               ∧ messages (app (inner run.2))
                 = (λ msg, {| role := msg_role msg; content := msg_content msg |})
                     <$> case_messages detail)
    | (Throw _, _) =>
        app (inner run.2) = app (inner w)
        ∧ selectedCaseId run.2 = selectedCaseId w
        ∧ new_events (inner w) (inner run.2)
          = [ConsoleError (lit "Failed to create case:")]
    end.
Proof.
  unfold perform, with_effects, Cases.handleCreateCase, call_case, try_catch,
    mbind, M_bind, bind.
  destruct (createCase cnet title (env (inner w))) as [[newCase|err] e1]; simpl.
  - destruct (bool_decide (Some (case_id newCase) = selectedCaseId w)); simpl.
    + rewrite bool_decide_eq_true_2 by done. simpl. repeat split. by left.
    + match goal with
      | |- context [selection_effect net ?sel ?w1] =>
          destruct (selection_effect_run net sel w1)
            as (w2 & -> & Hs2 & _ & Hc2 & Ht2 & _ & _ & Hm2);
          destruct (tab_effect_run net sel (activeTab (app (inner w))) w2)
            as (w3 & -> & Hs3 & _ & Hc3 & Ht3 & _ & _ & Hm3 & _)
      end.
      simpl in *. rewrite Hs3, Hs2, Hc3, Hc2, Ht3, Ht2, Hm3.
      repeat split.
      unfold truthy_number in Hm2.
      destruct (decide (case_id newCase = 0)); [left; by destruct Hm2|].
      destruct (getCase net (case_id newCase) e1) as [[detail|?] e2] eqn:Hcase.
      * right. exists e1, detail, e2. by destruct Hm2.
      * left. by destruct Hm2.
  - rewrite !bool_decide_eq_true_2 by done. simpl. repeat split.
    unfold new_events. simpl. by rewrite drop_app_length.
Qed.

(** X23. Selecting a case in the sidebar: a click on the case that is
    already selected changes nothing and asks nothing; a click on
    another listed case selects it, switches to the chat tab and asks
    the server for that case first, and when the server answers the main
    area shows the stored transcript of that case. *)
Theorem selecting_a_case_shows_its_transcript {E} (net : Net E)
    (cnet : CaseNet E) (caseId : Z) (w : CaseWorld E) :
  caseId ∈ case_id <$> cases (app (inner w)) →
  caseId ≠ 0 →
  let run := perform net cnet (SelectCase caseId) w in
  if decide (selectedCaseId w = Some caseId) then run = (Return (), w)
  else
    run.1 = Return ()
    ∧ selectedCaseId run.2 = Some caseId
    ∧ activeTab (app (inner run.2)) = chat
    ∧ (∃ evs, new_events (inner w) (inner run.2) = Requested (CaseReq caseId) :: evs)
    ∧ match getCase net caseId (env (inner w)) with
      | (Return detail, _) =>
          main run.2
            = ShowChat ((λ msg, {| role := msg_role msg; content := msg_content msg |})
                          <$> case_messages detail)
                       (isLoading (app (inner w)))
      | (Throw _, _) =>
          main run.2 = ShowChat (messages (app (inner w))) (isLoading (app (inner w)))
      end.
Proof.
  intros Hin Hne. unfold perform, with_effects.
  rewrite bool_decide_eq_true_2 by done. unfold handleSelectCase.
  destruct (decide (selectedCaseId w = Some caseId)) as [Hsel|Hsel].
  - rewrite bool_decide_eq_false_2 by (by intros ?; apply dec_stable; congruence).
    simpl. rewrite !bool_decide_eq_true_2 by done. done.
  - rewrite bool_decide_eq_true_2 by congruence.
    unfold setSelectedCaseId, setActiveTab, in_app, set_app, modify, mbind,
      M_bind, bind. simpl.
    rewrite bool_decide_eq_false_2 by congruence. simpl.
    match goal with
    | |- context [selection_effect net ?sel ?w1] =>
        destruct (selection_effect_run net sel w1)
          as (w2 & -> & Hs2 & _ & Hc2 & Ht2 & Hl2 & _ & Hm2)
    end.
    simpl in *. unfold main. rewrite Hs2, Ht2, Hl2. simpl.
    unfold truthy_number in *. destruct (decide (caseId = 0)); [done|].
    repeat split.
    + destruct (getCase net caseId (env (inner w))) as [[detail|?] e1];
        destruct Hm2 as [_ Hev]; eauto.
    + destruct (getCase net caseId (env (inner w))) as [[detail|?] e1];
        destruct Hm2 as [-> _]; done.
Qed.

(** X24. The mount of the App: it never throws, asks for the list of
    cases once and always ends with [isCasesLoading] false. When the
    server lists cases, they are shown and the first one is selected;
    when it lists none, or the request fails (which is logged on the
    console), no case is listed and the main area shows the no case
    selected notice. *)
Theorem mount_selects_the_first_case {E} (net : Net E) (cnet : CaseNet E)
    (e : E) :
  let run := mount net cnet e in
  run.1 = Return ()
  ∧ isCasesLoading (app (inner run.2)) = false
  ∧ asked run.2 = [CasesReq]
  ∧ match getCases cnet e with
    | (Return (k :: rest), _) =>
        cases (app (inner run.2)) = k :: rest
        ∧ selectedCaseId run.2 = Some (case_id k)
    | (Return [], _) =>
        cases (app (inner run.2)) = []
        ∧ main run.2 = NoCaseSelected
        ∧ trace (inner run.2) = []
    | (Throw _, _) =>
        cases (app (inner run.2)) = []
        ∧ main run.2 = NoCaseSelected
        ∧ trace (inner run.2) = [ConsoleError (lit "Failed to load cases:")]
    end.
Proof.
  unfold mount, with_effects, initial, loadCases, selection_effect, tab_effect,
    call_case, try_catch_finally, try_finally, try_catch, setIsCasesLoading,
    setCases, setSelectedCaseId, in_app, set_app, setMessages, setGraphNodes,
    setGraphEdges, console_error, emit, modify, mbind, M_bind, bind, mret,
    M_ret, ret.
  simpl.
  destruct (getCases cnet e) as [[[|k rest]|err] e1]; simpl; [done| |done].
  destruct (decide (case_id k = 0)) as [Hz|Hz]; simpl; [done|].
  match goal with
  | |- context [loadCaseData net ?sel ?c ?w1] =>
      destruct (loadCaseData_transcript net sel c w1)
        as (w2 & Hrun & Hc2 & Ht2 & Hl2 & Hcl2 & _)
  end.
  rewrite Hrun. simpl. by rewrite Hc2, Hcl2.
Qed.

(** ** lib/AuthContext.tsx and the auth functions of lib/api.ts *)

(** X25. The check of the stored token on mount never throws and always
    ends the loading state. The protected pages are shown exactly when a
    non-empty token was stored and the server answered ok with a truthy
    body for it; in every other case the visitor is sent to the login
    page. A token is left in the storage exactly when a non-empty token
    was stored and the server answered ok with a body that can be read:
    a failed request removes the token, but an ok answer whose body is
    [null] sends the visitor to the login page and keeps the token. *)
Theorem stored_token_is_checked_on_mount {E} (anet : Auth.AuthNet E)
    (storage : gmap jsstring jsstring) (e : E) :
  let run := Auth.check_stored_token anet (Auth.initial storage e) in
  let answered (wanted : Json → Prop) : Prop :=
    ∃ t r e' body, storage !! Auth.TOKEN_KEY = Some t ∧ t ≠ []
                   ∧ Auth.fetch_me anet (lit "Bearer " ++ t) e = (Return r, e')
                   ∧ ok r = true ∧ json r = Return body ∧ wanted body in
  run.1 = Return ()
  ∧ Auth.isLoading run.2 = false
  ∧ (Auth.ProtectedRoute run.2 = Auth.Children
     ↔ answered (λ body, truthy_json body = true))
  ∧ (Auth.ProtectedRoute run.2 ≠ Auth.Children →
     Auth.ProtectedRoute run.2 = Auth.NavigateToLogin)
  ∧ (Auth.truthy_token (Auth.localStorage run.2 !! Auth.TOKEN_KEY) = true
     ↔ answered (λ _, True))
  ∧ (answered (λ body, Auth.user run.2 = body)
     ∨ Auth.user run.2 = JNull ∧ Auth.token run.2 = None).
Proof.
  auth_unfold. cbn.
  destruct (storage !! lit "crime_gpt_token") as [[|c t]|] eqn:Hstored; cbn.
  - rewrite Hstored. repeat split; try done; try (by right);
      intros (t & r & e' & body & ? & ? & _); by simplify_eq.
  - destruct (Auth.fetch_me anet (lit "Bearer " ++ c :: t) e) as [[r|err] e1]
      eqn:Hme; cbn.
    + destruct (ok r) eqn:Hok; cbn.
      * destruct (json r) as [body|err] eqn:Hjson; cbn.
        -- rewrite Hstored. cbn.
           assert (Hanswered : ∀ wanted : Json → Prop, wanted body →
                     ∃ t' r' e' body', Some (c :: t) = Some t' ∧ t' ≠ []
                       ∧ Auth.fetch_me anet (lit "Bearer " ++ t') e = (Return r', e')
                       ∧ ok r' = true ∧ json r' = Return body' ∧ wanted body').
           { intros wanted Hw. exists (c :: t), r, e1, body. by repeat split. }
           repeat split; try done.
           ++ destruct (truthy_json body) eqn:Hbody; [|done].
              intros _. by apply Hanswered.
           ++ intros (t' & r' & e' & body' & ? & ? & ? & ? & ? & Hb).
              simplify_eq. assert (body' = body) as -> by congruence.
              by rewrite Hb.
           ++ by destruct (truthy_json body).
           ++ intros _. by apply Hanswered.
           ++ left. by apply Hanswered.
        -- rewrite lookup_delete_eq. repeat split; try done; try (by right);
             intros (t' & r' & e' & body & ? & ? & ? & ? & ? & _);
             simplify_eq; congruence.
      * rewrite lookup_delete_eq. repeat split; try done; try (by right);
          intros (t' & r' & e' & body & ? & ? & ? & ? & ? & _);
          simplify_eq; congruence.
    + rewrite lookup_delete_eq. repeat split; try done; try (by right);
        intros (t' & r' & e' & body & ? & ? & ? & ? & ? & _);
        simplify_eq; congruence.
  - rewrite Hstored. repeat split; try done; try (by right);
      intros (t & r & e' & body & ? & ? & _); by simplify_eq.
Qed.

(** X26. Signing in stores the token before the user is known. When the
    server refuses a login or a registration, or its reply cannot be
    read, the call throws and nothing is stored. When the server
    accepts, the token is in [localStorage] and in the state even if
    reading the user then fails: in that case the call throws and the
    user is as before, while the token stays stored; when the call
    returns, the user is the body the server sent for that token. *)
Theorem signing_in_stores_the_token_first {E} (anet : Auth.AuthNet E)
    (email password : jsstring) (w : Auth.AuthWorld E) :
  let stores_first (reply : Outcome Auth.AuthReply * E)
      (run : Outcome unit * Auth.AuthWorld E) : Prop :=
    let nothing_stored :=
      (∃ err, run.1 = Throw err)
      ∧ Auth.localStorage run.2 = Auth.localStorage w
      ∧ Auth.token run.2 = Auth.token w
      ∧ Auth.user run.2 = Auth.user w in
    match reply with
    | (Return r, e1) =>
        if Auth.auth_ok r then
          match Auth.token_json r with
          | Return body =>
              Auth.localStorage run.2
                = <[Auth.TOKEN_KEY := Auth.access_token body]> (Auth.localStorage w)
              ∧ Auth.token run.2 = Some (Auth.access_token body)
              ∧ (run.1 = Return ()
                 ∧ (∃ r2 e2,
                      Auth.fetch_me anet (lit "Bearer " ++ Auth.access_token body) e1
                        = (Return r2, e2)
                      ∧ ok r2 = true ∧ json r2 = Return (Auth.user run.2))
                 ∨ (∃ err, run.1 = Throw err) ∧ Auth.user run.2 = Auth.user w)
          | Throw _ => nothing_stored
          end
        else nothing_stored
    | (Throw _, _) => nothing_stored
    end in
  stores_first (Auth.fetch_login anet email password (Auth.outside w))
               (Auth.login anet email password w)
  ∧ stores_first (Auth.fetch_register anet email password (Auth.outside w))
                 (Auth.register anet email password w).
Proof.
  assert (Hbearer : ∀ t : jsstring,
            (if truthy_string t then t else Auth.or_null (Some t)) = t).
  { by intros [|c t]. }
  cbv zeta. split.
  - auth_unfold. cbn.
    destruct (Auth.fetch_login anet email password (Auth.outside w))
      as [[r|err] e1]; cbn; [|eauto].
    destruct (Auth.auth_ok r); cbn.
    + destruct (Auth.token_json r) as [body|err]; cbn; [|eauto].
      rewrite lookup_insert_eq. cbn. rewrite Hbearer.
      destruct (Auth.fetch_me anet _ e1) as [[r2|err] e2] eqn:Hme; cbn;
        [|repeat split; right; eauto].
      destruct (ok r2) eqn:Hok; cbn; [|repeat split; right; eauto].
      destruct (json r2) as [u|err] eqn:Hjson; cbn; repeat split;
        [left; split; [done|]; by exists r2, e2|right; eauto].
    + destruct (Auth.error_json r) as [[|detail]|err]; cbn; eauto.
  - auth_unfold. cbn.
    destruct (Auth.fetch_register anet email password (Auth.outside w))
      as [[r|err] e1]; cbn; [|eauto].
    destruct (Auth.auth_ok r); cbn.
    + destruct (Auth.token_json r) as [body|err]; cbn; [|eauto].
      rewrite lookup_insert_eq. cbn. rewrite Hbearer.
      destruct (Auth.fetch_me anet _ e1) as [[r2|err] e2] eqn:Hme; cbn;
        [|repeat split; right; eauto].
      destruct (ok r2) eqn:Hok; cbn; [|repeat split; right; eauto].
      destruct (json r2) as [u|err] eqn:Hjson; cbn; repeat split;
        [left; split; [done|]; by exists r2, e2|right; eauto].
    + destruct (Auth.error_json r) as [[|detail]|err]; cbn; eauto.
Qed.

(** X27. Logging out forgets the token everywhere: afterwards nobody is
    authenticated, the protected pages are not shown, no token is
    stored, and the headers of the next request carry no Authorization
    field. *)
Theorem logout_forgets_the_token {E} (w : Auth.AuthWorld E) :
  let run := Auth.logout w in
  run.1 = Return ()
  ∧ Auth.isAuthenticated run.2 = false
  ∧ Auth.ProtectedRoute run.2 ≠ Auth.Children
  ∧ (Auth.getStoredToken run.2).1 = Return None
  ∧ (Auth.getAuthHeaders run.2).1
    = Return {[ lit "Content-Type" := lit "application/json" ]}.
Proof.
  auth_unfold. cbn. rewrite lookup_delete_eq. cbn.
  repeat split. by destruct (Auth.isLoading w).
Qed.


(** ** The properties above at sample inputs *)

Import MoreSamples.

Lemma grid_positions_are_apart_witness :
  let cols := (calculateLayout 5).1 in
  let spacing := (calculateLayout 5).2 in
  let p := grid_position cols spacing 0 in
  let q := grid_position cols spacing 3 in
  (0 ≠ 3)%nat
  ∧ (x p + 180 <= x q ∨ x q + 180 <= x p ∨ y p + 180 <= y q ∨ y q + 180 <= y p)%Q.
Proof.
  intros cols spacing p q.
  assert (Hne : (0 ≠ 3)%nat) by lia.
  split; [exact Hne|].
  exact (grid_positions_are_apart 5 0 3 Hne).
Defined.

Lemma grid_is_square_witness :
  let cols := (calculateLayout 7).1 in
  let spacing := (calculateLayout 7).2 in
  (6 < 7)%nat
  ∧ (1 ≤ cols)%nat ∧ 180 ≤ spacing ≤ 265
  ∧ (6 / cols < cols)%nat
  ∧ (100 <= x (grid_position cols spacing 6))%Q
  ∧ (100 <= y (grid_position cols spacing 6))%Q.
Proof.
  intros cols spacing.
  assert (Hlt : (6 < 7)%nat) by lia.
  split; [exact Hlt|].
  exact (grid_is_square 7 6 Hlt).
Defined.

Lemma click_dims_unrelated_nodes_witness :
  let s := trio_view in
  let clicked := lit "0" in
  ∃ fn,
    clicked ≠ []
    ∧ selectedNodeId s ≠ Some clicked
    ∧ GraphView.nodes s !! 2%nat = Some fn
    ∧ node_id fn ∈ Api.id <$> graphNodes (props s)
    ∧ ∃ fn',
        GraphView.nodes (onNodeClick clicked s) !! 2%nat = Some fn'
        ∧ selectedNodeId (onNodeClick clicked s) = Some clicked
        ∧ node_id fn' = node_id fn
        ∧ position fn' = position fn
        ∧ (node_id fn = clicked ∨ joined (graphEdges (props s)) clicked (node_id fn) →
           opacity (style fn') = 1%Q)
        ∧ (node_id fn ≠ clicked ∧ ¬ joined (graphEdges (props s)) clicked (node_id fn) →
           opacity (style fn') = (3 # 10)%Q).
Proof.
  intros s clicked.
  assert (Hclicked : clicked ≠ []) by (by vm_compute).
  assert (Hsel : selectedNodeId s ≠ Some clicked) by (by vm_compute).
  destruct (GraphView.nodes s !! 2%nat) as [fn|] eqn:Hfn; [|by vm_compute in Hfn].
  exists fn.
  assert (Hin : node_id fn ∈ Api.id <$> graphNodes (props s)).
  { vm_compute in Hfn. injection Hfn as <-. right; right; left. }
  split; [exact Hclicked|].
  split; [exact Hsel|].
  split; [reflexivity|].
  split; [exact Hin|].
  exact (click_dims_unrelated_nodes s clicked 2 fn Hclicked Hsel Hfn Hin).
Defined.

Lemma click_highlights_incident_edges_witness :
  let s := trio_view in
  let clicked := lit "0" in
  let e := {| source := lit "0"; target := lit "1"; elabel := lit "met" |} in
  clicked ≠ []
  ∧ selectedNodeId s ≠ Some clicked
  ∧ graphEdges (props s) !! 0%nat = Some e
  ∧ ∃ f,
      GraphView.edges (onNodeClick clicked s) !! 0%nat = Some f
      ∧ edge_source f = source e ∧ edge_target f = target e
      ∧ (animated f, strokeWidth (edge_style f), edge_opacity (edge_style f))
        = if decide (touches e clicked) then (true, 3%Q, 1%Q)
          else (false, 2%Q, (1 # 5)%Q).
Proof.
  intros s clicked e.
  assert (Hclicked : clicked ≠ []) by (by vm_compute).
  assert (Hsel : selectedNodeId s ≠ Some clicked) by (by vm_compute).
  assert (He : graphEdges (props s) !! 0%nat = Some e) by reflexivity.
  split; [exact Hclicked|].
  split; [exact Hsel|].
  split; [exact He|].
  exact (click_highlights_incident_edges s clicked 0 e Hclicked Hsel He).
Defined.

Lemma click_again_deselects_witness :
  let clicked := lit "0" in
  let s := onNodeClick clicked trio_view in
  let s' := onNodeClick clicked s in
  selectedNodeId s = Some clicked
  ∧ selectedNodeId s' = None
  ∧ Forall (λ fn, node_id fn ∈ Api.id <$> graphNodes (props s) →
                  opacity (style fn) = 1%Q) (GraphView.nodes s')
  ∧ Forall (λ f, animated f = false ∧ strokeWidth (edge_style f) = 2%Q
                 ∧ edge_opacity (edge_style f) = 1%Q) (GraphView.edges s').
Proof.
  intros clicked s s'.
  assert (Hsel : selectedNodeId s = Some clicked) by (vm_compute; reflexivity).
  split; [exact Hsel|].
  exact (click_again_deselects s clicked Hsel).
Defined.

Lemma submit_without_file_sends_the_input_witness :
  let net := server_net (λ t, t) in
  let onSendMessage := handleSendMessage net (Some 1) in
  let text := lit "John Doe was seen at the Warehouse" in
  let w := chat_world text None busy_server in
  trim text ≠ []
  ∧ (onSendMessage text None (parent w)).1 = Return ()
  ∧ handleSubmit net onSendMessage false text None w =
      (Return (),
       {| cstate := {| Chat.input := []; selectedFile := None |};
          parent := (onSendMessage text None (parent w)).2;
          sent := sent w ++ [(text, None)] |}).
Proof.
  intros net onSendMessage text w.
  assert (Htrim : trim text ≠ []) by (by vm_compute).
  assert (Hsend : (onSendMessage text None (parent w)).1 = Return ())
    by (vm_compute; reflexivity).
  split; [exact Htrim|].
  split; [exact Hsend|].
  exact (submit_without_file_sends_the_input net onSendMessage text w Htrim Hsend).
Defined.

Lemma failed_upload_sends_nothing_witness :
  let net := server_net (λ t, t) in
  let onSendMessage := handleSendMessage net (Some 1) in
  let text := lit "see the file" in
  let w := chat_world text (Some report) offline_server in
  let e := TypeError (lit "Failed to fetch") in
  trim text ≠ []
  ∧ (uploadFile net report (env (parent w))).1 = Throw e
  ∧ ∃ w',
      handleSubmit net onSendMessage false text (Some report) w = (Return (), w')
      ∧ sent w' = sent w
      ∧ app (parent w') = app (parent w)
      ∧ selectedFile (cstate w') = None
      ∧ Chat.input (cstate w') =
          [0xF0; 0x178; 0x201C; 0x201E]%N ++ lit " Uploading and processing "
            ++ file_name report ++ lit "..."
      ∧ new_events (parent w) (parent w') =
          [ Requested (UploadReq report);
            ConsoleError (lit "File upload failed:");
            Alerted (lit "Failed to process file. Please try again.") ].
Proof.
  intros net onSendMessage text w e.
  assert (Htrim : trim text ≠ []) by (by vm_compute).
  assert (Hup : (uploadFile net report (env (parent w))).1 = Throw e)
    by (vm_compute; reflexivity).
  split; [exact Htrim|].
  split; [exact Hup|].
  exact (failed_upload_sends_nothing net onSendMessage text report w e Htrim Hup).
Defined.

Lemma upload_then_send_witness :
  let net := server_net (λ t, t) in
  let onSendMessage := handleSendMessage net (Some 1) in
  let input := lit "see the file" in
  let w := chat_world input (Some report) fair_server in
  let text := lit "Noted." in
  let e1 := (uploadFile net report (env (parent w))).2 in
  let p1 := {| app := app (parent w); env := e1;
               trace := trace (parent w) ++ [Requested (UploadReq report)] |} in
  trim input ≠ []
  ∧ uploadFile net report (env (parent w)) = (Return text, e1)
  ∧ (onSendMessage input (Some text) p1).1 = Return ()
  ∧ handleSubmit net onSendMessage false input (Some report) w =
      (Return (),
       {| cstate := {| Chat.input := []; selectedFile := None |};
          parent := (onSendMessage input (Some text) p1).2;
          sent := sent w ++ [(input, Some text)] |}).
Proof.
  intros net onSendMessage input w text e1 p1.
  assert (Htrim : trim input ≠ []) by (by vm_compute).
  assert (Hup : uploadFile net report (env (parent w)) = (Return text, e1))
    by (vm_compute; reflexivity).
  assert (Hsend : (onSendMessage input (Some text) p1).1 = Return ())
    by (vm_compute; reflexivity).
  split; [exact Htrim|].
  split; [exact Hup|].
  split; [exact Hsend|].
  exact (upload_then_send net onSendMessage input report w text e1 Htrim Hup Hsend).
Defined.

Lemma selection_stays_listed_witness :
  let net := server_net (λ t, t) in
  let w := case_world (Some 1) [case1; case2] in
  let actions := [DeleteCase 1; CreateCase (lit "Quay"); SelectCase 2;
                  SendMessage (lit "hello") None; ChangeTab App.graph; ClearMemory;
                  DeleteCase 2; DeleteCase 3] in
  selection_listed w
  ∧ (session net kind_cases actions w).1 = Return ()
  ∧ selection_listed (session net kind_cases actions w).2.
Proof.
  intros net w actions.
  assert (Hlisted : selection_listed w).
  { intros c [= <-]. by left. }
  split; [exact Hlisted|].
  exact (selection_stays_listed net kind_cases actions w Hlisted).
Defined.

Lemma deleting_the_last_case_clears_the_screen_witness :
  let net := server_net (λ t, t) in
  let w := case_world (Some 1) [case1] in
  let run := perform net kind_cases (DeleteCase 1) w in
  Cases.selectedCaseId w = Some 1
  ∧ Forall (λ k, case_id k = 1) (cases (app (inner w)))
  ∧ (deleteCase kind_cases 1 (env (inner w))).1 = Return ()
  ∧ run.1 = Return ()
  ∧ main run.2 = NoCaseSelected
  ∧ Cases.selectedCaseId run.2 = None
  ∧ cases (app (inner run.2)) = []
  ∧ messages (app (inner run.2)) = []
  ∧ App.graphNodes (app (inner run.2)) = []
  ∧ App.graphEdges (app (inner run.2)) = [].
Proof.
  intros net w run.
  assert (Hsel : Cases.selectedCaseId w = Some 1) by reflexivity.
  assert (Hall : Forall (λ k, case_id k = 1) (cases (app (inner w))))
    by (by repeat constructor).
  assert (Hdel : (deleteCase kind_cases 1 (env (inner w))).1 = Return ())
    by reflexivity.
  split; [exact Hsel|].
  split; [exact Hall|].
  split; [exact Hdel|].
  exact (deleting_the_last_case_clears_the_screen net kind_cases 1 w Hsel Hall Hdel).
Defined.

Lemma selecting_a_case_shows_its_transcript_witness :
  let net := server_net (λ t, t) in
  let w := case_world (Some 1) [case1; case2] in
  let run := perform net kind_cases (SelectCase 2) w in
  2 ∈ case_id <$> cases (app (inner w))
  ∧ 2 ≠ 0
  ∧ if decide (Cases.selectedCaseId w = Some 2) then run = (Return (), w)
    else
      run.1 = Return ()
      ∧ Cases.selectedCaseId run.2 = Some 2
      ∧ activeTab (app (inner run.2)) = chat
      ∧ (∃ evs, new_events (inner w) (inner run.2) = Requested (CaseReq 2) :: evs)
      ∧ match getCase net 2 (env (inner w)) with
        | (Return detail, _) =>
            main run.2
              = ShowChat ((λ msg, {| role := msg_role msg; content := msg_content msg |})
                            <$> case_messages detail)
                         (App.isLoading (app (inner w)))
        | (Throw _, _) =>
            main run.2 = ShowChat (messages (app (inner w)))
                                  (App.isLoading (app (inner w)))
        end.
Proof.
  intros net w run.
  assert (Hin : 2 ∈ case_id <$> cases (app (inner w))) by (right; left).
  assert (Hne : 2 ≠ 0) by lia.
  split; [exact Hin|].
  split; [exact Hne|].
  exact (selecting_a_case_shows_its_transcript net kind_cases 2 w Hin Hne).
Defined.


Lemma overlapping_deletes_lose_the_selection_witness :
  let w := case_world (Some 1) [case1; case2] in
  let sel := Cases.selectedCaseId w in
  let cs := cases (app (inner w)) in
  let first := Cases.handleDeleteCase kind_cases sel cs 2 w in
  let second := Cases.handleDeleteCase kind_cases sel cs 1 first.2 in
  Cases.selectedCaseId w = Some 1
  ∧ 1 ≠ 2
  ∧ case_id <$> head (List.filter (λ k, negb (bool_decide (case_id k = 1))) cs)
    = Some 2
  ∧ (deleteCase kind_cases 2 (env (inner w))).1 = Return ()
  ∧ (deleteCase kind_cases 1 (env (inner first.2))).1 = Return ()
  ∧ first.1 = Return ()
  ∧ second.1 = Return ()
  ∧ Cases.selectedCaseId second.2 = Some 2
  ∧ 2 ∉ case_id <$> cases (app (inner second.2))
  ∧ ¬ selection_listed second.2.
Proof.
  intros w sel cs first second.
  assert (Hsel : Cases.selectedCaseId w = Some 1) by reflexivity.
  assert (Hne : 1 ≠ 2) by lia.
  assert (Hhead : case_id <$> head (List.filter
                    (λ k, negb (bool_decide (case_id k = 1))) cs) = Some 2)
    by reflexivity.
  assert (Hb : (deleteCase kind_cases 2 (env (inner w))).1 = Return ())
    by reflexivity.
  assert (Ha : (deleteCase kind_cases 1 (env (inner first.2))).1 = Return ())
    by reflexivity.
  split; [exact Hsel|].
  split; [exact Hne|].
  split; [exact Hhead|].
  split; [exact Hb|].
  split; [exact Ha|].
  exact (overlapping_deletes_lose_the_selection kind_cases 1 2 w Hsel Hne Hhead Hb Ha).
Defined.
